(** * Yuelly: session, framer and device registry

    A shallow embedding of [custom_components/yuelly/client.py] and
    [custom_components/yuelly/coordinator.py], with the properties of the
    design document stated over it.

    Definitions:
    - [Framing]: the delimiter scan of [YuellyClient._process_buffer];
    - [Registry]: the device store of [YuellyClient._handle_device_data];
    - [Coordinator]: [YuellyDataCoordinator] (sinks, known ids, discovery);
    - [Client]: [YuellyClient] (socket, timers, heartbeat, commands) and the
      part of the event loop it acts on;
    - [Dispatch]: the batches and sink registrations of a session.

    Then the lemmas on each ([FramingFacts], [RegistryFacts],
    [CoordinatorFacts], [DispatchFacts], [ClientFacts]) and the properties
    C1 to C10. *)

From Stdlib Require Import Strings.Byte.
Set Warnings "-clear-no-such-hyp".
From Equations.Prop Require Import Equations Logic.
From stdpp Require Import gmap strings list fin_maps.

#[global] Instance byte_eq_dec : EqDecision byte := Byte.byte_eq_dec.

(** * const.py *)

(** [MESSAGE_DELIMITER = b"$$##"] *)
Definition MESSAGE_DELIMITER : list byte := [x24; x24; x23; x23].
Definition RECONNECT_DELAY : nat := 60.
Definition HEARTBEAT_INTERVAL : nat := 6.

(** * Framing: the [while MESSAGE_DELIMITER in self._buffer] loop *)

Module Framing.

(** [s.startswith(sep)] *)
Fixpoint starts_with (sep s : list byte) : bool :=
  match sep, s with
  | [], _ => true
  | _ :: _, [] => false
  | a :: sep', b :: s' => if decide (a = b) then starts_with sep' s' else false
  end.

(** [s.split(sep, 1)]: the cut at the leftmost occurrence of [sep]; [None]
    stands for [sep not in s] (Python then returns the one-element list
    [[s]], a case the loop guard excludes). *)
Fixpoint split_once (sep s : list byte) : option (list byte * list byte) :=
  if starts_with sep s then Some ([], drop (length sep) s)
  else match s with
       | [] => None
       | b :: s' =>
           match split_once sep s' with
           | Some (m, rest) => Some (b :: m, rest)
           | None => None
           end
       end.

(** [sep in s] *)
Definition contains (sep s : list byte) : bool :=
  if split_once sep s is Some _ then true else false.

Lemma starts_with_spec sep s :
  starts_with sep s = true ↔ ∃ t, s = sep ++ t.
Proof.
  revert s; induction sep as [|a sep IH]; intros s; simpl.
  - split; [by exists s|done].
  - destruct s as [|b s]; [split; [done|by intros [t ?]]|].
    case_decide as Hab.
    + subst b. rewrite IH. split.
      * intros [t ->]. by exists t.
      * intros [t [= ->]]. by exists t.
    + split; [done|]. intros [t [= ? _]]. done.
Qed.

Lemma starts_with_app sep s t :
  starts_with sep s = true → starts_with sep (s ++ t) = true.
Proof.
  rewrite !starts_with_spec. intros [u ->]. exists (u ++ t).
  by rewrite app_assoc.
Qed.

(** A mismatch inside the first [length sep] bytes stays a mismatch when
    bytes are appended. *)
Lemma starts_with_app_false sep s t :
  length sep ≤ length s →
  starts_with sep s = false → starts_with sep (s ++ t) = false.
Proof.
  revert s; induction sep as [|a sep IH]; intros s Hlen; simpl; [done|].
  destruct s as [|b s]; simpl in *; [lia|].
  case_decide; [|done]. apply IH. lia.
Qed.

Lemma split_once_Some sep s m rest :
  split_once sep s = Some (m, rest) → s = m ++ sep ++ rest.
Proof.
  revert m; induction s as [|b s IH]; intros m; simpl.
  - destruct (starts_with sep []) eqn:Hs; [|done].
    intros [= <- <-]. apply starts_with_spec in Hs as [t Ht].
    symmetry in Ht. apply app_eq_nil in Ht as [-> ->]. done.
  - destruct (starts_with sep (b :: s)) eqn:Hs.
    + intros [= <- <-]. apply starts_with_spec in Hs as [t Ht].
      rewrite Ht at 2. rewrite drop_app_length. done.
    + destruct (split_once sep s) as [[m' r']|] eqn:Hsp; [|done].
      intros [= <- <-]. by rewrite (IH m' eq_refl).
Qed.

Lemma split_once_length sep s m rest :
  split_once sep s = Some (m, rest) →
  length s = length m + length sep + length rest.
Proof.
  intros ->%split_once_Some. rewrite !length_app. lia.
Qed.

(** The leftmost occurrence does not move when bytes are appended. *)
Lemma split_once_app sep s t m rest :
  split_once sep s = Some (m, rest) →
  split_once sep (s ++ t) = Some (m, rest ++ t).
Proof.
  revert m; induction s as [|b s IH]; intros m; simpl.
  - destruct (starts_with sep []) eqn:Hs; [|done].
    intros [= <- <-]. apply starts_with_spec in Hs as [u Hu].
    symmetry in Hu. apply app_eq_nil in Hu as [-> ->]. by destruct t.
  - destruct (starts_with sep (b :: s)) eqn:Hs.
    + intros [= <- <-].
      change (b :: s ++ t) with ((b :: s) ++ t).
      rewrite (starts_with_app _ _ _ Hs).
      apply starts_with_spec in Hs as [u Hu]. rewrite Hu.
      rewrite <-app_assoc, !drop_app_length. done.
    + destruct (split_once sep s) as [[m' r']|] eqn:Hsp; [|done].
      intros [= <- <-].
      change (b :: s ++ t) with ((b :: s) ++ t).
      rewrite starts_with_app_false; [|simpl|done].
      * by rewrite (IH m' eq_refl).
      * apply split_once_length in Hsp. lia.
Qed.

(** The loop, for an arbitrary loop body [body] run on each
    [message_part] with the state [S] it reads and writes:
<<
    while MESSAGE_DELIMITER in self._buffer:
        message_part, self._buffer = self._buffer.split(MESSAGE_DELIMITER, 1)
        body(message_part)
>>
    The result is the state after the last iteration and the buffer left. *)
Section Loop.
Context {S : Type}.
Variable body : list byte → S → S.

Equations? process_loop (buf : list byte) (st : S) : S * list byte
  by wf (length buf) lt :=
  process_loop buf st with inspect (split_once MESSAGE_DELIMITER buf) := {
    | exist _ (Some (message_part, rest)) Hsplit =>
        process_loop rest (body message_part st)
    | exist _ None _ => (st, buf) }.
Proof. apply split_once_length in Hsplit. simpl in Hsplit. lia. Qed.

End Loop.

(** The sequence of [message_part]s the loop extracts from a buffer. *)
Definition extract_frames (buf : list byte) : list (list byte) * list byte :=
  process_loop (λ m acc, acc ++ [m]) buf [].

(** [_listen], one iteration with data: [self._buffer += data] and then
    [self._process_buffer()]; the framer's state is the frames extracted
    so far and the buffer. *)
Definition feed (st : list (list byte) * list byte) (data : list byte)
  : list (list byte) * list byte :=
  let '(frames, rest) := extract_frames (st.2 ++ data) in
  (st.1 ++ frames, rest).

End Framing.

(** * Device records

    A decoded JSON device record.  [device_id] is [device.get("id")]:
    [None] when the key is missing or null; the id is a string
    ([_known_device_ids: Set[str]], [device_id: str] in the entity
    constructors).  [fields] holds the other entries of the dict: null,
    integers, strings and lists of strings (the mode list).  Values are
    compared by Python's [==], under which [True == 1] and [False == 0]: a
    JSON boolean is the number it equals.  Temperatures travel as strings;
    floating point numbers are left out. *)

Inductive value :=
| VNone
| VNum (n : Z)
| VStr (s : string)
| VList (l : list string).

#[global] Instance value_eq_dec : EqDecision value.
Proof. solve_decision. Defined.

Record device_record := Device {
  device_id : option string;
  fields : gmap string value;
}.

#[global] Instance device_record_eq_dec : EqDecision device_record.
Proof. solve_decision. Defined.

(** [device_data.get(key)] *)
Definition get (d : device_record) (key : string) : value :=
  default VNone (fields d !! key).

(** [if device_id:] for an optional string. *)
Definition truthy (device_id : option string) : bool :=
  match device_id with
  | Some s => bool_decide (s ≠ ""%string)
  | None => false
  end.

(** * Registry: the loop of [YuellyClient._handle_device_data] *)

Module Registry.

(** One iteration, on the pair [(self.data, data_changed)]:
<<
    device_id = device.get("id")
    if device_id:
        if self.data.get(device_id) != device:
            self.data[device_id] = device
            data_changed = True
>> *)
Definition store_device (st : gmap string device_record * bool) (device : device_record)
  : gmap string device_record * bool :=
  if truthy (device_id device) then
    match device_id device with
    | Some i =>
        if decide (st.1 !! i = Some device) then st
        else (<[i:=device]> st.1, true)
    | None => st
    end
  else st.

(** [data_changed = False; for device in device_list: ...] *)
Definition store_devices (data : gmap string device_record) (device_list : list device_record)
  : gmap string device_record * bool :=
  foldl store_device (data, false) device_list.

End Registry.

(** * Coordinator: [YuellyDataCoordinator] *)

Inductive Platform := SWITCH | SENSOR | NUMBER | SELECT.

#[global] Instance platform_eq_dec : EqDecision Platform.
Proof. solve_decision. Defined.

#[global] Instance platform_countable : Countable Platform.
Proof.
  refine (inj_countable'
            (λ p, match p with
                  | SWITCH => 0 | SENSOR => 1 | NUMBER => 2 | SELECT => 3
                  end)
            (λ n, match n with
                  | 0 => SWITCH | 1 => SENSOR | 2 => NUMBER | _ => SELECT
                  end) _).
  by intros [].
Defined.

(** The entity objects built on discovery, each for one device id. *)
Inductive entity :=
| YuellySwitch (device_id : string)
| YuellyTemperatureSensor (device_id : string)
| YuellyTemperatureNumber (device_id : string)
| YuellyModeSelect (device_id : string).

#[global] Instance entity_eq_dec : EqDecision entity.
Proof. solve_decision. Defined.

Definition entity_device (e : entity) : string :=
  match e with
  | YuellySwitch i | YuellyTemperatureSensor i
  | YuellyTemperatureNumber i | YuellyModeSelect i => i
  end.

(** What the program sends out of itself. *)
Inductive message :=
| Heartbeat (device_data : list (string * value)) (token : option string)
| Command (command : gmap string value).

#[global] Instance message_eq_dec : EqDecision message.
Proof. solve_decision. Defined.

Inductive event :=
| Discovered (device_id : string)
    (** [LOGGER.info("Dynamically discovered new device: ...")] *)
| AddEntities (p : Platform) (new_entities : list entity)
    (** [hass.async_create_task(self._async_add_new_entities(p, new_entities))] *)
| UpdatedData (snapshot : gmap string device_record)
    (** [self.async_set_updated_data(self.data)] *)
| Write (sock : nat) (m : message)
    (** [self._writer.write(...)], [await self._writer.drain()] *)
| JSONDecodeError (message_part : list byte)
    (** [LOGGER.error("JSON decode error: ...")] *)
| ProcessingError (message_part : list byte)
    (** [LOGGER.error("Error processing message part: ...")] *)
| SendFailed
    (** [LOGGER.warning("Attempted to send command, but connection is not
        active.")] and [LOGGER.error("Error sending command: ...")] *)
| HeartbeatFailed.
    (** [LOGGER.warning("Error sending heartbeat: ...")] *)

#[global] Instance event_eq_dec : EqDecision event.
Proof. solve_decision. Defined.

Module Coordinator.

(** [_async_add_entities] maps each platform to its callback, [None] (here:
    no entry) until the platform registers one; a callback is known by a
    number.  [self.data] is [client.data], the one dict both objects hold:
    the functions below take it as an argument. *)
Record coordinator := {
  async_add_entities : gmap Platform nat;
  known_device_ids : gset string;
}.

#[global] Instance coordinator_eq_dec : EqDecision coordinator.
Proof. solve_decision. Defined.

(** [__init__] *)
Definition init : coordinator :=
  {| async_add_entities := ∅; known_device_ids := ∅ |}.

(** [set_entity_adder]:
<<
    self._async_add_entities[platform] = async_add_entities_func
    self._known_device_ids.update(self.data.keys())
>> *)
Definition set_entity_adder (platform : Platform) (async_add_entities_func : nat)
    (data : gmap string device_record) (self : coordinator) : coordinator :=
  {| async_add_entities := <[platform:=async_add_entities_func]> (async_add_entities self);
     known_device_ids := known_device_ids self ∪ dom data |}.

(** [get_known_device_protocols]: [device_data.get("protocal", 0)] for every
    device of [self.data]. *)
Definition get_known_device_protocols (data : gmap string device_record)
  : list (string * value) :=
  (λ kv, (kv.1, default (VNum 0) (fields kv.2 !! "protocal"%string)))
    <$> map_to_list data.

(** The variables of the discovery loop of [notify_data_received]. *)
Record discovery := {
  known : gset string;
  new_switch_entities : list entity;
  new_sensor_entities : list entity;
  new_number_entities : list entity;
  new_select_entities : list entity;
  discovered : list event;
}.

Definition is_not_None (v : value) : bool :=
  match v with VNone => false | _ => true end.

(** One iteration of [for device_id, device_data in self.data.items()]. *)
Definition discover (st : discovery) (item : string * device_record) : discovery :=
  let '(device_id, device_data) := item in
  if decide (device_id ∈ known st) then st
  else
    {| known := known st ∪ {[device_id]};
       new_switch_entities := new_switch_entities st ++ [YuellySwitch device_id];
       new_sensor_entities :=
         new_sensor_entities st ++
         (if is_not_None (get device_data "temp")
          then [YuellyTemperatureSensor device_id] else []);
       new_number_entities :=
         new_number_entities st ++
         (if is_not_None (get device_data "setTemp")
          then [YuellyTemperatureNumber device_id] else []);
       new_select_entities :=
         new_select_entities st ++
         (if is_not_None (get device_data "mode")
             && is_not_None (get device_data "modeList")
          then [YuellyModeSelect device_id] else []);
       discovered := discovered st ++ [Discovered device_id] |}.

(** [if new_entities and self._async_add_entities[platform]: create_task] *)
Definition schedule (self : coordinator) (p : Platform) (new_entities : list entity)
  : list event :=
  match new_entities, async_add_entities self !! p with
  | _ :: _, Some _ => [AddEntities p new_entities]
  | _, _ => []
  end.

(** [any(self._async_add_entities.values())] *)
Definition any_adder (self : coordinator) : bool :=
  existsb (λ p, bool_decide (is_Some (async_add_entities self !! p)))
          [SWITCH; SENSOR; NUMBER; SELECT].

(** [notify_data_received].  The loop runs over the items of the dict;
    Python takes them in insertion order, here they come in the order of
    [map_to_list]: the order of the entities inside one task follows it. *)
Definition notify_data_received (data : gmap string device_record) (self : coordinator)
  : coordinator * list event :=
  if any_adder self then
    let st := foldl discover
                {| known := known_device_ids self;
                   new_switch_entities := []; new_sensor_entities := [];
                   new_number_entities := []; new_select_entities := [];
                   discovered := [] |}
                (map_to_list data) in
    ({| async_add_entities := async_add_entities self;
        known_device_ids := known st |},
     discovered st
       ++ schedule self SWITCH (new_switch_entities st)
       ++ schedule self SENSOR (new_sensor_entities st)
       ++ schedule self NUMBER (new_number_entities st)
       ++ schedule self SELECT (new_select_entities st)
       ++ [UpdatedData data])
  else (self, [UpdatedData data]).

End Coordinator.

(** * [YuellyClient._handle_device_data]

    The method reads and writes [self.data] and calls the coordinator, whose
    [data] is the same dict: it is given here on the pair of the dict and
    the coordinator reference ([None] before [set_update_coordinator]).
<<
    if data_changed and self.coordinator:
        try:
            self.coordinator.notify_data_received()
        except Exception as e: ...
>> *)
Definition handle_device_data (device_list : list device_record)
    (data : gmap string device_record)
    (coordinator : option Coordinator.coordinator)
  : gmap string device_record * option Coordinator.coordinator * list event :=
  let '(data, data_changed) := Registry.store_devices data device_list in
  if data_changed then
    match coordinator with
    | Some c =>
        let '(c, events) := Coordinator.notify_data_received data c in
        (data, Some c, events)
    | None => (data, None, [])
    end
  else (data, coordinator, []).

(** * Client: [YuellyClient] and the event loop it runs on *)

Module Client.

(** The callbacks handed to [async_call_later]. *)
Inductive callback := HandleReconnect | SendHeartbeatWrapper.

#[global] Instance callback_eq_dec : EqDecision callback.
Proof. solve_decision. Defined.

(** What [async_call_later] returns.  The client cancels it only under
    [isinstance(_, TimerHandle)]. *)
Record handle := {
  handle_id : nat;
  isinstance_TimerHandle : bool;
}.

#[global] Instance handle_eq_dec : EqDecision handle.
Proof. solve_decision. Defined.

(** The part of the event loop the client acts on: the timers scheduled and
    neither fired nor cancelled, the open connections, and the listen tasks
    created and not cancelled.  Sockets, timers and tasks are known by a
    number, drawn from [next_id].  [timer_handles] tells whether the
    objects [async_call_later] returns are [TimerHandle]s. *)
Record hass := {
  next_id : nat;
  timers : list (nat * (nat * callback));
  connections : list nat;
  tasks : list nat;
  timer_handles : bool;
}.

#[global] Instance hass_eq_dec : EqDecision hass.
Proof. solve_decision. Defined.

Record client := {
  is_running : bool;
  reader : option nat;
  writer : option nat;
  token : option string;
  reconnect_task : option handle;
  heartbeat_task : option handle;
  listen_task : option nat;
  buffer : list byte;
  data : gmap string device_record;
  coordinator : option Coordinator.coordinator;
}.

#[global] Instance client_eq_dec : EqDecision client.
Proof. solve_decision. Defined.

(** [__init__] *)
Definition init (token : option string) : client :=
  {| is_running := true; reader := None; writer := None; token := token;
     reconnect_task := None; heartbeat_task := None; listen_task := None;
     buffer := []; data := ∅; coordinator := None |}.

(** A fresh event loop. *)
Definition loop (timer_handles : bool) : hass :=
  {| next_id := 0; timers := []; connections := []; tasks := [];
     timer_handles := timer_handles |}.

(** ** Field updates *)

Definition set_is_running (b : bool) (self : client) : client :=
  {| is_running := b; reader := reader self; writer := writer self;
     token := token self; reconnect_task := reconnect_task self;
     heartbeat_task := heartbeat_task self; listen_task := listen_task self;
     buffer := buffer self; data := data self;
     coordinator := coordinator self |}.

(** [self._reader, self._writer = ...] *)
Definition set_streams (s : option nat) (self : client) : client :=
  {| is_running := is_running self; reader := s; writer := s;
     token := token self; reconnect_task := reconnect_task self;
     heartbeat_task := heartbeat_task self; listen_task := listen_task self;
     buffer := buffer self; data := data self;
     coordinator := coordinator self |}.

Definition set_reconnect_task (t : option handle) (self : client) : client :=
  {| is_running := is_running self; reader := reader self;
     writer := writer self; token := token self; reconnect_task := t;
     heartbeat_task := heartbeat_task self; listen_task := listen_task self;
     buffer := buffer self; data := data self;
     coordinator := coordinator self |}.

Definition set_heartbeat_task (t : option handle) (self : client) : client :=
  {| is_running := is_running self; reader := reader self;
     writer := writer self; token := token self;
     reconnect_task := reconnect_task self; heartbeat_task := t;
     listen_task := listen_task self; buffer := buffer self;
     data := data self; coordinator := coordinator self |}.

Definition set_listen_task (t : option nat) (self : client) : client :=
  {| is_running := is_running self; reader := reader self;
     writer := writer self; token := token self;
     reconnect_task := reconnect_task self;
     heartbeat_task := heartbeat_task self; listen_task := t;
     buffer := buffer self; data := data self;
     coordinator := coordinator self |}.

Definition set_buffer (b : list byte) (self : client) : client :=
  {| is_running := is_running self; reader := reader self;
     writer := writer self; token := token self;
     reconnect_task := reconnect_task self;
     heartbeat_task := heartbeat_task self; listen_task := listen_task self;
     buffer := b; data := data self; coordinator := coordinator self |}.

Definition set_data (d : gmap string device_record) (self : client) : client :=
  {| is_running := is_running self; reader := reader self;
     writer := writer self; token := token self;
     reconnect_task := reconnect_task self;
     heartbeat_task := heartbeat_task self; listen_task := listen_task self;
     buffer := buffer self; data := d; coordinator := coordinator self |}.

(** [set_update_coordinator], and every change of the coordinator object. *)
Definition set_update_coordinator (c : option Coordinator.coordinator)
    (self : client) : client :=
  {| is_running := is_running self; reader := reader self;
     writer := writer self; token := token self;
     reconnect_task := reconnect_task self;
     heartbeat_task := heartbeat_task self; listen_task := listen_task self;
     buffer := buffer self; data := data self; coordinator := c |}.

(** ** The event loop *)

(** [async_call_later(self.hass, delay, action)] *)
Definition async_call_later (delay : nat) (action : callback) (h : hass)
  : handle * hass :=
  ({| handle_id := next_id h; isinstance_TimerHandle := timer_handles h |},
   {| next_id := S (next_id h);
      timers := timers h ++ [(next_id h, (delay, action))];
      connections := connections h; tasks := tasks h;
      timer_handles := timer_handles h |}).

(** [if isinstance(t, TimerHandle): t.cancel()] *)
Definition cancel (t : handle) (h : hass) : hass :=
  if isinstance_TimerHandle t then
    {| next_id := next_id h;
       timers := filter (λ x, x.1 ≠ handle_id t) (timers h);
       connections := connections h; tasks := tasks h;
       timer_handles := timer_handles h |}
  else h.

(** [if t: if isinstance(t, TimerHandle): t.cancel()] *)
Definition cancel_if_set (t : option handle) (h : hass) : hass :=
  match t with Some t => cancel t h | None => h end.

(** [asyncio.open_connection], when it succeeds. *)
Definition open_connection (h : hass) : nat * hass :=
  (next_id h,
   {| next_id := S (next_id h); timers := timers h;
      connections := connections h ++ [next_id h]; tasks := tasks h;
      timer_handles := timer_handles h |}).

(** [self._writer.close()] *)
Definition close (sock : nat) (h : hass) : hass :=
  {| next_id := next_id h; timers := timers h;
     connections := filter (λ s, s ≠ sock) (connections h);
     tasks := tasks h; timer_handles := timer_handles h |}.

(** [self.hass.async_create_task(self._listen())] *)
Definition async_create_task (h : hass) : nat * hass :=
  (next_id h,
   {| next_id := S (next_id h); timers := timers h;
      connections := connections h; tasks := tasks h ++ [next_id h];
      timer_handles := timer_handles h |}).

(** [self._listen_task.cancel()] *)
Definition cancel_task (t : nat) (h : hass) : hass :=
  {| next_id := next_id h; timers := timers h;
     connections := connections h; tasks := filter (λ x, x ≠ t) (tasks h);
     timer_handles := timer_handles h |}.

(** A timer leaves the schedule when it fires. *)
Definition expire (t : nat) (h : hass) : hass :=
  {| next_id := next_id h; timers := filter (λ x, x.1 ≠ t) (timers h);
     connections := connections h; tasks := tasks h;
     timer_handles := timer_handles h |}.

(** The timers scheduled for one callback. *)
Definition outstanding (action : callback) (h : hass) : list nat :=
  (λ x, x.1) <$> filter (λ x, x.2.2 = action) (timers h).

(** ** Timers and connection *)

(** [_start_heartbeat] *)
Definition start_heartbeat (w : client * hass) : client * hass :=
  let '(self, h) := w in
  let '(self, h) :=
    match heartbeat_task self with
    | Some t => (set_heartbeat_task None self, cancel t h)
    | None => (self, h)
    end in
  let '(t, h) := async_call_later HEARTBEAT_INTERVAL SendHeartbeatWrapper h in
  (set_heartbeat_task (Some t) self, h).

(** [_schedule_reconnect] *)
Definition schedule_reconnect (w : client * hass) : client * hass :=
  let '(self, h) := w in
  let h := cancel_if_set (reconnect_task self) h in
  let self := set_reconnect_task None self in
  let '(t, h) := async_call_later RECONNECT_DELAY HandleReconnect h in
  (set_reconnect_task (Some t) self, h).

(** [connect]; [opened] tells whether [asyncio.open_connection] returns
    within [TCP_TIMEOUT] or raises ([ConnectionRefusedError],
    [asyncio.TimeoutError], [OSError]). *)
Definition connect (opened : bool) (w : client * hass) : client * hass :=
  let '(self, h) := w in
  if negb (is_running self) then w
  else if opened then
    let '(sock, h) := open_connection h in
    let self := set_streams (Some sock) self in
    let '(self, h) :=
      match reconnect_task self with
      | Some t => (set_reconnect_task None self, cancel t h)
      | None => (self, h)
      end in
    let '(self, h) :=
      match heartbeat_task self with
      | Some t => (set_heartbeat_task None self, cancel t h)
      | None => (self, h)
      end in
    let '(t, h) := async_create_task h in
    start_heartbeat (set_listen_task (Some t) self, h)
  else schedule_reconnect (self, h).

(** [_close_connection] *)
Definition close_connection (w : client * hass) : client * hass :=
  let '(self, h) := w in
  let '(self, h) :=
    match listen_task self with
    | Some t => (set_listen_task None self, cancel_task t h)
    | None => (self, h)
    end in
  let h := cancel_if_set (heartbeat_task self) h in
  let self := set_heartbeat_task None self in
  match writer self with
  | Some sock => (set_streams None self, close sock h)
  | None => (self, h)
  end.

(** [_handle_disconnect] *)
Definition handle_disconnect (w : client * hass) : client * hass :=
  let '(self, h) := w in
  if negb (is_running self) then w
  else
    let '(t, h) := async_call_later RECONNECT_DELAY HandleReconnect h in
    close_connection (set_reconnect_task (Some t) self, h).

(** [shutdown] *)
Definition shutdown (w : client * hass) : client * hass :=
  let '(self, h) := w in
  let self := set_is_running false self in
  let h := cancel_if_set (reconnect_task self) h in
  let h := cancel_if_set (heartbeat_task self) h in
  close_connection (self, h).

(** ** Sending *)

(** [if self._token:] *)
Definition token_if_set (self : client) : option string :=
  if truthy (token self) then token self else None.

Inductive result := Returned (b : bool) | Raised.

(** [send_heartbeat]; [sent] tells whether [write] and [drain] go through
    or raise. *)
Definition send_heartbeat (sent : bool) (self : client) : result * list event :=
  match writer self, coordinator self with
  | Some sock, Some c =>
      if is_running self then
        if sent then
          (Returned true,
           [Write sock (Heartbeat
                          (Coordinator.get_known_device_protocols (data self))
                          (token_if_set self))])
        else (Raised, [])
      else (Returned false, [])
  | _, _ => (Returned false, [])
  end.

(** [_send_heartbeat_wrapper] *)
Definition send_heartbeat_wrapper (sent : bool) (w : client * hass)
  : client * hass * list event :=
  let '(self, h) := w in
  let '(r, events) := send_heartbeat sent self in
  let events := events ++ match r with Raised => [HeartbeatFailed] | _ => [] end in
  if is_running self && bool_decide (is_Some (writer self))
  then (start_heartbeat w, events)
  else (w, events).

(** [send_command]; [sent] tells whether the [try] block goes through. *)
Definition send_command (command : gmap string value) (sent : bool)
    (self : client) : client * bool * list event :=
  match writer self with
  | None => (self, false, [SendFailed])
  | Some sock =>
      if negb (is_running self) then (self, false, [SendFailed])
      else if sent then
        let command_with_token :=
          match token_if_set self with
          | Some t => <["token"%string := VStr t]> command
          | None => command
          end in
        (self, true, [Write sock (Command command_with_token)])
      else (self, false, [SendFailed])
  end.

(** ** Receiving *)

(** What [json.loads(message_part.decode("utf-8", errors="ignore").strip())]
    and the reading of the message make of a frame:
    - [DeviceData l]: a JSON object with [type == "device"]; [l] is its
      [data] list ([[]] when the key is missing);
    - [Ignored]: a JSON object of another type;
    - [Broken l]: JSON on which the handler raises after storing the
      records [l] (a value without [.get]: [l = []]; a [data] list whose
      element after [l] is not a record). *)
Inductive decoded :=
| DeviceData (device_list : list device_record)
| Ignored
| Broken (stored : list device_record).

(** [_handle_device_data] on the client's fields. *)
Definition handle_device_data_ (device_list : list device_record)
    (self : client) : client * list event :=
  let '(d, c, events) :=
    handle_device_data device_list (data self) (coordinator self) in
  (set_update_coordinator c (set_data d self), events).

Section Decode.

(** [loads m] is [None] when [json.loads] raises [JSONDecodeError]. *)
Variable loads : list byte → option decoded.

(** The body of the loop of [_process_buffer], on the client and the events
    so far. *)
Definition handle_message (message_part : list byte)
    (st : client * list event) : client * list event :=
  match loads message_part with
  | Some (DeviceData device_list) =>
      let '(self, events) := handle_device_data_ device_list st.1 in
      (self, st.2 ++ events)
  | Some Ignored => st
  | Some (Broken stored) =>
      (set_data (Registry.store_devices (data st.1) stored).1 st.1,
       st.2 ++ [ProcessingError message_part])
  | None => (st.1, st.2 ++ [JSONDecodeError message_part])
  end.

(** [_process_buffer].  The body neither reads nor writes [self._buffer]:
    the field is written once, with what the loop leaves. *)
Definition process_buffer (self : client) : client * list event :=
  let '(st, rest) :=
    Framing.process_loop handle_message (buffer self) (self, []) in
  (set_buffer rest st.1, st.2).

(** [_listen], one turn of the task [task]: [data] is what
    [self._reader.read(BUFFER_SIZE)] gives, [None] when it raises.  A task
    that was cancelled does nothing.  After data the task goes round the
    loop and returns if [self._is_running and self._reader] fails; after
    [b""] or an error it calls [_handle_disconnect] and returns. *)
Definition listen (task : nat) (data : option (list byte))
    (w : client * hass) : client * hass * list event :=
  let '(self, h) := w in
  if bool_decide (task ∈ tasks h) then
    match data with
    | Some (b :: bytes) =>
        let '(self, events) :=
          process_buffer (set_buffer (buffer self ++ b :: bytes) self) in
        (self,
         if is_running self && bool_decide (is_Some (reader self))
         then h else cancel_task task h,
         events)
    | Some [] | None =>
        let '(self, h) := handle_disconnect w in
        (self, cancel_task task h, [])
    end
  else (w, []).

(** A timer expires and its callback runs; [ok] is the outcome of the
    input/output the callback does ([opened] of [connect], [sent] of
    [send_heartbeat]). *)
Definition fire (timer : nat) (ok : bool) (w : client * hass)
  : client * hass * list event :=
  let '(self, h) := w in
  match list_find (λ x, x.1 = timer) (timers h) with
  | Some (_, (_, (_, HandleReconnect))) =>
      (connect ok (self, expire timer h), [])
  | Some (_, (_, (_, SendHeartbeatWrapper))) =>
      send_heartbeat_wrapper ok (self, expire timer h)
  | None => (w, [])
  end.

(** What happens to a session: calls of its methods, by the host or by
    the event loop. *)
Inductive action :=
| Connect (opened : bool)
| Listen (task : nat) (data : option (list byte))
| Fire (timer : nat) (ok : bool)
| SendCommand (command : gmap string value) (sent : bool)
| Shutdown
| SetEntityAdder (p : Platform) (async_add_entities_func : nat).

Definition step (w : client * hass) (a : action) : client * hass * list event :=
  match a with
  | Connect opened => (connect opened w, [])
  | Listen task data => listen task data w
  | Fire timer ok => fire timer ok w
  | SendCommand command sent =>
      let '(self, _, events) := send_command command sent w.1 in
      (self, w.2, events)
  | Shutdown => (shutdown w, [])
  | SetEntityAdder p f =>
      match coordinator w.1 with
      | Some c =>
          (set_update_coordinator
             (Some (Coordinator.set_entity_adder p f (data w.1) c)) w.1,
           w.2, [])
      | None => (w, [])
      end
  end.

Fixpoint run (w : client * hass) (actions : list action)
  : client * hass * list event :=
  match actions with
  | [] => (w, [])
  | a :: actions =>
      let '(w, events) := step w a in
      let '(w', events') := run w actions in
      (w', events ++ events')
  end.

End Decode.

(** The session [async_setup_entry] builds: a client and its coordinator. *)
Definition setup (token : option string) (timer_handles : bool) : client * hass :=
  (set_update_coordinator (Some Coordinator.init) (init token),
   loop timer_handles).

End Client.

(** * Counting events *)

(** How many times [i] is reported as newly discovered. *)
Definition discoveries (i : string) (events : list event) : nat :=
  length (filter (λ e, e = Discovered i) events).

(** How many entities of device [i] an event hands to the sink of [p]. *)
Definition delivered (p : Platform) (i : string) (e : event) : nat :=
  match e with
  | AddEntities q new_entities =>
      if decide (q = p)
      then length (filter (λ x, entity_device x = i) new_entities)
      else 0
  | _ => 0
  end.

Definition deliveries (p : Platform) (i : string) (events : list event) : nat :=
  sum_list_with (delivered p i) events.

Definition is_UpdatedData (e : event) : bool :=
  match e with UpdatedData _ => true | _ => false end.

(** How many change notifications the coordinator got: each call of
    [notify_data_received] ends in one [async_set_updated_data]. *)
Definition notifications (events : list event) : nat :=
  length (filter (λ e, is_UpdatedData e = true) events).

Definition is_Write (e : event) : bool :=
  match e with Write _ _ => true | _ => false end.

(** How many messages were written to a socket. *)
Definition writes (events : list event) : nat :=
  length (filter (λ e, is_Write e = true) events).

(** * The dispatcher: batches and sink registrations

    What reaches the registry and the coordinator over the life of a
    session: [_handle_device_data] for each device message, and
    [set_entity_adder] from each platform as it is set up. *)

Module Dispatch.

Inductive op :=
| Ingest (device_list : list device_record)
| SetEntityAdder (p : Platform) (async_add_entities_func : nat).

Definition step (st : gmap string device_record * Coordinator.coordinator)
    (o : op) : gmap string device_record * Coordinator.coordinator * list event :=
  match o with
  | Ingest device_list =>
      let '(data, c, events) := handle_device_data device_list st.1 (Some st.2) in
      (data, default st.2 c, events)
  | SetEntityAdder p f => (st.1, Coordinator.set_entity_adder p f st.1 st.2, [])
  end.

Fixpoint run (st : gmap string device_record * Coordinator.coordinator)
    (ops : list op)
  : gmap string device_record * Coordinator.coordinator * list event :=
  match ops with
  | [] => (st, [])
  | o :: ops =>
      let '(st, events) := step st o in
      let '(st', events') := run st ops in
      (st', events ++ events')
  end.

End Dispatch.

(** * Example data *)

Definition device_A : device_record :=
  {| device_id := Some "A"%string;
     fields := <["temp"%string := VStr "21.5"]> {["onLine"%string := VNum 1]} |}.

Definition device_A' : device_record :=
  {| device_id := Some "A"%string;
     fields := <["temp"%string := VStr "22.0"]> {["onLine"%string := VNum 1]} |}.

Definition device_no_id : device_record :=
  {| device_id := None; fields := {["temp"%string := VStr "19.0"]} |}.

(** A decoder that knows one frame: ["{}"], a JSON object of no type; it
    takes any other frame for invalid JSON. *)
Definition loads_braces (m : list byte) : option Client.decoded :=
  if decide (m = [x7b; x7d]) then Some Client.Ignored else None.

(** * The wire: what [send_command] and [send_heartbeat] write

    [message_bytes = message_str.encode("utf-8") + MESSAGE_DELIMITER] *)

Module Wire.

Definition frame (payload : list byte) : list byte :=
  payload ++ MESSAGE_DELIMITER.

(** The bytes of messages written one after the other. *)
Definition stream (payloads : list (list byte)) : list byte :=
  concat (frame <$> payloads).

End Wire.

(** * Platform setup: [async_setup_entry] of sensor.py, number.py, select.py

    Each registers the sink of its platform with the coordinator and then,
    with no await in between, builds an entity for every device of the
    registry that has the platform's fields and hands the list, empty or
    not, to the sink:
<<
    coordinator.set_entity_adder(Platform.SENSOR, async_add_entities)
    entities = []
    for device_id, device_data in coordinator.data.items():
        if device_data.get("temp") is not None:
            entities.append(YuellyTemperatureSensor(coordinator, device_id))
    async_add_entities(entities)
>>
    The functions return the coordinator and the list handed over. *)

Module Sensor.

Definition async_setup_entry (async_add_entities : nat)
    (data : gmap string device_record) (coordinator : Coordinator.coordinator)
  : Coordinator.coordinator * list entity :=
  let coordinator :=
    Coordinator.set_entity_adder SENSOR async_add_entities data coordinator in
  let entities :=
    foldl (λ entities item,
             if Coordinator.is_not_None (get item.2 "temp")
             then entities ++ [YuellyTemperatureSensor item.1]
             else entities)
          [] (map_to_list data) in
  (coordinator, entities).

End Sensor.

Module Number.

Definition async_setup_entry (async_add_entities : nat)
    (data : gmap string device_record) (coordinator : Coordinator.coordinator)
  : Coordinator.coordinator * list entity :=
  let coordinator :=
    Coordinator.set_entity_adder NUMBER async_add_entities data coordinator in
  let entities :=
    foldl (λ entities item,
             if Coordinator.is_not_None (get item.2 "setTemp")
             then entities ++ [YuellyTemperatureNumber item.1]
             else entities)
          [] (map_to_list data) in
  (coordinator, entities).

End Number.

Module Select.

Definition async_setup_entry (async_add_entities : nat)
    (data : gmap string device_record) (coordinator : Coordinator.coordinator)
  : Coordinator.coordinator * list entity :=
  let coordinator :=
    Coordinator.set_entity_adder SELECT async_add_entities data coordinator in
  let entities :=
    foldl (λ entities item,
             if Coordinator.is_not_None (get item.2 "mode")
                && Coordinator.is_not_None (get item.2 "modeList")
             then entities ++ [YuellyModeSelect item.1]
             else entities)
          [] (map_to_list data) in
  (coordinator, entities).

End Select.

(** * The platforms and the dispatcher together

    What reaches the registry, the coordinator and the sinks while the
    platforms are set up and device messages arrive.  The setup of the
    switch platform registers its sink and then awaits
    [async_config_entry_first_refresh] before it builds its entities: only
    the registration is given here. *)

Module Platforms.

Inductive op :=
| Ingest (device_list : list device_record)
| SwitchAdder (async_add_entities : nat)
    (** [coordinator.set_entity_adder("switch", async_add_entities)] *)
| SensorSetup (async_add_entities : nat)
| NumberSetup (async_add_entities : nat)
| SelectSetup (async_add_entities : nat).

(** A sink is called by a task of the coordinator or by the setup of its
    platform. *)
Inductive call :=
| Event (e : event)
| Setup (p : Platform) (entities : list entity).
    (** [async_add_entities(entities)] in [async_setup_entry] *)

Definition step (st : gmap string device_record * Coordinator.coordinator)
    (o : op) : gmap string device_record * Coordinator.coordinator * list call :=
  match o with
  | Ingest device_list =>
      let '(data, c, events) := handle_device_data device_list st.1 (Some st.2) in
      (data, default st.2 c, Event <$> events)
  | SwitchAdder f => (st.1, Coordinator.set_entity_adder SWITCH f st.1 st.2, [])
  | SensorSetup f =>
      let '(c, entities) := Sensor.async_setup_entry f st.1 st.2 in
      (st.1, c, [Setup SENSOR entities])
  | NumberSetup f =>
      let '(c, entities) := Number.async_setup_entry f st.1 st.2 in
      (st.1, c, [Setup NUMBER entities])
  | SelectSetup f =>
      let '(c, entities) := Select.async_setup_entry f st.1 st.2 in
      (st.1, c, [Setup SELECT entities])
  end.

Fixpoint run (st : gmap string device_record * Coordinator.coordinator)
    (ops : list op)
  : gmap string device_record * Coordinator.coordinator * list call :=
  match ops with
  | [] => (st, [])
  | o :: ops =>
      let '(st, calls) := step st o in
      let '(st', calls') := run st ops in
      (st', calls ++ calls')
  end.

(** The platform whose sink an operation registers. *)
Definition registers (o : op) : option Platform :=
  match o with
  | Ingest _ => None
  | SwitchAdder _ => Some SWITCH
  | SensorSetup _ => Some SENSOR
  | NumberSetup _ => Some NUMBER
  | SelectSetup _ => Some SELECT
  end.

(** How many entities of device [i] a call hands to the sink of [p]. *)
Definition handed_by (p : Platform) (i : string) (c : call) : nat :=
  match c with
  | Event e => delivered p i e
  | Setup q entities =>
      if decide (q = p)
      then length (filter (λ x, entity_device x = i) entities)
      else 0
  end.

Definition handed (p : Platform) (i : string) (calls : list call) : nat :=
  sum_list_with (handed_by p i) calls.

End Platforms.

(** * config_flow.py: the login and the config entry

    [_login_and_get_token] posts the credentials to [AUTH_URL] and reads
    the answer; [async_step_user] turns its result into a config entry or
    into the form with an error.  The answer of the server is given: what
    it is depends on the server alone. *)

Module ConfigFlow.

(** const.py *)
Definition DEFAULT_HOST : string := "www.mini-clouds.com".
Definition DEFAULT_PORT : Z := 19999.

(** A JSON value as the flow reads it: an object, which has [.get], or a
    value that has none (null, a number, a boolean, a string, a list).
    The entries of the inner object are values without entries of their
    own. *)
Inductive json :=
| Atom (v : value)
| Object (fields : gmap string value).

#[global] Instance json_eq_dec : EqDecision json.
Proof. solve_decision. Defined.

(** What the request gives: an exception in the [try] block
    ([ClientConnectorError], [ClientResponseError] from
    [raise_for_status], another [ClientError], or anything else, such as a
    timeout or a body that is not JSON), or the value of
    [await response.json()]. *)
Inductive response :=
| RequestFailed
| Body (fields : gmap string json)
| NotAnObject.

Inductive exception :=
| AuthException
| ConnectionException
| AttributeError.

Record info := {
  info_token : value;
  info_host : value;
  info_port : value;
}.

Inductive outcome :=
| Return (i : info)
| Raise (e : exception).

(** [if not token:] *)
Definition falsy (v : value) : bool :=
  match v with
  | VNone => true
  | VNum n => bool_decide (n = 0%Z)
  | VStr s => bool_decide (s = ""%string)
  | VList l => bool_decide (l = [])
  end.

(** [_login_and_get_token]:
<<
    api_status = data.get("status")
    response_data = data.get("data", {})
    if api_status != 1:
        error_msg = response_data.get("errorMsg", "...")
        raise AuthException(error_msg)
    token = response_data.get(CONF_TOKEN)
    if not token:
        raise AuthException("...")
    device_host = response_data.get(CONF_HOST, DEFAULT_HOST)
    device_port = response_data.get(CONF_PORT, DEFAULT_PORT)
>>
    These lines stand after the [try] block: an [AttributeError] of
    theirs is not turned into a [ConnectionException]. *)
Definition login_and_get_token (r : response) : outcome :=
  match r with
  | RequestFailed => Raise ConnectionException
  | NotAnObject => Raise AttributeError
  | Body data =>
      let api_status := default (Atom VNone) (data !! "status"%string) in
      let response_data := default (Object ∅) (data !! "data"%string) in
      if decide (api_status ≠ Atom (VNum 1)) then
        match response_data with
        | Object _ => Raise AuthException
        | Atom _ => Raise AttributeError
        end
      else
        match response_data with
        | Atom _ => Raise AttributeError
        | Object response_data =>
            let token := default VNone (response_data !! "token"%string) in
            if falsy token then Raise AuthException
            else
              Return
                {| info_token := token;
                   info_host :=
                     default (VStr DEFAULT_HOST) (response_data !! "host"%string);
                   info_port :=
                     default (VNum DEFAULT_PORT) (response_data !! "port"%string) |}
        end
  end.

(** The data of the config entry. *)
Record entry := {
  CONF_USERNAME : string;
  CONF_TOKEN : value;
  CONF_HOST : value;
  CONF_PORT : value;
}.

Inductive flow_result :=
| ShowForm (errors : option string)
    (** [async_show_form(..., errors=_errors)]: the ["base"] error *)
| CreateEntry (title : string) (data : entry)
| AbortFlow.
    (** raised by [_abort_if_unique_id_configured] *)

(** [async_step_user]; [user_input] is the user name and the password of
    the form, [already_configured] tells whether an entry with the unique
    id of the integration exists. *)
Definition async_step_user (user_input : option (string * string))
    (r : response) (already_configured : bool) : flow_result :=
  match user_input with
  | None => ShowForm None
  | Some (username, password) =>
      match login_and_get_token r with
      | Raise AuthException => ShowForm (Some "auth"%string)
      | Raise ConnectionException => ShowForm (Some "connection"%string)
      | Raise AttributeError => ShowForm (Some "unknown"%string)
      | Return i =>
          if already_configured then AbortFlow
          else
            CreateEntry
              (String.append "Yuelly (" (String.append username ")"))
              {| CONF_USERNAME := username; CONF_TOKEN := info_token i;
                 CONF_HOST := info_host i; CONF_PORT := info_port i |}
      end
  end.

End ConfigFlow.

(** * Properties of the framing loop *)

Module FramingFacts.
Import Framing.

(** ** The two equations of the loop *)

Section LoopFacts.
Context {S : Type}.
Variable body : list byte → S → S.

Lemma process_loop_Some buf st m rest :
  split_once MESSAGE_DELIMITER buf = Some (m, rest) →
  process_loop body buf st = process_loop body rest (body m st).
Proof.
  intros H. rewrite process_loop_equation_1.
  destruct (inspect (split_once MESSAGE_DELIMITER buf)) as [[[m' r']|] E];
    simpl; [|congruence].
  assert (m' = m ∧ r' = rest) as [-> ->] by (split; congruence). done.
Qed.

Lemma process_loop_None buf st :
  split_once MESSAGE_DELIMITER buf = None →
  process_loop body buf st = (st, buf).
Proof.
  intros H. rewrite process_loop_equation_1.
  destruct (inspect (split_once MESSAGE_DELIMITER buf)) as [[[m' r']|] E];
    simpl; [congruence|done].
Qed.

(** The buffer the loop leaves holds no delimiter. *)
Lemma process_loop_rest buf st :
  split_once MESSAGE_DELIMITER (process_loop body buf st).2 = None.
Proof.
  apply (process_loop_elim body
           (λ _ _ res, split_once MESSAGE_DELIMITER res.2 = None)).
  - intros ? m rest Hsplit ? IH _. exact IH.
  - intros ? Hnone ? _. exact Hnone.
Qed.

(** Running the loop on [buf ++ data] is running it on [buf], and then on
    what it left followed by [data]. *)
Lemma process_loop_app buf st data :
  process_loop body (buf ++ data) st =
  process_loop body ((process_loop body buf st).2 ++ data)
                    (process_loop body buf st).1.
Proof.
  revert data.
  apply (process_loop_elim body
           (λ buf st res, ∀ data,
              process_loop body (buf ++ data) st =
              process_loop body (res.2 ++ data) res.1)).
  - intros b m rest Hsplit s IH _ data.
    rewrite (process_loop_Some (b ++ data) s m (rest ++ data)); [apply IH|].
    by apply split_once_app.
  - intros b Hnone s _ data. done.
Qed.

End LoopFacts.

(** The loop started with frames already collected appends to them. *)
Lemma collect_frames_acc buf acc1 acc2 :
  process_loop (λ m a, a ++ [m]) buf (acc1 ++ acc2) =
  (acc1 ++ (process_loop (λ m a, a ++ [m]) buf acc2).1,
   (process_loop (λ m a, a ++ [m]) buf acc2).2).
Proof.
  revert acc1.
  apply (process_loop_elim (λ m a, a ++ [m])
           (λ buf acc2 res, ∀ acc1,
              process_loop (λ m a, a ++ [m]) buf (acc1 ++ acc2) =
              (acc1 ++ res.1, res.2))).
  - intros b m rest Hsplit a IH _ acc1.
    rewrite (process_loop_Some _ b (acc1 ++ a) m rest Hsplit).
    rewrite <-app_assoc. apply IH.
  - intros b Hnone a _ acc1. by rewrite process_loop_None.
Qed.

Lemma extract_frames_Some buf m rest :
  split_once MESSAGE_DELIMITER buf = Some (m, rest) →
  extract_frames buf = (m :: (extract_frames rest).1, (extract_frames rest).2).
Proof.
  intros H. unfold extract_frames.
  rewrite (process_loop_Some _ buf [] m rest H). simpl.
  apply (collect_frames_acc rest [m] []).
Qed.

Lemma extract_frames_None buf :
  split_once MESSAGE_DELIMITER buf = None → extract_frames buf = ([], buf).
Proof. intros H. unfold extract_frames. by rewrite process_loop_None. Qed.

(** The loop body sees the frames of [extract_frames], in order. *)
Lemma process_loop_frames {S} (body : list byte → S → S) buf st :
  process_loop body buf st =
  (foldl (λ s m, body m s) st (extract_frames buf).1, (extract_frames buf).2).
Proof.
  apply (process_loop_elim body
           (λ buf st res,
              res = (foldl (λ s m, body m s) st (extract_frames buf).1,
                     (extract_frames buf).2))).
  - intros b m rest Hsplit s IH _.
    rewrite (extract_frames_Some b m rest Hsplit). simpl. exact IH.
  - intros b Hnone s _. by rewrite (extract_frames_None b Hnone).
Qed.

Lemma feed_feed st d1 d2 : feed (feed st d1) d2 = feed st (d1 ++ d2).
Proof.
  unfold feed, extract_frames.
  rewrite (app_assoc st.2 d1 d2).
  rewrite (process_loop_app _ (st.2 ++ d1) [] d2).
  destruct (process_loop _ (st.2 ++ d1) []) as [fr1 r1] eqn:E1. simpl.
  pose proof (collect_frames_acc (r1 ++ d2) fr1 []) as E2.
  rewrite app_nil_r in E2. rewrite E2.
  destruct (process_loop _ (r1 ++ d2) []) as [fr2 r2]. simpl.
  by rewrite app_assoc.
Qed.

Lemma feed_nil st :
  split_once MESSAGE_DELIMITER st.2 = None → feed st [] = st.
Proof.
  intros H. unfold feed. rewrite app_nil_r, (extract_frames_None _ H).
  destruct st. simpl. by rewrite app_nil_r.
Qed.

Lemma feed_rest st data : split_once MESSAGE_DELIMITER (feed st data).2 = None.
Proof.
  unfold feed, extract_frames.
  pose proof (process_loop_rest (λ m a, a ++ [m]) (st.2 ++ data) []) as H.
  by destruct (process_loop _ (st.2 ++ data) []).
Qed.

End FramingFacts.

(** * Properties of the registry loop *)

Module RegistryFacts.
Import Registry.

(** The key a record is stored under: its id when truthy. *)
Definition key (r : device_record) : option string :=
  if truthy (device_id r) then device_id r else None.

Lemma key_Some r i : key r = Some i ↔ device_id r = Some i ∧ i ≠ ""%string.
Proof.
  unfold key, truthy. destruct (device_id r) as [s|]; [|naive_solver].
  case_bool_decide; naive_solver.
Qed.

Lemma key_None r : key r = None ↔ truthy (device_id r) = false.
Proof.
  unfold key. destruct (truthy (device_id r)) eqn:E; [|done].
  destruct (device_id r); [|done]. split; done.
Qed.

Lemma store_device_key st r :
  store_device st r =
  match key r with
  | Some i =>
      if decide (st.1 !! i = Some r) then st else (<[i:=r]> st.1, true)
  | None => st
  end.
Proof.
  unfold store_device, key. destruct (truthy (device_id r)) eqn:E; [|done].
  by destruct (device_id r).
Qed.

Lemma store_device_lookup st r k :
  (store_device st r).1 !! k = if decide (key r = Some k) then Some r else st.1 !! k.
Proof.
  rewrite store_device_key. destruct (key r) as [i|]; [|by case_decide].
  destruct (decide (st.1 !! i = Some r)) as [E|E]; simpl.
  - case_decide as Hk; [|done]. injection Hk as <-. done.
  - case_decide as Hk.
    + injection Hk as <-. by rewrite lookup_insert_eq.
    + rewrite lookup_insert_ne; [done|congruence].
Qed.

(** [data_changed] is never reset. *)
Lemma store_devices_changed data l :
  (foldl store_device (data, true) l).2 = true.
Proof.
  revert data; induction l as [|r l IH]; intros data; simpl; [done|].
  rewrite store_device_key. destruct (key r); [|apply IH].
  simpl. case_decide; apply IH.
Qed.

(** While [data_changed] is false the dict is the one the loop started
    with. *)
Lemma store_device_unchanged data r data' :
  store_device (data, false) r = (data', false) →
  data' = data ∧ ∀ i, key r = Some i → data !! i = Some r.
Proof.
  rewrite store_device_key. destruct (key r) as [i|] eqn:E; simpl.
  - case_decide as H; [|done]. intros [= <-]. split; [done|].
    by intros ? [= <-].
  - intros [= <-]. done.
Qed.

Lemma store_devices_false data l data' :
  foldl store_device (data, false) l = (data', false) ↔
  data' = data ∧ ∀ r i, r ∈ l → key r = Some i → data !! i = Some r.
Proof.
  revert data; induction l as [|r l IH]; intros data; simpl.
  - split; [intros [= ->]; split; [done|]; by intros ?? ?%elem_of_nil|].
    by intros [-> _].
  - destruct (store_device (data, false) r) as [d1 b1] eqn:E1.
    destruct b1.
    + split.
      * intros H. pose proof (store_devices_changed d1 l) as Hc.
        rewrite H in Hc. done.
      * intros [-> H]. exfalso.
        rewrite store_device_key in E1.
        destruct (key r) as [i|] eqn:Ek; [|done].
        simpl in E1. rewrite decide_True in E1; [done|].
        apply (H r i); [left|done].
    + apply store_device_unchanged in E1 as [-> Hr]. rewrite IH. split.
      * intros [-> H]. split; [done|]. intros r' i [->|Hin]%elem_of_cons; eauto.
      * intros [-> H]. split; [done|]. intros r' i Hin. apply H. by right.
Qed.

(** [self.data.get(device_id) != device], for a record with a truthy id. *)
Definition differs (data : gmap string device_record) (r : device_record) : bool :=
  match key r with
  | Some i => bool_decide (data !! i ≠ Some r)
  | None => false
  end.

Lemma differs_true data r :
  differs data r = true ↔ ∃ i, key r = Some i ∧ data !! i ≠ Some r.
Proof.
  unfold differs. destruct (key r) as [i|].
  - rewrite bool_decide_eq_true. split; [eauto|]. by intros (? & [= <-] & ?).
  - split; [done|]. by intros (? & ? & ?).
Qed.

Lemma differs_false data r :
  differs data r = false ↔ ∀ i, key r = Some i → data !! i = Some r.
Proof.
  unfold differs. destruct (key r) as [i|].
  - rewrite bool_decide_eq_false. split.
    + intros H ? [= <-]. by destruct (decide (data !! i = Some r)).
    + intros H Hne. by apply Hne, H.
  - split; [done|]. done.
Qed.

(** [data_changed] after the loop: some record of the batch has a truthy id
    under which the dict, as it was before the batch, holds no equal
    record. *)
Lemma store_devices_true data l :
  (store_devices data l).2 = true ↔ ∃ r, r ∈ l ∧ differs data r = true.
Proof.
  unfold store_devices.
  destruct (foldl store_device (data, false) l) as [d b] eqn:E. simpl.
  destruct b.
  - split; [intros _|done].
    destruct (decide (Exists (λ r, differs data r = true) l)) as [Hex|Hnex].
    + by apply Exists_exists in Hex.
    + exfalso. assert (foldl store_device (data, false) l = (data, false)) as E'.
      { apply store_devices_false. split; [done|]. intros r i Hin Hk.
        apply (differs_false data r); [|done].
        destruct (differs data r) eqn:Hd; [|done].
        exfalso. apply Hnex, Exists_exists. eauto. }
      congruence.
  - split; [done|]. intros (r & Hin & (i & Hk & Hne)%differs_true).
    apply store_devices_false in E as [-> H]. exfalso. by apply Hne, (H r).
Qed.

(** What the dict holds after the loop: under each id the last record of
    the batch that carries it, and what it held before under the others. *)
Lemma store_devices_lookup data b l k :
  (foldl store_device (data, b) l).1 !! k =
  match last (filter (λ r, key r = Some k) l) with
  | Some r => Some r
  | None => data !! k
  end.
Proof.
  revert data b; induction l as [|r l IH]; intros data b; simpl; [done|].
  destruct (store_device (data, b) r) as [d1 b1] eqn:E1.
  rewrite IH. rewrite filter_cons.
  pose proof (store_device_lookup (data, b) r k) as Hl. rewrite E1 in Hl.
  simpl in Hl. case_decide as Hk.
  - rewrite last_cons. destruct (last (filter _ l)); [done|]. by rewrite Hl.
  - destruct (last (filter _ l)); [done|]. by rewrite Hl.
Qed.

(** Records with a falsy id leave the loop as they found it. *)
Lemma store_devices_filter st l :
  foldl store_device st l =
  foldl store_device st (filter (λ r, truthy (device_id r) = true) l).
Proof.
  revert st; induction l as [|r l IH]; intros st; simpl; [done|].
  rewrite filter_cons. case_decide as Hr; simpl; [apply IH|].
  rewrite <-IH. f_equal. unfold store_device.
  by destruct (truthy (device_id r)).
Qed.

End RegistryFacts.

(** * Properties of discovery *)

Module CoordinatorFacts.
Import Coordinator.

Lemma discoveries_app i e1 e2 :
  discoveries i (e1 ++ e2) = discoveries i e1 + discoveries i e2.
Proof. unfold discoveries. by rewrite filter_app, length_app. Qed.

Lemma deliveries_app p i e1 e2 :
  deliveries p i (e1 ++ e2) = deliveries p i e1 + deliveries p i e2.
Proof. unfold deliveries. by rewrite sum_list_with_app. Qed.

Lemma notifications_app e1 e2 :
  notifications (e1 ++ e2) = notifications e1 + notifications e2.
Proof. unfold notifications. by rewrite filter_app, length_app. Qed.

(** The entities of device [i] in a list. *)
Definition of_device (i : string) (es : list entity) : nat :=
  length (filter (λ x, entity_device x = i) es).

Lemma of_device_app i es1 es2 :
  of_device i (es1 ++ es2) = of_device i es1 + of_device i es2.
Proof. unfold of_device. by rewrite filter_app, length_app. Qed.

(** What the discovery loop keeps true: the log holds discoveries only, an
    id discovered is known, and no list holds more entities of a device
    than the log has discoveries of it. *)
Record loop_inv (st : discovery) : Prop := {
  inv_log : Forall (λ e, ∃ i, e = Discovered i) (discovered st);
  inv_known : ∀ i, 0 < discoveries i (discovered st) → i ∈ known st;
  inv_switch : ∀ i, of_device i (new_switch_entities st) ≤ discoveries i (discovered st);
  inv_sensor : ∀ i, of_device i (new_sensor_entities st) ≤ discoveries i (discovered st);
  inv_number : ∀ i, of_device i (new_number_entities st) ≤ discoveries i (discovered st);
  inv_select : ∀ i, of_device i (new_select_entities st) ≤ discoveries i (discovered st);
}.

Lemma discoveries_one i j :
  discoveries i [Discovered j] = if decide (i = j) then 1 else 0.
Proof.
  unfold discoveries. rewrite filter_cons, filter_nil.
  repeat case_decide; simplify_eq; done.
Qed.

Lemma of_device_if i (b : bool) (e : entity) :
  of_device i (if b then [e] else []) ≤ if decide (i = entity_device e) then 1 else 0.
Proof.
  unfold of_device. destruct b; simpl; [|lia].
  rewrite filter_cons, filter_nil. repeat case_decide; simplify_eq; simpl; lia.
Qed.

Lemma discover_inv st item : loop_inv st → loop_inv (discover st item).
Proof.
  intros [Hlog Hknown Hsw Hse Hnu Hsl]. destruct item as [j d].
  unfold discover. case_decide as Hj; [done|].
  split; simpl.
  - apply Forall_app. split; [done|]. repeat constructor. by exists j.
  - intros i. rewrite discoveries_app, discoveries_one.
    case_decide as Hij; [set_solver|]. intros Hpos.
    apply elem_of_union_l, Hknown. lia.
  - intros i. rewrite of_device_app, discoveries_app, discoveries_one.
    pose proof (of_device_if i true (YuellySwitch j)) as H. simpl in *.
    specialize (Hsw i). lia.
  - intros i. rewrite of_device_app, discoveries_app, discoveries_one.
    pose proof (of_device_if i (is_not_None (get d "temp"))
                  (YuellyTemperatureSensor j)) as H. simpl in *.
    specialize (Hse i). lia.
  - intros i. rewrite of_device_app, discoveries_app, discoveries_one.
    pose proof (of_device_if i (is_not_None (get d "setTemp"))
                  (YuellyTemperatureNumber j)) as H. simpl in *.
    specialize (Hnu i). lia.
  - intros i. rewrite of_device_app, discoveries_app, discoveries_one.
    pose proof (of_device_if i (is_not_None (get d "mode")
                                && is_not_None (get d "modeList"))
                  (YuellyModeSelect j)) as H. simpl in *.
    specialize (Hsl i). lia.
Qed.

Lemma discover_loop_inv st l : loop_inv st → loop_inv (foldl discover st l).
Proof.
  revert st; induction l as [|x l IH]; intros st H; simpl; [done|].
  by apply IH, discover_inv.
Qed.

#[local] Arguments discover : simpl never.

Lemma discover_old st j d : j ∈ known st → discover st (j, d) = st.
Proof. intros H. unfold discover. by rewrite decide_True. Qed.

Lemma discover_new st j d :
  j ∉ known st →
  known (discover st (j, d)) = known st ∪ {[j]} ∧
  discovered (discover st (j, d)) = discovered st ++ [Discovered j].
Proof. intros H. unfold discover. by rewrite decide_False. Qed.

Lemma discover_known_mono st l : known st ⊆ known (foldl discover st l).
Proof.
  revert st; induction l as [|[j d] l IH]; intros st; simpl; [done|].
  etrans; [|apply IH].
  destruct (decide (j ∈ known st)) as [Hj|Hj].
  - by rewrite discover_old.
  - destruct (discover_new st j d Hj) as [-> _]. set_solver.
Qed.

(** A known id is not discovered again. *)
Lemma discover_known_quiet st l i :
  i ∈ known st →
  discoveries i (discovered (foldl discover st l)) = discoveries i (discovered st).
Proof.
  revert st; induction l as [|[j d] l IH]; intros st Hi; simpl; [done|].
  destruct (decide (j ∈ known st)) as [Hj|Hj].
  - rewrite discover_old by done. by apply IH.
  - destruct (discover_new st j d Hj) as [Hk Hd].
    rewrite IH by (rewrite Hk; set_solver).
    rewrite Hd, discoveries_app, discoveries_one.
    case_decide; [|lia]. by subst.
Qed.

(** An id is discovered at most once in a pass. *)
Lemma discover_once st l i :
  discoveries i (discovered (foldl discover st l))
  ≤ discoveries i (discovered st) + 1.
Proof.
  revert st; induction l as [|[j d] l IH]; intros st; simpl; [lia|].
  destruct (decide (j ∈ known st)) as [Hj|Hj].
  - rewrite discover_old by done. apply IH.
  - destruct (discover_new st j d Hj) as [Hk Hd].
    destruct (decide (i = j)) as [->|Hne].
    + rewrite discover_known_quiet by (rewrite Hk; set_solver).
      rewrite Hd, discoveries_app, discoveries_one. by case_decide.
    + etrans; [apply IH|].
      rewrite Hd, discoveries_app, discoveries_one. case_decide; [done|lia].
Qed.

(** Every id the loop meets is known after it, and no other id is added. *)
Lemma discover_known st l i :
  i ∈ known (foldl discover st l) ↔ i ∈ known st ∨ i ∈ l.*1.
Proof.
  revert st; induction l as [|[j d] l IH]; intros st; simpl.
  - set_solver.
  - rewrite IH. destruct (decide (j ∈ known st)) as [Hj|Hj].
    + rewrite discover_old by done. set_solver.
    + destruct (discover_new st j d Hj) as [-> _]. set_solver.
Qed.

(** An id the loop meets while unknown is discovered there. *)
Lemma discover_first st l i :
  i ∈ l.*1 → i ∉ known st →
  discoveries i (discovered (foldl discover st l))
  = discoveries i (discovered st) + 1.
Proof.
  revert st; induction l as [|[j d] l IH]; intros st Hin Hi; simpl in *.
  - by apply elem_of_nil in Hin.
  - destruct (decide (j ∈ known st)) as [Hj|Hj].
    + rewrite discover_old by done. apply IH; [|done].
      apply elem_of_cons in Hin as [->|]; done.
    + destruct (discover_new st j d Hj) as [Hk Hd].
      destruct (decide (i = j)) as [->|Hne].
      * rewrite discover_known_quiet by (rewrite Hk; set_solver).
        rewrite Hd, discoveries_app, discoveries_one. by case_decide.
      * rewrite IH.
        -- rewrite Hd, discoveries_app, discoveries_one. case_decide; [done|lia].
        -- apply elem_of_cons in Hin as [->|]; done.
        -- rewrite Hk. set_solver.
Qed.

(** ** [schedule] *)

Lemma schedule_cases self p es :
  schedule self p es = [] ∨
  (schedule self p es = [AddEntities p es] ∧ is_Some (async_add_entities self !! p)).
Proof.
  unfold schedule. destruct es; [by left|].
  destruct (async_add_entities self !! p) eqn:E; [right|by left]. eauto.
Qed.

Lemma schedule_discoveries self p es i : discoveries i (schedule self p es) = 0.
Proof. by destruct (schedule_cases self p es) as [->|[-> _]]. Qed.

Lemma schedule_notifications self p es : notifications (schedule self p es) = 0.
Proof. by destruct (schedule_cases self p es) as [->|[-> _]]. Qed.

Lemma schedule_deliveries self q es p i :
  deliveries p i (schedule self q es)
  ≤ if decide (q = p) then of_device i es else 0.
Proof.
  destruct (schedule_cases self q es) as [->|[-> _]]; simpl; [lia|].
  unfold deliveries, of_device. simpl. case_decide; lia.
Qed.

Lemma schedule_unregistered self q es p i :
  async_add_entities self !! p = None → deliveries p i (schedule self q es) = 0.
Proof.
  intros Hp. destruct (schedule_cases self q es) as [->|[-> Hq]]; [done|].
  unfold deliveries. simpl. case_decide; [|done].
  subst. rewrite Hp in Hq. by destruct Hq.
Qed.

Lemma log_deliveries p i l :
  Forall (λ e, ∃ j, e = Discovered j) l → deliveries p i l = 0.
Proof.
  induction 1 as [|e l [j ->] _ IH]; [done|].
  unfold deliveries in *. simpl. by rewrite IH.
Qed.

Lemma log_notifications l :
  Forall (λ e, ∃ j, e = Discovered j) l → notifications l = 0.
Proof.
  induction 1 as [|e l [j ->] _ IH]; [done|].
  unfold notifications in *. by rewrite filter_cons.
Qed.

(** ** [notify_data_received] *)

Definition start (self : coordinator) : discovery :=
  {| known := known_device_ids self;
     new_switch_entities := []; new_sensor_entities := [];
     new_number_entities := []; new_select_entities := [];
     discovered := [] |}.

Lemma start_inv self : loop_inv (start self).
Proof. split; simpl; intros; try done; unfold discoveries in *; simpl in *; lia. Qed.

Lemma notify_unfold data self :
  notify_data_received data self =
  if any_adder self then
    let st := foldl discover (start self) (map_to_list data) in
    ({| async_add_entities := async_add_entities self;
        known_device_ids := known st |},
     discovered st
       ++ schedule self SWITCH (new_switch_entities st)
       ++ schedule self SENSOR (new_sensor_entities st)
       ++ schedule self NUMBER (new_number_entities st)
       ++ schedule self SELECT (new_select_entities st)
       ++ [UpdatedData data])
  else (self, [UpdatedData data]).
Proof. done. Qed.

Lemma notify_adders data self :
  async_add_entities (notify_data_received data self).1 = async_add_entities self.
Proof. rewrite notify_unfold. by destruct (any_adder self). Qed.

Lemma notify_known_mono data self :
  known_device_ids self ⊆ known_device_ids (notify_data_received data self).1.
Proof.
  rewrite notify_unfold. destruct (any_adder self); [|done]. simpl.
  apply (discover_known_mono (start self)).
Qed.

Lemma notify_known data self i :
  i ∈ known_device_ids (notify_data_received data self).1 →
  i ∈ known_device_ids self ∨ i ∈ dom data.
Proof.
  rewrite notify_unfold. destruct (any_adder self); [|by left]. simpl.
  rewrite discover_known. intros [?|Hin]; [by left|right].
  apply list_elem_of_fmap in Hin as ([j d] & -> & Hin).
  apply elem_of_map_to_list in Hin. by apply elem_of_dom.
Qed.

Lemma notify_known_all data self i :
  any_adder self = true → i ∈ dom data →
  i ∈ known_device_ids (notify_data_received data self).1.
Proof.
  intros Hany Hin. rewrite notify_unfold, Hany. simpl.
  rewrite discover_known. right.
  apply elem_of_dom in Hin as [d Hd].
  apply list_elem_of_fmap. exists (i, d). split; [done|].
  by apply elem_of_map_to_list.
Qed.

Lemma notify_discoveries data self i :
  discoveries i (notify_data_received data self).2 =
  if any_adder self
  then discoveries i (discovered (foldl discover (start self) (map_to_list data)))
  else 0.
Proof.
  rewrite notify_unfold. destruct (any_adder self); [|done]. simpl.
  rewrite !discoveries_app, !schedule_discoveries. unfold discoveries at 2.
  simpl. lia.
Qed.

Lemma notify_once data self i :
  discoveries i (notify_data_received data self).2 ≤ 1.
Proof.
  rewrite notify_discoveries. destruct (any_adder self); [|lia].
  apply (discover_once (start self)).
Qed.

Lemma notify_known_quiet data self i :
  i ∈ known_device_ids self →
  discoveries i (notify_data_received data self).2 = 0.
Proof.
  intros Hi. rewrite notify_discoveries. destruct (any_adder self); [|done].
  by rewrite discover_known_quiet.
Qed.

Lemma notify_discovered_known data self i :
  0 < discoveries i (notify_data_received data self).2 →
  i ∈ known_device_ids (notify_data_received data self).1.
Proof.
  rewrite notify_discoveries, notify_unfold.
  destruct (any_adder self); [|lia]. simpl.
  apply (inv_known _ (discover_loop_inv _ _ (start_inv self))).
Qed.

Lemma notify_first data self i :
  any_adder self = true → i ∈ dom data → i ∉ known_device_ids self →
  discoveries i (notify_data_received data self).2 = 1.
Proof.
  intros Hany Hin Hi. rewrite notify_discoveries, Hany.
  rewrite discover_first; [done| |done].
  apply elem_of_dom in Hin as [d Hd].
  apply list_elem_of_fmap. exists (i, d). split; [done|].
  by apply elem_of_map_to_list.
Qed.

Lemma notify_deliveries data self p i :
  deliveries p i (notify_data_received data self).2
  ≤ discoveries i (notify_data_received data self).2.
Proof.
  rewrite notify_discoveries, notify_unfold.
  destruct (any_adder self); [|done]. simpl.
  set (st := foldl discover (start self) (map_to_list data)).
  pose proof (discover_loop_inv _ (map_to_list data) (start_inv self))
    as [Hlog _ Hsw Hse Hnu Hsl]. fold st in Hlog, Hsw, Hse, Hnu, Hsl.
  rewrite !deliveries_app, (log_deliveries _ _ _ Hlog).
  pose proof (schedule_deliveries self SWITCH (new_switch_entities st) p i).
  pose proof (schedule_deliveries self SENSOR (new_sensor_entities st) p i).
  pose proof (schedule_deliveries self NUMBER (new_number_entities st) p i).
  pose proof (schedule_deliveries self SELECT (new_select_entities st) p i).
  specialize (Hsw i). specialize (Hse i). specialize (Hnu i). specialize (Hsl i).
  unfold deliveries at 5. simpl.
  destruct p; repeat case_decide; try done; lia.
Qed.

Lemma notify_unregistered data self p i :
  async_add_entities self !! p = None →
  deliveries p i (notify_data_received data self).2 = 0.
Proof.
  intros Hp. rewrite notify_unfold. destruct (any_adder self); [|done]. simpl.
  pose proof (discover_loop_inv _ (map_to_list data) (start_inv self))
    as [Hlog _ _ _ _ _].
  rewrite !deliveries_app, (log_deliveries _ _ _ Hlog).
  by rewrite !schedule_unregistered.
Qed.

Lemma notify_notifications data self :
  notifications (notify_data_received data self).2 = 1.
Proof.
  rewrite notify_unfold. destruct (any_adder self); [|done]. simpl.
  pose proof (discover_loop_inv _ (map_to_list data) (start_inv self))
    as [Hlog _ _ _ _ _].
  rewrite !notifications_app, (log_notifications _ Hlog).
  by rewrite !schedule_notifications.
Qed.

Lemma notify_snapshot data self e :
  e ∈ (notify_data_received data self).2 → is_UpdatedData e = true →
  e = UpdatedData data.
Proof.
  rewrite notify_unfold. destruct (any_adder self); simpl.
  - pose proof (discover_loop_inv _ (map_to_list data) (start_inv self))
      as [Hlog _ _ _ _ _].
    rewrite !elem_of_app. intros [Hin|[Hin|[Hin|[Hin|[Hin|Hin]]]]] He.
    + rewrite Forall_forall in Hlog. destruct (Hlog _ Hin) as [j ->]. done.
    + destruct (schedule_cases self SWITCH
        (new_switch_entities (foldl discover (start self) (map_to_list data))))
        as [E|[E _]]; rewrite E in Hin; set_solver.
    + destruct (schedule_cases self SENSOR
        (new_sensor_entities (foldl discover (start self) (map_to_list data))))
        as [E|[E _]]; rewrite E in Hin; set_solver.
    + destruct (schedule_cases self NUMBER
        (new_number_entities (foldl discover (start self) (map_to_list data))))
        as [E|[E _]]; rewrite E in Hin; set_solver.
    + destruct (schedule_cases self SELECT
        (new_select_entities (foldl discover (start self) (map_to_list data))))
        as [E|[E _]]; rewrite E in Hin; set_solver.
    + set_solver.
  - set_solver.
Qed.

End CoordinatorFacts.

(** * Properties of the dispatcher *)

Module DispatchFacts.
Import Coordinator Dispatch RegistryFacts CoordinatorFacts.

Lemma handle_device_data_unfold l data c :
  handle_device_data l data c =
  if (Registry.store_devices data l).2 then
    match c with
    | Some c =>
        ((Registry.store_devices data l).1,
         Some (notify_data_received (Registry.store_devices data l).1 c).1,
         (notify_data_received (Registry.store_devices data l).1 c).2)
    | None => ((Registry.store_devices data l).1, None, [])
    end
  else ((Registry.store_devices data l).1, c, []).
Proof.
  unfold handle_device_data.
  destruct (Registry.store_devices data l) as [d b]. simpl.
  destruct b; [|done]. destruct c as [c|]; [|done].
  by destruct (notify_data_received d c).
Qed.

(** The dict a batch leaves, whether or not it changed anything. *)
Lemma handle_device_data_data l data c :
  (handle_device_data l data c).1.1 = (Registry.store_devices data l).1.
Proof.
  rewrite handle_device_data_unfold.
  destruct (Registry.store_devices data l).2; [|done]. by destruct c.
Qed.

(** No record is ever removed. *)
Lemma store_devices_dom data b l :
  dom data ⊆ dom (foldl Registry.store_device (data, b) l).1.
Proof.
  revert data b; induction l as [|r l IH]; intros data b; simpl; [done|].
  destruct (Registry.store_device (data, b) r) as [d1 b1] eqn:E.
  etrans; [|apply IH]. rewrite store_device_key in E.
  destruct (key r) as [i|]; [|by injection E as <- <-]. simpl in E.
  case_decide; injection E as <- <-; [done|]. apply dom_insert_subseteq.
Qed.

Lemma step_ingest st l :
  step st (Ingest l) =
  if (Registry.store_devices st.1 l).2 then
    ((Registry.store_devices st.1 l).1,
     (notify_data_received (Registry.store_devices st.1 l).1 st.2).1,
     (notify_data_received (Registry.store_devices st.1 l).1 st.2).2)
  else ((Registry.store_devices st.1 l).1, st.2, []).
Proof.
  unfold step. rewrite handle_device_data_unfold.
  by destruct (Registry.store_devices st.1 l).2.
Qed.

Lemma step_dom st o : dom st.1 ⊆ dom (step st o).1.1.
Proof.
  destruct o as [l|p f]; [|done]. rewrite step_ingest.
  destruct (Registry.store_devices st.1 l).2 eqn:E; simpl;
    apply store_devices_dom.
Qed.

Lemma step_known_mono st o :
  known_device_ids st.2 ⊆ known_device_ids (step st o).1.2.
Proof.
  destruct o as [l|p f]; [|simpl; set_solver]. rewrite step_ingest.
  destruct (Registry.store_devices st.1 l).2; [|done]. apply notify_known_mono.
Qed.

(** A sink, once registered, stays. *)
Lemma step_adders st o p :
  async_add_entities (step st o).1.2 !! p = None →
  async_add_entities st.2 !! p = None.
Proof.
  destruct o as [l|q f].
  - rewrite step_ingest. destruct (Registry.store_devices st.1 l).2; [|done].
    simpl. by rewrite notify_adders.
  - simpl. destruct (decide (q = p)) as [->|Hne].
    + by rewrite lookup_insert_eq.
    + by rewrite lookup_insert_ne.
Qed.

Lemma step_once st o i : discoveries i (step st o).2 ≤ 1.
Proof.
  destruct o as [l|p f]; [|simpl; unfold discoveries; simpl; lia].
  rewrite step_ingest. destruct (Registry.store_devices st.1 l).2.
  - apply notify_once.
  - unfold discoveries. simpl. lia.
Qed.

Lemma step_known_quiet st o i :
  i ∈ known_device_ids st.2 → discoveries i (step st o).2 = 0.
Proof.
  intros Hi. destruct o as [l|p f]; [|done].
  rewrite step_ingest. destruct (Registry.store_devices st.1 l).2; [|done].
  by apply notify_known_quiet.
Qed.

Lemma step_discovered_known st o i :
  0 < discoveries i (step st o).2 → i ∈ known_device_ids (step st o).1.2.
Proof.
  destruct o as [l|p f]; [|unfold discoveries; simpl; lia].
  rewrite step_ingest. destruct (Registry.store_devices st.1 l).2.
  - apply notify_discovered_known.
  - unfold discoveries. simpl. lia.
Qed.

Lemma step_deliveries st o p i :
  deliveries p i (step st o).2 ≤ discoveries i (step st o).2.
Proof.
  destruct o as [l|q f]; [|done].
  rewrite step_ingest. destruct (Registry.store_devices st.1 l).2; [|done].
  apply notify_deliveries.
Qed.

Lemma step_unregistered st o p i :
  async_add_entities st.2 !! p = None → deliveries p i (step st o).2 = 0.
Proof.
  intros Hp. destruct o as [l|q f]; [|done].
  rewrite step_ingest. destruct (Registry.store_devices st.1 l).2; [|done].
  by apply notify_unregistered.
Qed.

Lemma run_cons st o ops :
  run st (o :: ops) =
  ((run (step st o).1 ops).1, (step st o).2 ++ (run (step st o).1 ops).2).
Proof.
  simpl. destruct (step st o) as [st1 e1]. simpl.
  by destruct (run st1 ops).
Qed.

Lemma run_cons_events st o ops :
  (run st (o :: ops)).2 = (step st o).2 ++ (run (step st o).1 ops).2.
Proof. by rewrite run_cons. Qed.

Lemma run_cons_state st o ops :
  (run st (o :: ops)).1 = (run (step st o).1 ops).1.
Proof. by rewrite run_cons. Qed.

#[local] Opaque step.

Lemma run_known_mono st ops :
  known_device_ids st.2 ⊆ known_device_ids (run st ops).1.2.
Proof.
  revert st; induction ops as [|o ops IH]; intros st; [done|].
  rewrite run_cons. simpl. etrans; [apply (step_known_mono st o)|apply IH].
Qed.

Lemma run_known_quiet st ops i :
  i ∈ known_device_ids st.2 → discoveries i (run st ops).2 = 0.
Proof.
  revert st; induction ops as [|o ops IH]; intros st Hi; [done|].
  rewrite run_cons. simpl. rewrite discoveries_app, step_known_quiet by done.
  apply IH. by apply step_known_mono.
Qed.

Lemma run_once st ops i : discoveries i (run st ops).2 ≤ 1.
Proof.
  revert st; induction ops as [|o ops IH]; intros st.
  - unfold discoveries. simpl. lia.
  - rewrite run_cons. simpl. rewrite discoveries_app.
    destruct (decide (0 < discoveries i (step st o).2)) as [Hpos|Hz].
    + rewrite run_known_quiet by by apply step_discovered_known.
      pose proof (step_once st o i). lia.
    + specialize (IH (step st o).1). lia.
Qed.

Lemma run_deliveries st ops p i :
  deliveries p i (run st ops).2 ≤ discoveries i (run st ops).2.
Proof.
  revert st; induction ops as [|o ops IH]; intros st; [done|].
  rewrite run_cons. simpl. rewrite deliveries_app, discoveries_app.
  pose proof (step_deliveries st o p i). specialize (IH (step st o).1). lia.
Qed.

(** A device in the registry while the sink of [p] is missing is never
    handed to that sink: it is known, at the latest, when the sink
    registers. *)
Lemma run_never_delivered st ops p i :
  i ∈ dom st.1 →
  async_add_entities st.2 !! p = None ∨ i ∈ known_device_ids st.2 →
  deliveries p i (run st ops).2 = 0.
Proof.
  revert st; induction ops as [|o ops IH]; intros st Hin Hst; [done|].
  rewrite run_cons. simpl. rewrite deliveries_app.
  assert (deliveries p i (step st o).2 = 0) as ->.
  { destruct Hst as [Hp|Hk]; [by apply step_unregistered|].
    pose proof (step_deliveries st o p i).
    rewrite step_known_quiet in *; [lia|done]. }
  apply IH; [by apply step_dom|].
  destruct Hst as [Hp|Hk]; [|right; by apply step_known_mono].
  destruct o as [l|q f].
  - left. rewrite step_ingest.
    destruct (Registry.store_devices st.1 l).2; [|done].
    simpl. by rewrite notify_adders.
  - right. simpl. set_solver.
Qed.

Lemma filter_key i (l : list device_record) :
  i ≠ ""%string →
  filter (λ r, key r = Some i) l = filter (λ r, device_id r = Some i) l.
Proof.
  intros Hi. apply list_filter_iff. intros r. rewrite key_Some. naive_solver.
Qed.

(** The registry after a sequence of batches. *)
Lemma run_ingest_lookup st (batches : list (list device_record)) i :
  (run st (Ingest <$> batches)).1.1 !! i =
  match last (filter (λ r, key r = Some i) (concat batches)) with
  | Some r => Some r
  | None => st.1 !! i
  end.
Proof.
  revert st; induction batches as [|l bs IH]; intros st; [done|].
  rewrite fmap_cons, run_cons. simpl. rewrite IH, filter_app, last_app.
  destruct (last (filter _ (concat bs))); [done|].
  rewrite step_ingest.
  assert ((Registry.store_devices st.1 l).1 !! i =
          match last (filter (λ r, key r = Some i) l) with
          | Some r => Some r
          | None => st.1 !! i
          end) as <- by apply store_devices_lookup.
  by destruct (Registry.store_devices st.1 l).2.
Qed.

End DispatchFacts.

(** * Properties of the client's methods *)

Module ClientFacts.
Import Client.

Lemma cancel_fields t h :
  next_id (cancel t h) = next_id h ∧ connections (cancel t h) = connections h
  ∧ tasks (cancel t h) = tasks h ∧ timer_handles (cancel t h) = timer_handles h.
Proof. unfold cancel. by destruct (isinstance_TimerHandle t). Qed.

Lemma cancel_if_set_fields t h :
  next_id (cancel_if_set t h) = next_id h
  ∧ connections (cancel_if_set t h) = connections h
  ∧ tasks (cancel_if_set t h) = tasks h
  ∧ timer_handles (cancel_if_set t h) = timer_handles h.
Proof. destruct t as [t|]; [apply cancel_fields|done]. Qed.

(** [_start_heartbeat] stores a fresh timer and touches nothing else of the
    client; it opens and closes no connection. *)
Lemma start_heartbeat_spec w :
  ∃ t, handle_id t = next_id w.2
    ∧ heartbeat_task (start_heartbeat w).1 = Some t
    ∧ (handle_id t, (HEARTBEAT_INTERVAL, SendHeartbeatWrapper))
        ∈ timers (start_heartbeat w).2
    ∧ writer (start_heartbeat w).1 = writer w.1
    ∧ reader (start_heartbeat w).1 = reader w.1
    ∧ is_running (start_heartbeat w).1 = is_running w.1
    ∧ connections (start_heartbeat w).2 = connections w.2.
Proof.
  destruct w as [self h]. unfold start_heartbeat.
  destruct (heartbeat_task self) as [t|]; simpl.
  - destruct (cancel_fields t h) as (Hn & Hc & _). rewrite Hc.
    eexists. split; [|split; [reflexivity|]]; simpl; [done|].
    split; [|done]. rewrite Hn.
    apply elem_of_app. right. by apply list_elem_of_singleton.
  - eexists. split; [|split; [reflexivity|]]; simpl; [done|].
    split; [|done]. apply elem_of_app. right. by apply list_elem_of_singleton.
Qed.

Lemma schedule_reconnect_spec w :
  writer (schedule_reconnect w).1 = writer w.1
  ∧ reader (schedule_reconnect w).1 = reader w.1
  ∧ connections (schedule_reconnect w).2 = connections w.2
  ∧ ∃ t, handle_id t = next_id w.2
      ∧ reconnect_task (schedule_reconnect w).1 = Some t
      ∧ (handle_id t, (RECONNECT_DELAY, HandleReconnect))
          ∈ timers (schedule_reconnect w).2.
Proof.
  destruct w as [self h]. unfold schedule_reconnect. simpl.
  destruct (cancel_if_set_fields (reconnect_task self) h) as (Hn & -> & _).
  do 3 (split; [done|]).
  eexists. split; [|split; [reflexivity|]]; simpl; [done|].
  rewrite Hn. apply elem_of_app. right. by apply list_elem_of_singleton.
Qed.

#[local] Arguments start_heartbeat : simpl never.
#[local] Arguments cancel : simpl never.

(** [connect] when the connection opens. *)
Lemma connect_opened self h :
  is_running self = true →
  writer (connect true (self, h)).1 = Some (next_id h)
  ∧ reader (connect true (self, h)).1 = Some (next_id h)
  ∧ connections (connect true (self, h)).2 = connections h ++ [next_id h].
Proof.
  intros Hrun. unfold connect. rewrite Hrun. simpl.
  destruct (reconnect_task self) as [tr|]; simpl;
    destruct (heartbeat_task self) as [th|]; simpl;
    try match goal with
    | |- context [start_heartbeat ?w] =>
        destruct (start_heartbeat_spec w) as (_ & _ & _ & _ & -> & -> & _ & ->)
    end; simpl;
    repeat match goal with
      | |- context [cancel ?t ?h] =>
          let H := fresh in
          destruct (cancel_fields t h) as (_ & H & _); rewrite H; clear H
      end; done.
Qed.

(** ** Receiving *)

(** The fields that make the connection: they are what [connect],
    [_close_connection] and the timers write. *)
Definition same_connection (c c' : client) : Prop :=
  is_running c' = is_running c ∧ reader c' = reader c ∧ writer c' = writer c
  ∧ token c' = token c ∧ reconnect_task c' = reconnect_task c
  ∧ heartbeat_task c' = heartbeat_task c ∧ listen_task c' = listen_task c.

Lemma same_connection_refl c : same_connection c c.
Proof. by repeat split. Qed.

Lemma same_connection_trans c1 c2 c3 :
  same_connection c1 c2 → same_connection c2 c3 → same_connection c1 c3.
Proof.
  intros (?&?&?&?&?&?&?) (?&?&?&?&?&?&?). repeat split; congruence.
Qed.

Section Receiving.
Variable loads : list byte → option decoded.

(** The loop body reads and writes the registry only: it goes through
    whatever the buffer and the log hold. *)
Lemma handle_message_frame m b c evs0 evs :
  handle_message loads m (set_buffer b c, evs0 ++ evs) =
  (set_buffer b (handle_message loads m (c, evs)).1,
   evs0 ++ (handle_message loads m (c, evs)).2).
Proof.
  unfold handle_message, handle_device_data_. simpl.
  destruct (loads m) as [[l| |l]|]; simpl.
  - destruct (handle_device_data l (data c) (coordinator c)) as [[d c'] e].
    simpl. by rewrite app_assoc.
  - done.
  - by rewrite app_assoc.
  - by rewrite app_assoc.
Qed.

Lemma handle_message_connection m c evs :
  same_connection c (handle_message loads m (c, evs)).1.
Proof.
  unfold handle_message, handle_device_data_. simpl.
  destruct (loads m) as [[l| |l]|]; simpl; try by repeat split.
  destruct (handle_device_data l (data c) (coordinator c)) as [[d c'] e].
  by repeat split.
Qed.

(** The body of the loop on a list of frames. *)
Definition handle_frames (frames : list (list byte)) (st : client * list event)
  : client * list event :=
  foldl (λ s m, handle_message loads m s) st frames.

Lemma handle_frames_frame frames b c evs0 evs :
  handle_frames frames (set_buffer b c, evs0 ++ evs) =
  (set_buffer b (handle_frames frames (c, evs)).1,
   evs0 ++ (handle_frames frames (c, evs)).2).
Proof.
  revert c evs; induction frames as [|m frames IH]; intros c evs; [done|].
  unfold handle_frames in *. simpl. rewrite handle_message_frame.
  destruct (handle_message loads m (c, evs)) as [c1 e1]. simpl. apply IH.
Qed.

Lemma handle_frames_connection frames c evs :
  same_connection c (handle_frames frames (c, evs)).1.
Proof.
  revert c evs; induction frames as [|m frames IH]; intros c evs.
  - apply same_connection_refl.
  - unfold handle_frames in *. simpl.
    pose proof (handle_message_connection m c evs) as H1.
    destruct (handle_message loads m (c, evs)) as [c1 e1].
    eapply same_connection_trans; [exact H1|apply IH].
Qed.

Lemma process_buffer_frames self :
  process_buffer loads self =
  (set_buffer (Framing.extract_frames (buffer self)).2
     (handle_frames (Framing.extract_frames (buffer self)).1 (self, [])).1,
   (handle_frames (Framing.extract_frames (buffer self)).1 (self, [])).2).
Proof.
  unfold process_buffer. by rewrite FramingFacts.process_loop_frames.
Qed.

(** [_process_buffer] leaves the connection alone. *)
Lemma process_buffer_connection self :
  same_connection self (process_buffer loads self).1.
Proof.
  rewrite process_buffer_frames. simpl.
  destruct (handle_frames_connection
              (Framing.extract_frames (buffer self)).1 self [])
    as (?&?&?&?&?&?&?).
  by repeat split.
Qed.

(** A read that brings data, on a task that is alive. *)
Lemma listen_data task b bytes w :
  task ∈ tasks w.2 → is_running w.1 = true → is_Some (reader w.1) →
  listen loads task (Some (b :: bytes)) w =
  ((process_buffer loads (set_buffer (buffer w.1 ++ b :: bytes) w.1)).1, w.2,
   (process_buffer loads (set_buffer (buffer w.1 ++ b :: bytes) w.1)).2).
Proof.
  destruct w as [self h]. simpl. intros Htask Hrun Hreader.
  unfold listen. rewrite bool_decide_eq_true_2 by done.
  destruct (process_buffer_connection
              (set_buffer (buffer self ++ b :: bytes) self))
    as (Hr & Hrd & _).
  destruct (process_buffer loads _) as [self' events]. simpl in *.
  by rewrite Hr, Hrd, Hrun, bool_decide_eq_true_2.
Qed.

End Receiving.

(** ** At most one heartbeat timer

    Every function that arms a heartbeat timer goes through
    [_start_heartbeat], which cancels the one before: where
    [async_call_later] returns [TimerHandle]s, the heartbeat timers
    scheduled are at most the one in [_heartbeat_task]. *)




(** The loop after cancellations, expiries and allocations: no timer is
    added. *)
Definition shrinks (h h' : hass) : Prop :=
  timers h' `sublist_of` timers h ∧ next_id h ≤ next_id h'
  ∧ timer_handles h' = timer_handles h.

Lemma shrinks_refl h : shrinks h h.
Proof. by repeat split. Qed.

Lemma shrinks_trans h1 h2 h3 : shrinks h1 h2 → shrinks h2 h3 → shrinks h1 h3.
Proof.
  intros (H1 & H2 & H3) (H4 & H5 & H6). split; [by etrans|].
  split; [lia|congruence].
Qed.

Lemma cancel_shrinks t h : shrinks h (cancel t h).
Proof.
  unfold cancel. destruct (isinstance_TimerHandle t); [|apply shrinks_refl].
  split; [apply sublist_filter|done].
Qed.

Lemma cancel_if_set_shrinks t h : shrinks h (cancel_if_set t h).
Proof. destruct t; [apply cancel_shrinks|apply shrinks_refl]. Qed.

Lemma expire_shrinks t h : shrinks h (expire t h).
Proof. split; [apply sublist_filter|done]. Qed.

Lemma close_shrinks sock h : shrinks h (close sock h).
Proof. by repeat split. Qed.

Lemma cancel_task_shrinks t h : shrinks h (cancel_task t h).
Proof. by repeat split. Qed.



Lemma shrinks_elem h h' x : shrinks h h' → x ∈ timers h' → x ∈ timers h.
Proof. intros (Hsub & _) Hx. by eapply elem_of_sublist. Qed.






















Section Invariant.
Variable loads : list byte → option decoded.






End Invariant.

End ClientFacts.

(** * The properties of the design document *)

Import Coordinator Dispatch RegistryFacts CoordinatorFacts DispatchFacts.

(** C3: for every byte stream and every way of cutting it into chunks,
    feeding the chunks one at a time to the framer (append to the buffer,
    then extract the frames that end in the delimiter) gives the same
    sequence of frames, and leaves the same buffer, as feeding the whole
    stream as one chunk.  The same holds of the loop with any body run on
    the frames: it ends in the same state. *)
Theorem chunk_boundary_invariance (chunks : list (list byte)) :
  foldl Framing.feed ([], []) chunks = Framing.feed ([], []) (concat chunks)
  ∧ ∀ (S : Type) (body : list byte → S → S) (s : S),
      foldl (λ st data, Framing.process_loop body (st.2 ++ data) st.1)
            (s, []) chunks
      = Framing.process_loop body (concat chunks) s.
Proof.
  split.
  - assert (∀ st, Framing.split_once MESSAGE_DELIMITER st.2 = None →
                  foldl Framing.feed st chunks = Framing.feed st (concat chunks))
      as Hfrom; [|by apply Hfrom].
    induction chunks as [|data chunks IH]; intros st Hst; simpl.
    + by rewrite FramingFacts.feed_nil.
    + rewrite IH by apply FramingFacts.feed_rest. apply FramingFacts.feed_feed.
  - intros S body s.
    assert (∀ st, Framing.split_once MESSAGE_DELIMITER st.2 = None →
                  foldl (λ st data,
                           Framing.process_loop body (st.2 ++ data) st.1)
                        st chunks
                  = Framing.process_loop body (st.2 ++ concat chunks) st.1)
      as Hfrom; [|by apply (Hfrom (s, []))].
    induction chunks as [|data chunks IH]; intros st Hst; simpl.
    + rewrite app_nil_r, FramingFacts.process_loop_None by done. by destruct st.
    + rewrite IH by apply FramingFacts.process_loop_rest.
      by rewrite app_assoc, <-FramingFacts.process_loop_app.
Qed.

(** C4: a batch whose records with a truthy id are all equal to the record
    stored under their id changes nothing and gives no change
    notification; a batch with at least one such record that differs from
    the stored one, or whose id is not in the store, gives exactly one
    change notification, sent after the whole batch is stored: its
    snapshot holds, under the id of every record of the batch, that record
    as a whole (the last one, when the batch repeats an id).  The client
    has its coordinator. *)
Theorem ingest_notifies_once (data : gmap string device_record)
    (c : coordinator) (l : list device_record) :
  ((∀ r i, r ∈ l → device_id r = Some i → i ≠ ""%string → data !! i = Some r) →
   handle_device_data l data (Some c) = (data, Some c, []))
  ∧
  ((∃ r i, r ∈ l ∧ device_id r = Some i ∧ i ≠ ""%string ∧ data !! i ≠ Some r) →
   ∃ data' c',
     handle_device_data l data (Some c)
     = (data', Some c', (notify_data_received data' c).2) ∧
     notifications (notify_data_received data' c).2 = 1 ∧
     (∀ e, e ∈ (notify_data_received data' c).2 →
           is_UpdatedData e = true → e = UpdatedData data') ∧
     (∀ r i, r ∈ l → device_id r = Some i → i ≠ ""%string →
             data' !! i = last (filter (λ r', device_id r' = Some i) l))).
Proof.
  split.
  - intros Hsame. rewrite handle_device_data_unfold.
    assert (Registry.store_devices data l = (data, false)) as ->; [|done].
    apply store_devices_false. split; [done|].
    intros r i Hin [Hid Hi]%key_Some. by apply Hsame.
  - intros (r & i & Hin & Hid & Hi & Hne).
    assert ((Registry.store_devices data l).2 = true) as Hch.
    { apply store_devices_true. exists r. split; [done|].
      apply differs_true. exists i. split; [|done]. by apply key_Some. }
    rewrite handle_device_data_unfold, Hch.
    eexists _, _. split; [done|]. split; [apply notify_notifications|].
    split; [apply notify_snapshot|].
    intros r' i' Hin' Hid' Hi'. unfold Registry.store_devices.
    rewrite store_devices_lookup, filter_key by done.
    destruct (last (filter _ l)) as [x|] eqn:E; [done|].
    apply last_None in E.
    assert (r' ∈ filter (λ r0, device_id r0 = Some i') l) as Hf
      by by apply list_elem_of_filter.
    rewrite E in Hf. by apply elem_of_nil in Hf.
Qed.

Lemma ingest_notifies_once_witness :
  handle_device_data [device_A] {["A"%string := device_A]} (Some init)
  = ({["A"%string := device_A]}, Some init, [])
  ∧ ∃ data' c',
      handle_device_data [device_A'] {["A"%string := device_A]} (Some init)
      = (data', Some c', (notify_data_received data' init).2) ∧
      notifications (notify_data_received data' init).2 = 1 ∧
      data' !! "A"%string = Some device_A'.
Proof.
  split.
  - apply (proj1 (ingest_notifies_once {["A"%string := device_A]} init [device_A])).
    intros r i ->%list_elem_of_singleton [= <-] _. reflexivity.
  - destruct (proj2 (ingest_notifies_once {["A"%string := device_A]} init
                       [device_A'])) as (data' & c' & H1 & H2 & _ & H4).
    + exists device_A', "A"%string.
      split; [apply list_elem_of_singleton; reflexivity|].
      split; [reflexivity|]. split; [discriminate|].
      rewrite lookup_singleton_eq. intros H. vm_compute in H. discriminate H.
    + exists data', c'. split; [exact H1|]. split; [exact H2|].
      rewrite (H4 device_A' "A"%string); [reflexivity| |reflexivity|discriminate].
      apply list_elem_of_singleton; reflexivity.
Defined.

(** The scenario of the design document: two device messages for ["A"],
    with [temp] 21.5 and then 22.0, give two change notifications and leave
    the second record in the registry. *)
Example two_updates :
  notifications (run (∅, init) [Ingest [device_A]; Ingest [device_A']]).2 = 2
  ∧ (run (∅, init) [Ingest [device_A]; Ingest [device_A']]).1.1 !! "A"%string
    = Some device_A'.
Proof. split; by vm_compute. Qed.

(** C10: a record whose id is missing, null or the empty string is skipped:
    the batch without such records gives the same registry, the same
    coordinator and the same notifications.  So, in the registry built from
    the batches of a session, every key is a truthy id, the record under it
    carries that id, and it is the last record received under it. *)
Theorem falsy_id_skipped (data : gmap string device_record)
    (c : option coordinator) (l : list device_record)
    (c0 : coordinator) (batches : list (list device_record)) :
  handle_device_data l data c
  = handle_device_data (filter (λ r, truthy (device_id r) = true) l) data c
  ∧
  ∀ i r, (run (∅, c0) (Ingest <$> batches)).1.1 !! i = Some r →
         truthy (Some i) = true ∧ device_id r = Some i ∧
         last (filter (λ r', device_id r' = Some i) (concat batches)) = Some r.
Proof.
  split.
  - rewrite !handle_device_data_unfold. unfold Registry.store_devices.
    by rewrite <-(store_devices_filter (data, false) l).
  - intros i r. rewrite run_ingest_lookup. simpl. rewrite lookup_empty.
    destruct (last (filter _ (concat batches))) as [x|] eqn:E; [|done].
    intros [= ->].
    assert (key r = Some i) as Hk.
    { apply last_Some_elem_of, list_elem_of_filter in E. by destruct E. }
    apply key_Some in Hk as [Hid Hi].
    split; [by apply bool_decide_eq_true|]. split; [done|].
    by rewrite <-filter_key.
Qed.

Lemma falsy_id_skipped_witness :
  handle_device_data [device_no_id; device_A] ∅ (Some init)
  = handle_device_data [device_A] ∅ (Some init)
  ∧ truthy (Some "A"%string) = true
  ∧ device_id device_A' = Some "A"%string
  ∧ last (filter (λ r', device_id r' = Some "A"%string)
            (concat [[device_no_id; device_A]; [device_A']])) = Some device_A'.
Proof.
  pose proof (falsy_id_skipped ∅ (Some init) [device_no_id; device_A] init
                [[device_no_id; device_A]; [device_A']]) as [H1 H2].
  split; [exact H1|].
  apply (H2 "A"%string device_A'). vm_compute. reflexivity.
Defined.

(** C5, as stated, fails: a device that is in the registry when a platform
    registers its sink is marked known by [set_entity_adder], and is never
    reported as newly discovered, however often it comes again. *)
Lemma discovered_exactly_once_counterexample :
  discoveries "A"
    (run (∅, init)
         [Ingest [device_A]; SetEntityAdder SWITCH 0;
          Ingest [device_A']; Ingest [device_A]]).2 ≠ 1.
Proof. vm_compute. discriminate. Qed.

(** C5, amended: over the life of a session a device id is reported as
    newly discovered at most once, and each sink is handed at most one
    entity list with it, however many batches carry the id; an id in the
    known-ids set is never reported; an id that first comes in a batch
    while some sink is registered is reported exactly once. *)
Theorem discovered_at_most_once
    (st : gmap string device_record * coordinator) (ops : list op) (i : string) :
  discoveries i (run st ops).2 ≤ 1
  ∧ (∀ p, deliveries p i (run st ops).2 ≤ discoveries i (run st ops).2)
  ∧ (i ∈ known_device_ids st.2 → discoveries i (run st ops).2 = 0)
  ∧ (∀ l r, any_adder st.2 = true → i ∉ dom st.1 → i ∉ known_device_ids st.2 →
            r ∈ l → device_id r = Some i → i ≠ ""%string →
            discoveries i (run st (Ingest l :: ops)).2 = 1)
  ∧ (∀ p f, i ∈ dom st.1 →
            discoveries i (run st (SetEntityAdder p f :: ops)).2 = 0).
Proof.
  split; [apply run_once|]. split; [intros p; apply run_deliveries|].
  split; [apply run_known_quiet|].
  split; [|intros p f Hdom; rewrite run_cons_events, discoveries_app;
           rewrite run_known_quiet; [done|]; simpl; by apply elem_of_union_r].
  intros l r Hany Hdom Hknown Hin Hid Hi.
  assert (key r = Some i) as Hk by by apply key_Some.
  assert ((Registry.store_devices st.1 l).2 = true) as Hch.
  { apply store_devices_true. exists r. split; [done|].
    apply differs_true. exists i. split; [done|].
    apply not_elem_of_dom in Hdom. by rewrite Hdom. }
  assert (i ∈ dom (Registry.store_devices st.1 l).1) as Hin'.
  { apply elem_of_dom. unfold Registry.store_devices.
    rewrite store_devices_lookup.
    destruct (last (filter _ l)) as [x|] eqn:E; [done|].
    apply last_None in E.
    assert (r ∈ filter (λ r0, key r0 = Some i) l) as Hf
      by by apply list_elem_of_filter.
    rewrite E in Hf. by apply elem_of_nil in Hf. }
  rewrite run_cons_events, discoveries_app, step_ingest, Hch. simpl.
  rewrite notify_first by done.
  rewrite run_known_quiet; [done|]. simpl. by apply notify_known_all.
Qed.

Lemma discovered_at_most_once_witness :
  discoveries "A" (run (∅, set_entity_adder SWITCH 0 ∅ init)
                       [Ingest [device_A]; Ingest [device_A']]).2 = 1
  ∧ discoveries "A" (run ({["A"%string := device_A]},
                          set_entity_adder SWITCH 0 {["A"%string := device_A]} init)
                         [Ingest [device_A']]).2 = 0.
Proof.
  split.
  - apply (proj1 (proj2 (proj2 (proj2 (discovered_at_most_once
             (∅, set_entity_adder SWITCH 0 ∅ init) [Ingest [device_A']] "A"%string))))
             [device_A] device_A).
    + reflexivity.
    + simpl. rewrite dom_empty_L. apply not_elem_of_empty.
    + simpl. rewrite dom_empty_L. set_solver.
    + apply list_elem_of_singleton. reflexivity.
    + reflexivity.
    + discriminate.
  - apply (proj1 (proj2 (proj2 (discovered_at_most_once
             ({["A"%string := device_A]},
              set_entity_adder SWITCH 0 {["A"%string := device_A]} init)
             [Ingest [device_A']] "A"%string)))).
    simpl. rewrite dom_singleton_L. apply elem_of_union_r, elem_of_singleton.
    reflexivity.
Defined.

(** C9, as stated, fails: with no sink registered at all
    ([if any(self._async_add_entities.values())]) the discovery pass does
    not run, and a device first sighted then is not added to the known
    ids. *)
Lemma sink_missing_counterexample :
  async_add_entities init !! SWITCH = None
  ∧ ("A"%string ∉ dom (∅ : gmap string device_record))
  ∧ ("A"%string ∈ dom (step (∅, init) (Ingest [device_A])).1.1)
  ∧ ("A"%string ∉ known_device_ids (step (∅, init) (Ingest [device_A])).1.2).
Proof.
  split; [reflexivity|]. split; [set_solver|].
  rewrite step_ingest. cbn [fst snd].
  assert ((Registry.store_devices ∅ [device_A]).2 = true) as -> by reflexivity.
  simpl. split.
  - apply elem_of_dom. eexists. reflexivity.
  - set_solver.
Qed.

(** C9, amended: when a device is first sighted while the sink of a
    platform is not registered, nothing is handed to that platform and
    nothing is queued for it; the id is added to the known ids in that pass
    if some sink is registered, and otherwise when the next sink
    registers; either way no later pass hands the device to that platform,
    also after its sink has registered. *)
Theorem sink_missing_at_first_sighting
    (st : gmap string device_record * coordinator) (l : list device_record)
    (ops : list op) (p : Platform) (i : string) (r : device_record) :
  async_add_entities st.2 !! p = None → i ∉ dom st.1 →
  r ∈ l → device_id r = Some i → i ≠ ""%string →
  i ∈ dom (step st (Ingest l)).1.1
  ∧ (any_adder st.2 = true → i ∈ known_device_ids (step st (Ingest l)).1.2)
  ∧ (any_adder st.2 = false →
     known_device_ids (step st (Ingest l)).1.2 = known_device_ids st.2)
  ∧ (∀ q f, i ∈ known_device_ids
                  (step (step st (Ingest l)).1 (SetEntityAdder q f)).1.2)
  ∧ (∀ j, deliveries p j (step st (Ingest l)).2 = 0)
  ∧ deliveries p i (run st (Ingest l :: ops)).2 = 0.
Proof.
  intros Hp Hdom Hin Hid Hi.
  assert (key r = Some i) as Hk by by apply key_Some.
  assert ((Registry.store_devices st.1 l).2 = true) as Hch.
  { apply store_devices_true. exists r. split; [done|].
    apply differs_true. exists i. split; [done|].
    apply not_elem_of_dom in Hdom. by rewrite Hdom. }
  assert (i ∈ dom (Registry.store_devices st.1 l).1) as Hin'.
  { apply elem_of_dom. unfold Registry.store_devices.
    rewrite store_devices_lookup.
    destruct (last (filter _ l)) as [x|] eqn:E; [done|].
    apply last_None in E.
    assert (r ∈ filter (λ r0, key r0 = Some i) l) as Hf
      by by apply list_elem_of_filter.
    rewrite E in Hf. by apply elem_of_nil in Hf. }
  assert (i ∈ dom (step st (Ingest l)).1.1) as Hin''
    by by rewrite step_ingest, Hch.
  split; [done|]. split; [|split; [|split; [|split]]].
  - intros Hany. rewrite step_ingest, Hch. simpl. by apply notify_known_all.
  - intros Hany. rewrite step_ingest, Hch. simpl.
    by rewrite notify_unfold, Hany.
  - intros q f. simpl. by apply elem_of_union_r.
  - intros j. by apply step_unregistered.
  - rewrite run_cons_events, deliveries_app, step_unregistered by done.
    apply run_never_delivered; [done|]. left.
    rewrite step_ingest, Hch. simpl. by rewrite notify_adders.
Qed.

Lemma sink_missing_at_first_sighting_witness :
  "A"%string ∈ known_device_ids
     (step (∅, set_entity_adder SWITCH 0 ∅ init) (Ingest [device_A])).1.2
  ∧ deliveries SENSOR "A"
      (run (∅, set_entity_adder SWITCH 0 ∅ init)
           [Ingest [device_A]; SetEntityAdder SENSOR 1; Ingest [device_A']]).2 = 0.
Proof.
  destruct (sink_missing_at_first_sighting
              (∅, set_entity_adder SWITCH 0 ∅ init) [device_A]
              [SetEntityAdder SENSOR 1; Ingest [device_A']]
              SENSOR "A"%string device_A) as (_ & H2 & _ & _ & _ & H5).
  - reflexivity.
  - simpl. rewrite dom_empty_L. apply not_elem_of_empty.
  - apply list_elem_of_singleton. reflexivity.
  - reflexivity.
  - discriminate.
  - split; [apply H2; reflexivity|exact H5].
Defined.

Import Client ClientFacts.

(** C1, as stated, fails: [connect] on a connected session opens a second
    socket and stores it in place of the live one, which stays open. *)
Lemma connect_idempotent_counterexample :
  let w1 := connect true (setup None true) in
  let w2 := connect true w1 in
  writer w1.1 = Some 0 ∧ connections w1.2 = [0]
  ∧ writer w2.1 = Some 3 ∧ connections w2.2 = [0; 3].
Proof. vm_compute. done. Qed.

(** C1, amended: [connect] is a no-op once the session is shut down.  On a
    running session it attempts a connection whether or not one is live:
    an attempt that fails leaves the stored socket and the open
    connections as they are; an attempt that succeeds stores the new
    socket in place of the old one, which it does not close.  The client
    stores one socket handle at most. *)
Theorem connect_on_live_session (w : client * hass) (opened : bool) :
  (is_running w.1 = false → connect opened w = w)
  ∧ (is_running w.1 = true →
     writer (connect false w).1 = writer w.1
     ∧ reader (connect false w).1 = reader w.1
     ∧ connections (connect false w).2 = connections w.2
     ∧ (∃ t, handle_id t = next_id w.2
           ∧ reconnect_task (connect false w).1 = Some t
           ∧ (handle_id t, (RECONNECT_DELAY, HandleReconnect))
               ∈ timers (connect false w).2)
     ∧ writer (connect true w).1 = Some (next_id w.2)
     ∧ reader (connect true w).1 = Some (next_id w.2)
     ∧ connections (connect true w).2 = connections w.2 ++ [next_id w.2]).
Proof.
  destruct w as [self h]. split; intros Hrun; simpl in Hrun.
  - unfold connect. by rewrite Hrun.
  - destruct (connect_opened self h Hrun) as (H1 & H2 & H3).
    destruct (schedule_reconnect_spec (self, h)) as (H4 & H5 & H6 & H7).
    assert (connect false (self, h) = schedule_reconnect (self, h)) as ->
      by (unfold connect; by rewrite Hrun).
    exact (conj H4 (conj H5 (conj H6 (conj H7 (conj H1 (conj H2 H3)))))).
Qed.

Lemma connect_on_live_session_witness :
  connect true (shutdown (setup None true)) = shutdown (setup None true)
  ∧ writer (connect false (connect true (setup None true))).1 = Some 0
  ∧ writer (connect true (connect true (setup None true))).1 = Some 3.
Proof.
  split.
  - apply (proj1 (connect_on_live_session (shutdown (setup None true)) true)).
    reflexivity.
  - destruct (proj2 (connect_on_live_session (connect true (setup None true)) true))
      as (H1 & _ & _ & _ & H4 & _); [reflexivity|].
    split; [exact H1|exact H4].
Defined.

(** C2: the code arms a reconnect timer in two places, and
    [_handle_disconnect] does not cancel the one before.  A session that is
    connected, whose [connect] is called again and fails, and whose read
    then fails, has two reconnect timers scheduled (whatever
    [async_call_later] returns). *)
Theorem reconnect_timers_duplicated
    (loads : list byte → option decoded) (token : option string)
    (timer_handles : bool) :
  outstanding HandleReconnect
    (run loads (setup token timer_handles)
         [Connect true; Connect false; Listen 1 None]).1.2 = [3; 4].
Proof. by destruct timer_handles. Qed.

(** The scenario of the design document: a read fails, and [connect] is
    called by hand before the timer fires and fails too.  With
    [TimerHandle]s [_schedule_reconnect] cancels the timer of
    [_handle_disconnect] and one timer is left; with handles of another
    type every [cancel] is skipped and both stay. *)
Example backoff_manual_connect (loads : list byte → option decoded) :
  outstanding HandleReconnect
    (run loads (setup None true)
         [Connect true; Listen 1 None; Connect false]).1.2 = [4]
  ∧ outstanding HandleReconnect
      (run loads (setup None false)
           [Connect true; Listen 1 None; Connect false]).1.2 = [3; 4].
Proof. done. Qed.

(** C6: [send_command] on a session that is not connected (no writer, or
    shut down) returns [False], writes nothing and leaves the client as it
    was: nothing is kept of the command, and whatever happens next, the
    session ends in the same state and writes the same messages as if the
    command had not been given. *)
Theorem send_while_disconnected
    (loads : list byte → option decoded) (w : client * hass)
    (command : gmap string value) (sent : bool) (actions : list action) :
  writer w.1 = None ∨ is_running w.1 = false →
  send_command command sent w.1 = (w.1, false, [SendFailed])
  ∧ writes (send_command command sent w.1).2 = 0
  ∧ (run loads w (SendCommand command sent :: actions)).1
    = (run loads w actions).1
  ∧ filter (λ e, is_Write e = true)
      (run loads w (SendCommand command sent :: actions)).2
    = filter (λ e, is_Write e = true) (run loads w actions).2.
Proof.
  intros Hdown.
  assert (send_command command sent w.1 = (w.1, false, [SendFailed])) as Hsend.
  { unfold send_command. destruct Hdown as [-> | Hrun]; [done|].
    rewrite Hrun. by destruct (writer w.1). }
  split; [done|]. rewrite Hsend. split; [done|].
  simpl. rewrite Hsend. destruct w as [self h]. simpl.
  by destruct (run loads (self, h) actions).
Qed.

Lemma send_while_disconnected_witness :
  send_command ∅ true (setup None true).1
  = ((setup None true).1, false, [SendFailed]).
Proof.
  apply (send_while_disconnected (λ _, None) (setup None true) ∅ true []).
  left. reflexivity.
Defined.

(** C7: with no writer, or after shutdown, [send_heartbeat] writes nothing
    and the wrapper schedules nothing: the chain stops.  On a connected, running session
    the wrapper, whether the send went through or raised, schedules the
    next heartbeat: a fresh timer for [HEARTBEAT_INTERVAL], stored in
    [_heartbeat_task]. *)
Theorem heartbeat_chain (w : client * hass) (sent : bool) :
  (writer w.1 = None ∨ is_running w.1 = false →
   writes (send_heartbeat sent w.1).2 = 0
   ∧ send_heartbeat_wrapper sent w = (w, []))
  ∧ (is_running w.1 = true → is_Some (writer w.1) →
     ∃ t, handle_id t = next_id w.2
          ∧ heartbeat_task (send_heartbeat_wrapper sent w).1.1 = Some t
          ∧ (handle_id t, (HEARTBEAT_INTERVAL, SendHeartbeatWrapper))
              ∈ timers (send_heartbeat_wrapper sent w).1.2
          ∧ writer (send_heartbeat_wrapper sent w).1.1 = writer w.1).
Proof.
  destruct w as [self h]. split.
  - intros Hdown. simpl in *.
    unfold send_heartbeat_wrapper, send_heartbeat.
    destruct Hdown as [Hw|Hrun].
    + rewrite Hw. simpl. by rewrite andb_false_r.
    + rewrite Hrun. by destruct (writer self), (coordinator self).
  - intros Hrun [sock Hw]. simpl in Hrun, Hw.
    assert ((send_heartbeat_wrapper sent (self, h)).1 = start_heartbeat (self, h))
      as ->.
    { unfold send_heartbeat_wrapper.
      destruct (send_heartbeat sent self) as [r events].
      by rewrite Hrun, Hw. }
    destruct (start_heartbeat_spec (self, h)) as (t & H1 & H2 & H3 & H4 & _).
    exists t. exact (conj H1 (conj H2 (conj H3 H4))).
Qed.

Lemma heartbeat_chain_witness :
  send_heartbeat_wrapper true (setup None true) = (setup None true, [])
  ∧ ∃ t, handle_id t = 3
         ∧ heartbeat_task
             (send_heartbeat_wrapper false (connect true (setup None true))).1.1
           = Some t.
Proof.
  split.
  - apply (proj1 (heartbeat_chain (setup None true) true)). left. reflexivity.
  - destruct (proj2 (heartbeat_chain (connect true (setup None true)) false))
      as (t & H1 & H2 & _); [reflexivity|by eexists|].
    exists t. split; [exact H1|exact H2].
Defined.

(** C8: when the buffer, with the bytes just read, holds a frame that is
    not valid JSON followed by another frame, wherever they stand among the
    frames, [_process_buffer] logs the decode error and goes on: the frame
    leaves the registry and the coordinator as the frames before it made
    them, the next frame is handled on that state, and so are the frames
    after it.  The read changes nothing of the connection: no timer is
    armed or cancelled, no socket is closed, the listen task lives on. *)
Theorem decode_error_recovered
    (loads : list byte → option decoded) (w : client * hass) (task : nat)
    (b : byte) (bytes : list byte) (pre : list (list byte))
    (bad good : list byte) (post : list (list byte)) :
  task ∈ tasks w.2 → is_running w.1 = true → is_Some (reader w.1) →
  (Framing.extract_frames (buffer w.1 ++ b :: bytes)).1
  = pre ++ bad :: good :: post →
  loads bad = None →
  let s1 := handle_frames loads pre (w.1, []) in
  let s2 := handle_message loads good (s1.1, []) in
  let s3 := handle_frames loads post (s2.1, []) in
  handle_message loads bad (s1.1, []) = (s1.1, [JSONDecodeError bad])
  ∧ listen loads task (Some (b :: bytes)) w
    = (set_buffer (Framing.extract_frames (buffer w.1 ++ b :: bytes)).2 s3.1,
       w.2,
       s1.2 ++ [JSONDecodeError bad] ++ s2.2 ++ s3.2)
  ∧ same_connection w.1 s3.1.
Proof.
  intros Htask Hrun Hreader Hframes Hbad s1 s2 s3.
  split; [|split].
  - unfold handle_message. by rewrite Hbad.
  - rewrite listen_data by done. rewrite process_buffer_frames. simpl.
    rewrite Hframes.
    set (B := buffer w.1 ++ b :: bytes).
    assert (handle_frames loads (pre ++ bad :: good :: post)
              (set_buffer B w.1, [])
            = (set_buffer B s3.1,
               s1.2 ++ [JSONDecodeError bad] ++ s2.2 ++ s3.2)) as ->; [|done].
    unfold handle_frames at 1. rewrite foldl_app. simpl.
    fold (handle_frames loads pre (set_buffer B w.1, [])).
    pose proof (handle_frames_frame loads pre B w.1 [] []) as E1.
    simpl in E1. rewrite E1. fold s1.
    assert (handle_message loads bad (set_buffer B s1.1, s1.2)
            = (set_buffer B s1.1, s1.2 ++ [JSONDecodeError bad])) as ->.
    { unfold handle_message. by rewrite Hbad. }
    pose proof (handle_message_frame loads good B s1.1
                  (s1.2 ++ [JSONDecodeError bad]) []) as E2.
    rewrite app_nil_r in E2. rewrite E2. fold s2.
    fold (handle_frames loads post
            (set_buffer B s2.1, (s1.2 ++ [JSONDecodeError bad]) ++ s2.2)).
    pose proof (handle_frames_frame loads post B s2.1
                  ((s1.2 ++ [JSONDecodeError bad]) ++ s2.2) []) as E3.
    rewrite app_nil_r in E3. rewrite E3. fold s3.
    by rewrite <-!app_assoc.
  - eapply same_connection_trans; [apply (handle_frames_connection loads pre)|].
    fold s1.
    eapply same_connection_trans; [apply (handle_message_connection loads good)|].
    fold s2. apply handle_frames_connection.
Qed.

Lemma decode_error_recovered_witness :
  listen loads_braces 1
    (Some ([x78] ++ MESSAGE_DELIMITER ++ [x7b; x7d] ++ MESSAGE_DELIMITER))
    (connect true (setup None true))
  = ((connect true (setup None true)).1, (connect true (setup None true)).2,
     [JSONDecodeError [x78]]).
Proof.
  destruct (decode_error_recovered loads_braces (connect true (setup None true))
              1 x78 (MESSAGE_DELIMITER ++ [x7b; x7d] ++ MESSAGE_DELIMITER)
              [] [x78] [x7b; x7d] []) as (_ & H & _).
  - apply list_elem_of_singleton. reflexivity.
  - reflexivity.
  - by eexists.
  - reflexivity.
  - reflexivity.
  - exact H.
Defined.

(** * Further properties *)

(** ** Framing and the wire *)

Module WireFacts.
Import Framing FramingFacts Wire.

Lemma split_once_nil sep : sep ≠ [] → split_once sep [] = None.
Proof. by destruct sep. Qed.

(** The part before the leftmost delimiter holds none. *)
Lemma split_once_before sep s m rest :
  sep ≠ [] → split_once sep s = Some (m, rest) → split_once sep m = None.
Proof.
  intros Hsep. revert m; induction s as [|b s IH]; intros m.
  - rewrite split_once_nil by done. done.
  - cbn [split_once]. destruct (starts_with sep (b :: s)) eqn:Hs.
    + intros [= <- <-]. by apply split_once_nil.
    + destruct (split_once sep s) as [[m' r']|] eqn:Hsp; [|done].
      intros [= <- <-]. cbn [split_once].
      destruct (starts_with sep (b :: m')) eqn:Hs'.
      * apply split_once_Some in Hsp. rewrite Hsp in Hs.
        change (b :: m' ++ sep ++ r') with ((b :: m') ++ sep ++ r') in Hs.
        by rewrite (starts_with_app _ _ _ Hs') in Hs.
      * by rewrite (IH m' eq_refl).
Qed.

(** No occurrence of the delimiter starts inside a payload without one and
    runs into the delimiter after it: [$$##] does not overlap itself. *)
Lemma starts_with_frame f s :
  f ≠ [] → starts_with MESSAGE_DELIMITER f = false →
  starts_with MESSAGE_DELIMITER (f ++ MESSAGE_DELIMITER ++ s) = false.
Proof.
  intros Hne Hf.
  destruct (decide (length MESSAGE_DELIMITER ≤ length f)) as [Hlen|Hlen].
  { by apply starts_with_app_false. }
  simpl in Hlen.
  destruct f as [|b1 [|b2 [|b3 [|b4 f]]]]; simpl in *; try done; try lia;
    repeat case_decide; done.
Qed.

Lemma split_once_frame f s :
  split_once MESSAGE_DELIMITER f = None →
  split_once MESSAGE_DELIMITER (frame f ++ s) = Some (f, s).
Proof.
  unfold frame. rewrite <-app_assoc.
  induction f as [|b f IH]; intros Hf; [done|].
  assert (starts_with MESSAGE_DELIMITER (b :: f) = false
          ∧ split_once MESSAGE_DELIMITER f = None) as [Hs Hf'].
  { cbn [split_once] in Hf.
    destruct (starts_with MESSAGE_DELIMITER (b :: f)); [done|].
    split; [done|]. by destruct (split_once MESSAGE_DELIMITER f) as [[??]|]. }
  change ((b :: f) ++ MESSAGE_DELIMITER ++ s)
    with (b :: (f ++ MESSAGE_DELIMITER ++ s)).
  cbn [split_once].
  change (b :: (f ++ MESSAGE_DELIMITER ++ s))
    with ((b :: f) ++ MESSAGE_DELIMITER ++ s).
  rewrite starts_with_frame by done. by rewrite (IH Hf').
Qed.

Lemma extract_frames_stream fs rest :
  Forall (λ f, split_once MESSAGE_DELIMITER f = None) fs →
  split_once MESSAGE_DELIMITER rest = None →
  extract_frames (stream fs ++ rest) = (fs, rest).
Proof.
  intros Hfs Hrest. induction Hfs as [|f fs Hf _ IH].
  - by apply extract_frames_None.
  - change (stream (f :: fs) ++ rest) with ((frame f ++ stream fs) ++ rest).
    rewrite <-app_assoc.
    rewrite (extract_frames_Some _ f (stream fs ++ rest)).
    + by rewrite IH.
    + by apply split_once_frame.
Qed.

Lemma feed_concat st chunks :
  split_once MESSAGE_DELIMITER st.2 = None →
  foldl feed st chunks = feed st (concat chunks).
Proof.
  revert st; induction chunks as [|c cs IH]; intros st Hst; simpl.
  - by rewrite feed_nil.
  - rewrite IH by apply feed_rest. apply feed_feed.
Qed.

End WireFacts.

(** X1: whatever the buffer holds, the loop of [_process_buffer] loses and
    invents no byte: the buffer is the frames it extracts, each followed by
    the delimiter, and then the bytes it leaves; no frame holds the
    delimiter and neither do the bytes left. *)
Theorem frames_account_for_buffer (buf : list byte) :
  buf = Wire.stream (Framing.extract_frames buf).1
        ++ (Framing.extract_frames buf).2
  ∧ Forall (λ f, Framing.contains MESSAGE_DELIMITER f = false)
      (Framing.extract_frames buf).1
  ∧ Framing.contains MESSAGE_DELIMITER (Framing.extract_frames buf).2 = false.
Proof.
  remember (length buf) as n eqn:Hn. revert buf Hn.
  induction n as [n IH] using lt_wf_ind. intros buf ->.
  destruct (Framing.split_once MESSAGE_DELIMITER buf) as [[m rest]|] eqn:Hsplit.
  - rewrite (FramingFacts.extract_frames_Some buf m rest Hsplit). cbn [fst snd].
    pose proof (Framing.split_once_length _ _ _ _ Hsplit) as Hlen.
    simpl in Hlen.
    destruct (IH (length rest) ltac:(lia) rest eq_refl) as (Hbuf & Hfs & Hrest).
    split; [|split; [|done]].
    + change (Wire.stream (m :: (Framing.extract_frames rest).1))
        with (Wire.frame m ++ Wire.stream (Framing.extract_frames rest).1).
      unfold Wire.frame. rewrite <-!app_assoc, <-Hbuf.
      by apply Framing.split_once_Some.
    + constructor; [|done]. unfold Framing.contains.
      assert (MESSAGE_DELIMITER ≠ []) as Hsep by discriminate.
      by rewrite (WireFacts.split_once_before _ _ _ _ Hsep Hsplit).
  - rewrite (FramingFacts.extract_frames_None buf Hsplit). cbn [fst snd].
    split; [done|]. split; [constructor|].
    unfold Framing.contains. by rewrite Hsplit.
Qed.

(** X2: messages written one after the other, none of which holds the
    delimiter, come out of the framer as they went in, however the stream
    is cut into chunks, and what follows the last delimiter stays in the
    buffer. *)
Theorem stream_round_trip (payloads : list (list byte)) (rest : list byte)
    (chunks : list (list byte)) :
  Forall (λ f, Framing.contains MESSAGE_DELIMITER f = false) payloads →
  Framing.contains MESSAGE_DELIMITER rest = false →
  concat chunks = Wire.stream payloads ++ rest →
  foldl Framing.feed ([], []) chunks = (payloads, rest).
Proof.
  intros Hfs Hrest Hchunks.
  rewrite WireFacts.feed_concat by done. unfold Framing.feed. simpl.
  rewrite Hchunks, WireFacts.extract_frames_stream; [done| |].
  - eapply Forall_impl; [exact Hfs|]. intros f. unfold Framing.contains.
    by destruct (Framing.split_once MESSAGE_DELIMITER f).
  - unfold Framing.contains in Hrest.
    by destruct (Framing.split_once MESSAGE_DELIMITER rest).
Qed.

Lemma stream_round_trip_witness :
  foldl Framing.feed ([], [])
    [[x7b; x7d; x24]; [x24; x23; x23; x7b]; [x7d; x24; x24; x23; x23; x7b]]
  = ([[x7b; x7d]; [x7b; x7d]], [x7b]).
Proof.
  apply (stream_round_trip [[x7b; x7d]; [x7b; x7d]] [x7b]).
  - repeat constructor.
  - reflexivity.
  - reflexivity.
Defined.

(** ** The registry: redelivery and conflicting records *)

Module RedeliveryFacts.
Import Registry RegistryFacts.

Lemma key_truthy r i : key r = Some i → truthy (device_id r) = true.
Proof. unfold key. by destruct (truthy (device_id r)). Qed.

Lemma key_same r r' :
  truthy (device_id r) = true → device_id r = device_id r' →
  ∃ i, key r = Some i ∧ key r' = Some i.
Proof.
  intros Ht Hid. unfold key. rewrite <-Hid, Ht.
  destruct (device_id r) as [i|]; [eauto|done].
Qed.

(** Once a batch is stored, and no id of it carries two different records,
    the registry holds each of its records. *)
Lemma store_devices_settled data l :
  (∀ r r', r ∈ l → r' ∈ l → truthy (device_id r) = true →
           device_id r = device_id r' → r = r') →
  store_devices (store_devices data l).1 l = ((store_devices data l).1, false).
Proof.
  intros Hl. unfold store_devices at 1. apply store_devices_false.
  split; [done|]. intros r i Hin Hk.
  unfold store_devices. rewrite store_devices_lookup.
  destruct (last (filter (λ r, key r = Some i) l)) as [r'|] eqn:Hlast.
  - apply last_Some_elem_of, list_elem_of_filter in Hlast as [Hk' Hin'].
    f_equal. symmetry. apply Hl; [done|done|by eapply key_truthy|].
    apply key_Some in Hk as [-> _]. by apply key_Some in Hk' as [-> _].
  - apply last_None in Hlast.
    assert (r ∈ filter (λ r, key r = Some i) l) as Hr
      by by apply list_elem_of_filter.
    rewrite Hlast in Hr. by apply elem_of_nil in Hr.
Qed.

(** A batch with two different records under one id counts as a change,
    whatever the registry holds. *)
Lemma store_devices_conflict data l r r' :
  r ∈ l → r' ∈ l → truthy (device_id r) = true →
  device_id r = device_id r' → r ≠ r' →
  (store_devices data l).2 = true.
Proof.
  intros Hr Hr' Ht Hid Hne. apply store_devices_true.
  destruct (key_same r r' Ht Hid) as (i & Hk & Hk').
  destruct (decide (data !! i = Some r)) as [E|E].
  - exists r'. split; [done|]. apply differs_true. exists i.
    split; [done|]. rewrite E. congruence.
  - exists r. split; [done|]. apply differs_true. by exists i.
Qed.

End RedeliveryFacts.

(** X3: a batch delivered a second time, right after the first, changes
    nothing and notifies nobody, provided no id with a truthy value carries
    two different records in it. *)
Theorem redelivery_is_silent (l : list device_record)
    (data : gmap string device_record) (c : option Coordinator.coordinator) :
  (∀ r r', r ∈ l → r' ∈ l → truthy (device_id r) = true →
           device_id r = device_id r' → r = r') →
  handle_device_data l (handle_device_data l data c).1.1
                       (handle_device_data l data c).1.2
  = ((handle_device_data l data c).1.1, (handle_device_data l data c).1.2, []).
Proof.
  intros Hl.
  rewrite (handle_device_data_unfold l (handle_device_data l data c).1.1).
  rewrite handle_device_data_data.
  by rewrite RedeliveryFacts.store_devices_settled.
Qed.

Lemma redelivery_is_silent_witness :
  handle_device_data [device_A; device_no_id]
    (handle_device_data [device_A; device_no_id] ∅ (Some Coordinator.init)).1.1
    (handle_device_data [device_A; device_no_id] ∅ (Some Coordinator.init)).1.2
  = ((handle_device_data [device_A; device_no_id] ∅ (Some Coordinator.init)).1.1,
     (handle_device_data [device_A; device_no_id] ∅ (Some Coordinator.init)).1.2,
     []).
Proof.
  apply (redelivery_is_silent [device_A; device_no_id] ∅ (Some Coordinator.init)).
  intros r r' Hr Hr' Ht Hid.
  apply elem_of_cons in Hr as [->|Hr]; [|apply list_elem_of_singleton in Hr as ->];
    [|done].
  apply elem_of_cons in Hr' as [->|Hr']; [done|].
  apply list_elem_of_singleton in Hr' as ->. done.
Defined.

(** X4: a batch that carries two different records under one truthy id is
    taken for a change every time it arrives, whatever the registry holds:
    the coordinator is notified once. *)
Theorem conflicting_batch_notifies (l : list device_record)
    (data : gmap string device_record) (c : Coordinator.coordinator)
    (r r' : device_record) :
  r ∈ l → r' ∈ l → truthy (device_id r) = true →
  device_id r = device_id r' → r ≠ r' →
  notifications (handle_device_data l data (Some c)).2 = 1.
Proof.
  intros Hr Hr' Ht Hid Hne. rewrite handle_device_data_unfold.
  rewrite (RedeliveryFacts.store_devices_conflict data l r r') by done.
  apply notify_notifications.
Qed.

Lemma conflicting_batch_notifies_witness :
  notifications
    (handle_device_data [device_A; device_A'] {["A"%string := device_A']}
       (Some Coordinator.init)).2 = 1.
Proof.
  apply (conflicting_batch_notifies _ _ _ device_A device_A').
  - apply elem_of_cons. by left.
  - apply elem_of_cons. right. apply elem_of_cons. by left.
  - reflexivity.
  - reflexivity.
  - intros H. vm_compute in H. discriminate H.
Defined.

(** ** Discovery: which entities a new device gets *)

Module DiscoveryFacts.
Import Coordinator CoordinatorFacts.

(** The condition under which the loop builds an entity of a platform. *)
Definition capable (p : Platform) (d : device_record) : bool :=
  match p with
  | SWITCH => true
  | SENSOR => is_not_None (get d "temp")
  | NUMBER => is_not_None (get d "setTemp")
  | SELECT => is_not_None (get d "mode") && is_not_None (get d "modeList")
  end.

Definition entity_of (p : Platform) (i : string) : entity :=
  match p with
  | SWITCH => YuellySwitch i
  | SENSOR => YuellyTemperatureSensor i
  | NUMBER => YuellyTemperatureNumber i
  | SELECT => YuellyModeSelect i
  end.

Definition new_entities (p : Platform) (st : discovery) : list entity :=
  match p with
  | SWITCH => new_switch_entities st
  | SENSOR => new_sensor_entities st
  | NUMBER => new_number_entities st
  | SELECT => new_select_entities st
  end.

Lemma discover_new_entities st j d p :
  j ∉ known st →
  new_entities p (discover st (j, d))
  = new_entities p st ++ (if capable p d then [entity_of p j] else []).
Proof.
  intros H. unfold discover. rewrite decide_False by done.
  destruct p; simpl; [by destruct d|done..].
Qed.

(** The entities the loop has built when it ends. *)
Lemma discover_entities st l p e :
  NoDup l.*1 →
  e ∈ new_entities p (foldl discover st l) ↔
  (e ∈ new_entities p st
   ∨ ∃ j d, (j, d) ∈ l ∧ (j ∉ known st) ∧ capable p d = true
            ∧ e = entity_of p j).
Proof.
  revert st; induction l as [|[j d] l IH]; intros st Hdup.
  - simpl. split; [by left|]. intros [?|(j & d & Hin & _)]; [done|].
    by apply elem_of_nil in Hin.
  - rewrite fmap_cons in Hdup. apply NoDup_cons in Hdup as [Hj Hdup].
    cbn [foldl]. rewrite IH by done.
    destruct (decide (j ∈ known st)) as [Hk|Hk].
    + rewrite discover_old by done. split.
      * intros [?|(j' & d' & Hin & ?)]; [by left|right].
        exists j', d'. split; [by right|done].
      * intros [?|(j' & d' & Hin & Hnk & ?)]; [by left|right].
        apply elem_of_cons in Hin as [[= -> ->]|Hin]; [done|].
        by exists j', d'.
    + rewrite discover_new_entities by done.
      destruct (discover_new st j d Hk) as [Hknown _]. rewrite Hknown.
      rewrite elem_of_app. split.
      * intros [[?|He]|(j' & d' & Hin & Hnk & Hc & ->)].
        -- by left.
        -- right. exists j, d. split; [by left|]. split; [done|].
           destruct (capable p d); [|by apply elem_of_nil in He].
           by apply list_elem_of_singleton in He.
        -- right. exists j', d'. split; [by right|]. split; [set_solver|done].
      * intros [?|(j' & d' & Hin & Hnk & Hc & ->)]; [by left; left|].
        apply elem_of_cons in Hin as [[= -> ->]|Hin].
        -- left; right. rewrite Hc. by apply list_elem_of_singleton.
        -- right. exists j', d'. split; [done|]. split; [|done].
           assert (j' ≠ j); [|set_solver].
           intros ->. apply Hj, list_elem_of_fmap. by exists (j, d').
Qed.

Lemma schedule_elem self q es e :
  e ∈ schedule self q es ↔
  e = AddEntities q es ∧ es ≠ [] ∧ is_Some (async_add_entities self !! q).
Proof.
  unfold schedule. destruct es as [|x es].
  - split; [by intros ?%elem_of_nil|]. by intros (_ & ? & _).
  - destruct (async_add_entities self !! q) as [f|] eqn:E.
    + rewrite list_elem_of_singleton. split; [|by intros (? & _)].
      intros ->. split; [done|]. split; [done|by eexists].
    + split; [by intros ?%elem_of_nil|]. intros (_ & _ & [? ?]). done.
Qed.

Lemma any_adder_true self :
  any_adder self = true ↔ ∃ p, is_Some (async_add_entities self !! p).
Proof.
  unfold any_adder. rewrite existsb_exists. split.
  - intros (p & _ & Hp). exists p. by apply bool_decide_eq_true in Hp.
  - intros (p & Hp). exists p. split; [|by apply bool_decide_eq_true].
    apply list_elem_of_In. destruct p; set_solver.
Qed.

(** The entities handed to a sink by one call of [notify_data_received]. *)
Lemma notify_entities data self p e :
  (∃ es, AddEntities p es ∈ (notify_data_received data self).2 ∧ e ∈ es) ↔
  is_Some (async_add_entities self !! p)
  ∧ ∃ i d, data !! i = Some d ∧ (i ∉ known_device_ids self)
           ∧ capable p d = true ∧ e = entity_of p i.
Proof.
  rewrite notify_unfold. destruct (any_adder self) eqn:Hany; cbn [snd].
  - pose proof (discover_loop_inv _ (map_to_list data) (start_inv self))
      as [Hlog _ _ _ _ _].
    set (st := foldl discover (start self) (map_to_list data)) in *.
    assert (∀ es, AddEntities p es ∈
                    discovered st
                    ++ schedule self SWITCH (new_switch_entities st)
                    ++ schedule self SENSOR (new_sensor_entities st)
                    ++ schedule self NUMBER (new_number_entities st)
                    ++ schedule self SELECT (new_select_entities st)
                    ++ [UpdatedData data]
                  ↔ es = new_entities p st ∧ es ≠ []
                    ∧ is_Some (async_add_entities self !! p)) as Hev.
    { intros es. rewrite !elem_of_app, !schedule_elem, list_elem_of_singleton.
      split.
      - intros [Hin|[(Heq & ?)|[(Heq & ?)|[(Heq & ?)|[(Heq & ?)|Heq]]]]];
          try (injection Heq as -> ->; done); try done.
        rewrite Forall_forall in Hlog. by destruct (Hlog _ Hin) as [j ?].
      - intros (-> & ? & ?). destruct p; simpl; tauto. }
    split.
    + intros (es & (-> & _ & Hp)%Hev & He). split; [done|].
      apply discover_entities in He; [|apply NoDup_fst_map_to_list].
      destruct He as [He|(j & d & Hin%elem_of_map_to_list & ?)].
      * destruct p; by apply elem_of_nil in He.
      * by exists j, d.
    + intros (Hp & i & d & Hd & Hi & Hc & ->).
      exists (new_entities p st).
      assert (entity_of p i ∈ new_entities p st) as He.
      { apply discover_entities; [apply NoDup_fst_map_to_list|]. right.
        exists i, d. by rewrite elem_of_map_to_list. }
      split; [|done]. apply Hev. split; [done|]. split; [|done].
      intros Hnil. rewrite Hnil in He. by apply elem_of_nil in He.
  - split.
    + intros (es & Hin & _). by apply list_elem_of_singleton in Hin.
    + intros (Hp & _). exfalso.
      assert (any_adder self = true) by (apply any_adder_true; eauto).
      congruence.
Qed.

End DiscoveryFacts.

(** X5: what one call of [notify_data_received] hands to each platform.
    The devices concerned are those of the registry that are not known
    yet; the sink of a platform, if it is registered, gets for each of them
    a switch, a temperature sensor when the record has a [temp] that is not
    null, a setpoint when it has a [setTemp], a mode selector when it has
    both [mode] and [modeList]; it gets nothing else. *)
Theorem entities_by_capability (data : gmap string device_record)
    (self : Coordinator.coordinator) :
  let handed p e :=
    ∃ es, AddEntities p es ∈ (Coordinator.notify_data_received data self).2
          ∧ e ∈ es in
  let registered p := is_Some (Coordinator.async_add_entities self !! p) in
  let new i d :=
    data !! i = Some d ∧ i ∉ Coordinator.known_device_ids self in
  (∀ e, handed SWITCH e ↔
        registered SWITCH ∧ ∃ i d, new i d ∧ e = YuellySwitch i)
  ∧ (∀ e, handed SENSOR e ↔
          registered SENSOR
          ∧ ∃ i d, new i d ∧ get d "temp" ≠ VNone
                   ∧ e = YuellyTemperatureSensor i)
  ∧ (∀ e, handed NUMBER e ↔
          registered NUMBER
          ∧ ∃ i d, new i d ∧ get d "setTemp" ≠ VNone
                   ∧ e = YuellyTemperatureNumber i)
  ∧ (∀ e, handed SELECT e ↔
          registered SELECT
          ∧ ∃ i d, new i d ∧ get d "mode" ≠ VNone ∧ get d "modeList" ≠ VNone
                   ∧ e = YuellyModeSelect i).
Proof.
  assert (∀ v, Coordinator.is_not_None v = true ↔ v ≠ VNone) as Hnn
    by (intros []; simpl; split; congruence).
  cbv zeta. split; [|split; [|split]]; intros e; split.
  - intros (Hp & i & d & Hd & Hk & Hc & ->)%DiscoveryFacts.notify_entities.
    split; [done|]. by exists i, d.
  - intros (Hp & i & d & [Hd Hk] & ->).
    apply DiscoveryFacts.notify_entities. split; [done|]. by exists i, d.
  - intros (Hp & i & d & Hd & Hk & Hc & ->)%DiscoveryFacts.notify_entities.
    split; [done|]. exists i, d. by apply Hnn in Hc.
  - intros (Hp & i & d & [Hd Hk] & Hc & ->).
    apply DiscoveryFacts.notify_entities. split; [done|].
    exists i, d. by apply Hnn in Hc.
  - intros (Hp & i & d & Hd & Hk & Hc & ->)%DiscoveryFacts.notify_entities.
    split; [done|]. exists i, d. by apply Hnn in Hc.
  - intros (Hp & i & d & [Hd Hk] & Hc & ->).
    apply DiscoveryFacts.notify_entities. split; [done|].
    exists i, d. by apply Hnn in Hc.
  - intros (Hp & i & d & Hd & Hk & Hc & ->)%DiscoveryFacts.notify_entities.
    split; [done|]. exists i, d.
    apply andb_true_iff in Hc as [H1%Hnn H2%Hnn]. done.
  - intros (Hp & i & d & [Hd Hk] & H1 & H2 & ->).
    apply DiscoveryFacts.notify_entities. split; [done|].
    exists i, d. do 2 (split; [done|]). split; [|done].
    apply andb_true_iff. by rewrite !Hnn.
Qed.

(** X6: a heartbeat that is written goes to the session's socket, carries
    the token if it is set, and lists every device of the registry exactly
    once, each with its [protocal] value, or 0 where the record has none;
    none is written unless the session runs, is connected and has its
    coordinator. *)
Theorem heartbeat_content (sent : bool) (self : Client.client) (sock : nat)
    (l : list (string * value)) (tok : option string) :
  Write sock (Heartbeat l tok) ∈ (Client.send_heartbeat sent self).2 →
  Client.writer self = Some sock ∧ Client.is_running self = true
  ∧ is_Some (Client.coordinator self)
  ∧ tok = Client.token_if_set self
  ∧ NoDup l.*1
  ∧ ∀ i v, (i, v) ∈ l ↔
           ∃ d, Client.data self !! i = Some d
                ∧ v = default (VNum 0) (fields d !! "protocal"%string).
Proof.
  unfold Client.send_heartbeat.
  destruct (Client.writer self) as [s|]; [|by intros ?%elem_of_nil].
  destruct (Client.coordinator self) as [c|]; [|by intros ?%elem_of_nil].
  destruct (Client.is_running self); [|by intros ?%elem_of_nil].
  destruct sent; [|by intros ?%elem_of_nil]. cbn [snd].
  intros [= -> -> ->]%list_elem_of_singleton.
  do 4 (split; [done|]). unfold Coordinator.get_known_device_protocols. split.
  - rewrite <-list_fmap_compose.
    rewrite (list_fmap_ext _ fst (map_to_list (Client.data self))) by done.
    apply NoDup_fst_map_to_list.
  - intros i v. rewrite list_elem_of_fmap. split.
    + intros ([j d] & [= -> ->] & Hin%elem_of_map_to_list). by exists d.
    + intros (d & Hd & ->). exists (i, d). split; [done|].
      by apply elem_of_map_to_list.
Qed.

(** A session that is connected on socket 0 and knows device A. *)
Definition session_with_A : Client.client :=
  Client.set_streams (Some 0)
    (Client.set_update_coordinator (Some Coordinator.init)
       (Client.set_data {["A"%string := device_A]}
          (Client.init (Some "t"%string)))).

Lemma heartbeat_content_witness :
  Client.writer session_with_A = Some 0
  ∧ Client.is_running session_with_A = true
  ∧ is_Some (Client.coordinator session_with_A)
  ∧ Some "t"%string = Client.token_if_set session_with_A
  ∧ NoDup [("A"%string, VNum 0)].*1
  ∧ ∀ i v, (i, v) ∈ [("A"%string, VNum 0)] ↔
           ∃ d, Client.data session_with_A !! i = Some d
                ∧ v = default (VNum 0) (fields d !! "protocal"%string).
Proof.
  apply (heartbeat_content true session_with_A 0 [("A"%string, VNum 0)]
           (Some "t"%string)).
  vm_compute. apply list_elem_of_singleton. reflexivity.
Defined.

(** ** The known ids and the registry *)

Module KnownFacts.
Import Coordinator CoordinatorFacts RegistryFacts DispatchFacts.

(** The known ids are ids of the registry, and all of them once a sink is
    registered. *)
Definition tracks (st : gmap string device_record * coordinator) : Prop :=
  known_device_ids st.2 ⊆ dom st.1
  ∧ (any_adder st.2 = true → known_device_ids st.2 = dom st.1).

Lemma any_adder_adders c c' :
  async_add_entities c' = async_add_entities c → any_adder c' = any_adder c.
Proof. intros H. unfold any_adder. by rewrite H. Qed.

Lemma tracks_step st o : tracks st → tracks (Dispatch.step st o).1.
Proof.
  intros [Hsub Heq]. destruct o as [l|p f].
  - rewrite step_ingest.
    destruct (Registry.store_devices st.1 l) as [d b] eqn:E. cbn [fst snd].
    destruct b; cbn [fst snd].
    + assert (dom st.1 ⊆ dom d) as Hdom.
      { pose proof (store_devices_dom st.1 false l) as H.
        unfold Registry.store_devices in E. by rewrite E in H. }
      split.
      * intros i [Hi|Hi]%notify_known; [|done]. by apply Hdom, Hsub.
      * rewrite (any_adder_adders st.2) by apply notify_adders.
        intros Hany. apply set_eq. intros i. split.
        -- intros [Hi|Hi]%notify_known; [|done]. by apply Hdom, Hsub.
        -- by apply notify_known_all.
    + unfold Registry.store_devices in E.
      apply store_devices_false in E as [-> _]. by split.
  - split; cbn [Dispatch.step fst snd set_entity_adder known_device_ids].
    + set_solver.
    + intros _. set_solver.
Qed.

Lemma tracks_run st ops : tracks st → tracks (Dispatch.run st ops).1.
Proof.
  revert st; induction ops as [|o ops IH]; intros st H; [done|].
  rewrite run_cons_state. by apply IH, tracks_step.
Qed.

End KnownFacts.

(** X7: through any sequence of batches and sink registrations, starting
    with an empty registry, the ids the coordinator knows are ids of the
    registry; and as soon as one platform has registered its sink, they
    are all of them: no device of the registry is left to be discovered
    later. *)
Theorem known_ids_track_registry (ops : list Dispatch.op) :
  Coordinator.known_device_ids (Dispatch.run (∅, Coordinator.init) ops).1.2
  ⊆ dom (Dispatch.run (∅, Coordinator.init) ops).1.1
  ∧ (Coordinator.any_adder (Dispatch.run (∅, Coordinator.init) ops).1.2 = true →
     Coordinator.known_device_ids (Dispatch.run (∅, Coordinator.init) ops).1.2
     = dom (Dispatch.run (∅, Coordinator.init) ops).1.1).
Proof.
  apply (KnownFacts.tracks_run (∅, Coordinator.init)). split; [done|].
  intros H. vm_compute in H. discriminate H.
Qed.

(** ** The platforms' setup *)

Module PlatformFacts.
Import Coordinator CoordinatorFacts DispatchFacts DiscoveryFacts Platforms.

(** The list a setup hands to its sink. *)
Definition setup_entities (p : Platform) (data : gmap string device_record)
  : list entity :=
  (λ item, entity_of p item.1)
    <$> filter (λ item, capable p item.2 = true) (map_to_list data).

Lemma setup_loop (P : device_record → bool) (mk : string → entity)
    (l : list (string * device_record)) (acc : list entity) :
  foldl (λ entities item,
           if P item.2 then entities ++ [mk item.1] else entities) acc l
  = acc ++ ((λ item, mk item.1) <$> filter (λ item, P item.2 = true) l).
Proof.
  revert acc; induction l as [|[j d] l IH]; intros acc; simpl.
  - by rewrite app_nil_r.
  - rewrite IH, filter_cons. simpl. destruct (P d); simpl.
    + by rewrite <-app_assoc.
    + done.
Qed.

(** What the dispatcher sees of an operation. *)
Definition to_dispatch (o : op) : Dispatch.op :=
  match o with
  | Ingest l => Dispatch.Ingest l
  | SwitchAdder f => Dispatch.SetEntityAdder SWITCH f
  | SensorSetup f => Dispatch.SetEntityAdder SENSOR f
  | NumberSetup f => Dispatch.SetEntityAdder NUMBER f
  | SelectSetup f => Dispatch.SetEntityAdder SELECT f
  end.

Lemma platforms_step_state st o :
  (Platforms.step st o).1 = (Dispatch.step st (to_dispatch o)).1.
Proof.
  destruct o; simpl; try done.
  by destruct (handle_device_data _ _ _) as [[??]?].
Qed.

Lemma handed_events p i events :
  handed p i (Event <$> events) = deliveries p i events.
Proof.
  unfold handed, deliveries. induction events as [|e events IH]; [done|].
  rewrite fmap_cons. cbn [sum_list_with handed_by]. by rewrite IH.
Qed.

Lemma handed_app p i c1 c2 : handed p i (c1 ++ c2) = handed p i c1 + handed p i c2.
Proof. unfold handed. by rewrite sum_list_with_app. Qed.

Lemma platforms_step_other st o p i :
  registers o ≠ Some p →
  handed p i (Platforms.step st o).2
  = deliveries p i (Dispatch.step st (to_dispatch o)).2.
Proof.
  intros Hp. destruct o; simpl.
  - destruct (handle_device_data _ _ _) as [[??] events]. simpl.
    apply handed_events.
  - done.
  - unfold handed. simpl. rewrite decide_False; [done|]. by intros <-.
  - unfold handed. simpl. rewrite decide_False; [done|]. by intros <-.
  - unfold handed. simpl. rewrite decide_False; [done|]. by intros <-.
Qed.

Lemma platforms_step_setup st o p i :
  p ≠ SWITCH → registers o = Some p →
  handed p i (Platforms.step st o).2 = of_device i (setup_entities p st.1)
  ∧ dom st.1 ⊆ known_device_ids (Platforms.step st o).1.2.
Proof.
  intros Hsw Hp. destruct o; simpl in Hp; simplify_eq; try done.
  all: split; [|simpl; set_solver].
  all: unfold handed, setup_entities, of_device; simpl; rewrite Nat.add_0_r.
  - by rewrite (setup_loop (capable SENSOR) (entity_of SENSOR)).
  - by rewrite (setup_loop (capable NUMBER) (entity_of NUMBER)).
  - by rewrite (setup_loop (capable SELECT) (entity_of SELECT)).
Qed.

Lemma platforms_step_adders st o p :
  registers o ≠ Some p →
  async_add_entities (Platforms.step st o).1.2 !! p
  = async_add_entities st.2 !! p.
Proof.
  intros Hp. rewrite platforms_step_state.
  destruct o; cbn [to_dispatch registers] in *.
  - rewrite step_ingest. destruct (Registry.store_devices st.1 _).2; [|done].
    simpl. by rewrite notify_adders.
  - simpl. rewrite lookup_insert_ne; [done|]. by intros <-.
  - simpl. rewrite lookup_insert_ne; [done|]. by intros <-.
  - simpl. rewrite lookup_insert_ne; [done|]. by intros <-.
  - simpl. rewrite lookup_insert_ne; [done|]. by intros <-.
Qed.

Lemma platforms_run_cons st o ops :
  Platforms.run st (o :: ops) =
  ((Platforms.run (Platforms.step st o).1 ops).1,
   (Platforms.step st o).2 ++ (Platforms.run (Platforms.step st o).1 ops).2).
Proof.
  simpl. destruct (Platforms.step st o) as [st1 c1]. simpl.
  by destruct (Platforms.run st1 ops).
Qed.

Lemma platforms_run_app st ops1 ops2 :
  Platforms.run st (ops1 ++ ops2) =
  ((Platforms.run (Platforms.run st ops1).1 ops2).1,
   (Platforms.run st ops1).2 ++ (Platforms.run (Platforms.run st ops1).1 ops2).2).
Proof.
  revert st; induction ops1 as [|o ops1 IH]; intros st.
  - simpl. by destruct (Platforms.run st ops2).
  - rewrite <-app_comm_cons, !platforms_run_cons, IH. cbn [fst snd].
    by rewrite app_assoc.
Qed.

#[local] Opaque Platforms.step Dispatch.step.

Lemma platforms_run_state st ops :
  (Platforms.run st ops).1 = (Dispatch.run st (to_dispatch <$> ops)).1.
Proof.
  revert st; induction ops as [|o ops IH]; intros st; [done|].
  rewrite fmap_cons, platforms_run_cons, run_cons. cbn [fst].
  by rewrite IH, platforms_step_state.
Qed.

(** While no operation registers the sink of [p], the sink gets what the
    dispatcher sends it. *)
Lemma platforms_run_other st ops p i :
  Forall (λ o, registers o ≠ Some p) ops →
  handed p i (Platforms.run st ops).2
  = deliveries p i (Dispatch.run st (to_dispatch <$> ops)).2.
Proof.
  intros Hops. revert st; induction Hops as [|o ops Ho _ IH]; intros st; [done|].
  rewrite fmap_cons, platforms_run_cons, run_cons. cbn [snd].
  rewrite handed_app, deliveries_app, platforms_step_other by done.
  by rewrite IH, platforms_step_state.
Qed.

(** Before the sink of [p] is registered it gets nothing. *)
Lemma platforms_run_unregistered st ops p i :
  Forall (λ o, registers o ≠ Some p) ops →
  async_add_entities st.2 !! p = None →
  handed p i (Platforms.run st ops).2 = 0.
Proof.
  intros Hops. revert st; induction Hops as [|o ops Ho _ IH]; intros st Hp;
    [done|].
  rewrite platforms_run_cons. cbn [snd].
  rewrite handed_app, platforms_step_other by done.
  rewrite step_unregistered by done.
  apply IH. by rewrite platforms_step_adders.
Qed.

(** A device that is known gets nothing more, once the setup of [p] is
    over. *)
Lemma platforms_run_known st ops p i :
  Forall (λ o, registers o ≠ Some p) ops →
  i ∈ known_device_ids st.2 →
  handed p i (Platforms.run st ops).2 = 0.
Proof.
  intros Hops Hi. rewrite platforms_run_other by done.
  pose proof (run_deliveries st (to_dispatch <$> ops) p i) as H.
  rewrite run_known_quiet in H by done. lia.
Qed.

Lemma platforms_run_once st ops p i :
  Forall (λ o, registers o ≠ Some p) ops →
  handed p i (Platforms.run st ops).2 ≤ 1.
Proof.
  intros Hops. rewrite platforms_run_other by done.
  etrans; [apply run_deliveries|apply run_once].
Qed.

(** The entities of a device in the list of a setup. *)
Lemma setup_count p i (l : list (string * device_record)) :
  NoDup l.*1 →
  of_device i ((λ item, entity_of p item.1)
                 <$> filter (λ item, capable p item.2 = true) l) ≤ 1
  ∧ (0 < of_device i ((λ item, entity_of p item.1)
                        <$> filter (λ item, capable p item.2 = true) l) →
     i ∈ l.*1)
  ∧ (∀ d, (i, d) ∈ l → capable p d = true →
          of_device i ((λ item, entity_of p item.1)
                         <$> filter (λ item, capable p item.2 = true) l) = 1).
Proof.
  assert (∀ j, entity_device (entity_of p j) = j) as Hmk by by destruct p.
  induction l as [|[j d] l IH]; intros Hdup.
  - unfold of_device. simpl. split; [lia|]. split; [lia|].
    by intros d ?%elem_of_nil.
  - rewrite fmap_cons in Hdup. apply NoDup_cons in Hdup as [Hj Hdup].
    destruct (IH Hdup) as (Hle & Hpos & Hone). clear IH.
    rewrite filter_cons. cbn [snd fst].
    destruct (decide (capable p d = true)) as [Hc|Hc].
    + rewrite fmap_cons. cbn [fst]. unfold of_device in *.
      rewrite filter_cons, Hmk.
      destruct (decide (j = i)) as [->|Hne]; cbn [length].
      * assert (length (filter (λ x, entity_device x = i)
                  ((λ item, entity_of p item.1)
                     <$> filter (λ item, capable p item.2 = true) l)) = 0)
          as Hz.
        { destruct (length _) eqn:E; [done|]. exfalso. apply Hj, Hpos. lia. }
        rewrite Hz. split; [lia|]. split; [intros _; set_solver|done].
      * split; [done|]. split; [intros H; set_solver|].
        intros d' [[= -> ->]|Hin]%elem_of_cons; [done|]. by apply Hone.
    + split; [done|]. split; [intros H; set_solver|].
      intros d' [[= -> ->]|Hin]%elem_of_cons; [done|]. by apply Hone.
Qed.

Lemma setup_entities_le p i data : of_device i (setup_entities p data) ≤ 1.
Proof. apply setup_count, NoDup_fst_map_to_list. Qed.

Lemma setup_entities_dom p i data :
  0 < of_device i (setup_entities p data) → i ∈ dom data.
Proof.
  intros H. apply setup_count in H; [|apply NoDup_fst_map_to_list].
  apply list_elem_of_fmap in H as ([j d] & -> & Hin%elem_of_map_to_list).
  by apply elem_of_dom.
Qed.

Lemma setup_entities_one p i d data :
  data !! i = Some d → capable p d = true →
  of_device i (setup_entities p data) = 1.
Proof.
  intros Hd Hc.
  eapply (setup_count p i (map_to_list data)); [apply NoDup_fst_map_to_list| |done].
  by apply elem_of_map_to_list.
Qed.

Lemma filter_none {A} (P : A → Prop) `{!∀ x, Decision (P x)} (l : list A) :
  length (filter P l) = 0 → Forall (λ x, ¬ P x) l.
Proof.
  intros Hlen. apply Forall_forall. intros x Hx HP.
  apply (filter_nil_not_elem_of P l x); [|done|done].
  by apply nil_length_inv.
Qed.

(** From a state in which the sink of [p] is not registered. *)
Lemma platforms_at_most_once st ops p i :
  p ≠ SWITCH → async_add_entities st.2 !! p = None →
  length (filter (λ o, registers o = Some p) ops) ≤ 1 →
  handed p i (Platforms.run st ops).2 ≤ 1.
Proof.
  intros Hsw. revert st; induction ops as [|o ops IH]; intros st Hp Hlen.
  - unfold handed. simpl. lia.
  - rewrite platforms_run_cons. cbn [snd]. rewrite handed_app.
    rewrite filter_cons in Hlen.
    destruct (decide (registers o = Some p)) as [Ho|Ho].
    + simpl in Hlen.
      assert (Forall (λ o, registers o ≠ Some p) ops) as Hrest
        by (apply (filter_none (λ o, registers o = Some p)); lia).
      destruct (platforms_step_setup st o p i Hsw Ho) as [-> Hknown].
      pose proof (setup_entities_le p i st.1).
      destruct (decide (0 < of_device i (setup_entities p st.1))) as [Hpos|Hz].
      * rewrite platforms_run_known; [lia|done|].
        by apply Hknown, setup_entities_dom with p.
      * pose proof (platforms_run_once (Platforms.step st o).1 ops p i Hrest).
        lia.
    + rewrite platforms_step_other by done.
      rewrite step_unregistered by done.
      apply IH; [|done]. by rewrite platforms_step_adders.
Qed.

End PlatformFacts.

(** X8: with the setups of sensor.py, number.py and select.py in play, and
    whatever batches arrive before, between and after them, the sink of
    such a platform is handed at most one entity of any device, by its
    setup and by discovery together, provided the platform is set up at
    most once. *)
Theorem platform_entity_at_most_once (ops : list Platforms.op)
    (p : Platform) (i : string) :
  p ≠ SWITCH →
  length (filter (λ o, Platforms.registers o = Some p) ops) ≤ 1 →
  Platforms.handed p i (Platforms.run (∅, Coordinator.init) ops).2 ≤ 1.
Proof.
  intros Hsw Hlen. by apply PlatformFacts.platforms_at_most_once.
Qed.

Lemma platform_entity_at_most_once_witness :
  Platforms.handed SENSOR "A"
    (Platforms.run (∅, Coordinator.init)
       [Platforms.Ingest [device_A]; Platforms.SwitchAdder 0;
        Platforms.SensorSetup 1; Platforms.Ingest [device_A']]).2 ≤ 1.
Proof.
  apply (platform_entity_at_most_once
           [Platforms.Ingest [device_A]; Platforms.SwitchAdder 0;
            Platforms.SensorSetup 1; Platforms.Ingest [device_A']]
           SENSOR "A").
  - discriminate.
  - vm_compute. lia.
Defined.

(** X9: a device that is in the registry when such a platform is set up,
    with the fields the platform asks for, is handed to the sink exactly
    once over the whole run: by the setup, and never by discovery, neither
    before nor after. *)
Theorem present_at_setup_handed_once (pre post : list Platforms.op)
    (o : Platforms.op) (p : Platform) (i : string) (d : device_record) :
  p ≠ SWITCH → Platforms.registers o = Some p →
  Forall (λ o', Platforms.registers o' ≠ Some p) (pre ++ post) →
  (Platforms.run (∅, Coordinator.init) pre).1.1 !! i = Some d →
  DiscoveryFacts.capable p d = true →
  Platforms.handed p i
    (Platforms.run (∅, Coordinator.init) (pre ++ o :: post)).2 = 1.
Proof.
  intros Hsw Ho [Hpre Hpost]%Forall_app Hd Hc.
  rewrite PlatformFacts.platforms_run_app. cbn [snd].
  rewrite PlatformFacts.handed_app, PlatformFacts.platforms_run_cons. cbn [snd].
  rewrite PlatformFacts.handed_app.
  rewrite PlatformFacts.platforms_run_unregistered by done.
  destruct (PlatformFacts.platforms_step_setup
              (Platforms.run (∅, Coordinator.init) pre).1 o p i Hsw Ho)
    as [-> Hknown].
  rewrite (PlatformFacts.setup_entities_one p i d) by done.
  rewrite PlatformFacts.platforms_run_known; [done|done|].
  apply Hknown. by apply elem_of_dom.
Qed.

Lemma present_at_setup_handed_once_witness :
  Platforms.handed SENSOR "A"
    (Platforms.run (∅, Coordinator.init)
       ([Platforms.Ingest [device_A]; Platforms.SwitchAdder 0]
        ++ Platforms.SensorSetup 1 :: [Platforms.Ingest [device_A']])).2 = 1.
Proof.
  apply (present_at_setup_handed_once
           [Platforms.Ingest [device_A]; Platforms.SwitchAdder 0]
           [Platforms.Ingest [device_A']]
           (Platforms.SensorSetup 1) SENSOR "A" device_A).
  - discriminate.
  - reflexivity.
  - repeat constructor; discriminate.
  - vm_compute. reflexivity.
  - reflexivity.
Defined.

(** ** The session: what no call changes *)

Module SessionFacts.
Import Client ClientFacts.

(** The fields the connection management leaves alone. *)
Definition same_store (c c' : client) : Prop :=
  token c' = token c ∧ buffer c' = buffer c ∧ data c' = data c
  ∧ coordinator c' = coordinator c.

Ltac unfold_session :=
  unfold connect, handle_disconnect, shutdown, close_connection,
    schedule_reconnect, start_heartbeat, send_heartbeat_wrapper,
    send_heartbeat, cancel_if_set;
  cbn;
  repeat match goal with
    | |- context [match ?x with _ => _ end] => is_var x; destruct x; cbn
    end.

Ltac crush_store :=
  intros [[[] rd wr tok rt ht lt buf dat co] h]; unfold_session;
  by repeat split.

Lemma start_heartbeat_store w : same_store w.1 (start_heartbeat w).1.
Proof. revert w. crush_store. Qed.

Lemma schedule_reconnect_store w : same_store w.1 (schedule_reconnect w).1.
Proof. revert w. crush_store. Qed.

Lemma close_connection_store w : same_store w.1 (close_connection w).1.
Proof. revert w. crush_store. Qed.

Lemma connect_store opened w : same_store w.1 (connect opened w).1.
Proof. revert w. crush_store. Qed.

Lemma handle_disconnect_store w : same_store w.1 (handle_disconnect w).1.
Proof. revert w. crush_store. Qed.

Lemma shutdown_store w : same_store w.1 (shutdown w).1.
Proof. revert w. crush_store. Qed.

Lemma send_heartbeat_wrapper_store sent w :
  same_store w.1 (send_heartbeat_wrapper sent w).1.1.
Proof. revert w. crush_store. Qed.

Lemma send_command_self command sent self :
  (send_command command sent self).1.1 = self.
Proof.
  unfold send_command. destruct (writer self); [|done].
  destruct (negb (is_running self)); [done|]. by destruct sent.
Qed.

(** ** Events that are not writes *)

Definition quiet (events : list event) : Prop :=
  Forall (λ e, is_Write e = false) events.

Lemma notify_quiet data c : quiet (Coordinator.notify_data_received data c).2.
Proof.
  rewrite CoordinatorFacts.notify_unfold.
  destruct (Coordinator.any_adder c); [|by repeat constructor]. cbn [snd].
  pose proof (CoordinatorFacts.discover_loop_inv _ (map_to_list data)
                (CoordinatorFacts.start_inv c)) as [Hlog _ _ _ _ _].
  unfold quiet. rewrite !Forall_app. split.
  { eapply Forall_impl; [exact Hlog|]. by intros e [j ->]. }
  repeat split.
  all: try match goal with
         | |- Forall _ (Coordinator.schedule ?c ?p ?es) =>
             destruct (CoordinatorFacts.schedule_cases c p es) as [->|[-> _]];
             by repeat constructor
         end.
  by repeat constructor.
Qed.

Lemma handle_device_data_quiet l data c : quiet (handle_device_data l data c).2.
Proof.
  rewrite DispatchFacts.handle_device_data_unfold.
  destruct (Registry.store_devices data l).2; [|by constructor].
  destruct c as [c|]; [apply notify_quiet|by constructor].
Qed.

Section Messages.
Variable loads : list byte → option decoded.

Lemma handle_message_quiet m st :
  quiet st.2 → quiet (handle_message loads m st).2.
Proof.
  intros Hst. unfold handle_message, handle_device_data_.
  destruct (loads m) as [[l| |l]|]; [| done | |].
  - pose proof (handle_device_data_quiet l (data st.1) (coordinator st.1)) as H.
    destruct (handle_device_data l (data st.1) (coordinator st.1)) as [[d c] e].
    apply Forall_app. by split.
  - apply Forall_app. split; [done|]. by repeat constructor.
  - apply Forall_app. split; [done|]. by repeat constructor.
Qed.

Lemma handle_frames_quiet frames st :
  quiet st.2 → quiet (handle_frames loads frames st).2.
Proof.
  revert st; induction frames as [|m frames IH]; intros st Hst; [done|].
  apply IH. by apply handle_message_quiet.
Qed.

Lemma process_buffer_quiet self : quiet (process_buffer loads self).2.
Proof.
  rewrite process_buffer_frames. cbn [snd].
  apply handle_frames_quiet. by constructor.
Qed.

(** ** The registry under the frames of a read *)

Lemma handle_message_dom m st :
  dom (data st.1) ⊆ dom (data (handle_message loads m st).1).
Proof.
  unfold handle_message, handle_device_data_.
  destruct (loads m) as [[l| |l]|]; [| done | |done].
  - pose proof (DispatchFacts.handle_device_data_data l (data st.1)
                  (coordinator st.1)) as H.
    destruct (handle_device_data l (data st.1) (coordinator st.1)) as [[d c] e].
    simpl in *. subst d. apply DispatchFacts.store_devices_dom.
  - simpl. apply DispatchFacts.store_devices_dom.
Qed.

Lemma handle_frames_dom frames st :
  dom (data st.1) ⊆ dom (data (handle_frames loads frames st).1).
Proof.
  revert st; induction frames as [|m frames IH]; intros st; [done|].
  etrans; [apply (handle_message_dom m st)|apply IH].
Qed.

Lemma process_buffer_dom self :
  dom (data self) ⊆ dom (data (process_buffer loads self).1).
Proof.
  rewrite process_buffer_frames. cbn [fst].
  apply (handle_frames_dom _ (self, [])).
Qed.

(** The decoder yields no record of device [i]. *)
Definition silent_on (i : string) : Prop :=
  ∀ m l r, loads m = Some (DeviceData l) ∨ loads m = Some (Broken l) →
           r ∈ l → device_id r ≠ Some i.

Lemma store_devices_untouched data l i :
  (∀ r, r ∈ l → device_id r ≠ Some i) →
  (Registry.store_devices data l).1 !! i = data !! i.
Proof.
  intros Hl. unfold Registry.store_devices.
  rewrite RegistryFacts.store_devices_lookup.
  destruct (last _) as [r|] eqn:Hlast; [|done].
  apply last_Some_elem_of, list_elem_of_filter in Hlast as [Hk Hin].
  apply RegistryFacts.key_Some in Hk as [Hid _]. by destruct (Hl r Hin).
Qed.

Lemma handle_message_untouched i m st :
  silent_on i → data (handle_message loads m st).1 !! i = data st.1 !! i.
Proof.
  intros Hi. unfold handle_message, handle_device_data_.
  destruct (loads m) as [[l| |l]|] eqn:Hm; [| done | |done].
  - pose proof (DispatchFacts.handle_device_data_data l (data st.1)
                  (coordinator st.1)) as H.
    destruct (handle_device_data l (data st.1) (coordinator st.1)) as [[d c] e].
    simpl in *. subst d. apply store_devices_untouched. intros r. apply (Hi m). eauto.
  - simpl. apply store_devices_untouched. intros r. apply (Hi m). eauto.
Qed.

Lemma handle_frames_untouched i frames st :
  silent_on i → data (handle_frames loads frames st).1 !! i = data st.1 !! i.
Proof.
  intros Hi. revert st; induction frames as [|m frames IH]; intros st; [done|].
  etrans; [apply IH|]. by apply handle_message_untouched.
Qed.

Lemma process_buffer_untouched i self :
  silent_on i → data (process_buffer loads self).1 !! i = data self !! i.
Proof.
  intros Hi. rewrite process_buffer_frames. cbn [fst].
  by apply (handle_frames_untouched i _ (self, [])).
Qed.

(** ** One action *)

(** What every action keeps: the token, and the devices of the registry. *)
Lemma step_keeps w a :
  token (step loads w a).1.1 = token w.1
  ∧ dom (data w.1) ⊆ dom (data (step loads w a).1.1)
  ∧ ∀ i, silent_on i → data (step loads w a).1.1 !! i = data w.1 !! i.
Proof.
  assert (∀ c c', same_store c c' →
            token c' = token c ∧ dom (data c) ⊆ dom (data c')
            ∧ ∀ i, silent_on i → data c' !! i = data c !! i) as Hstore.
  { intros c c' (-> & _ & -> & _). done. }
  destruct a as [opened|task bytes|timer ok|command sent| |p f];
    unfold step; cbn [fst].
  - apply Hstore, connect_store.
  - destruct w as [self h]. unfold listen.
    destruct (bool_decide (task ∈ tasks h)); [|done].
    pose proof (handle_disconnect_store (self, h)) as Hd.
    destruct bytes as [[|b bytes]|];
      [destruct (handle_disconnect (self, h)) as [self0 h0]; by apply Hstore|
      |destruct (handle_disconnect (self, h)) as [self0 h0]; by apply Hstore].
    clear Hd.
    pose proof (process_buffer_connection loads
                  (set_buffer (buffer self ++ b :: bytes) self))
      as (_ & _ & _ & Htok & _).
    pose proof (process_buffer_dom (set_buffer (buffer self ++ b :: bytes) self))
      as Hdom.
    pose proof (λ i, process_buffer_untouched i
                       (set_buffer (buffer self ++ b :: bytes) self)) as Hunt.
    destruct (process_buffer loads _) as [self' events]. by simpl in *.
  - destruct w as [self h]. unfold fire.
    destruct (list_find _ (timers h)) as [[? [? [? []]]]|]; cbn [fst].
    + apply (Hstore self), (connect_store ok (self, _)).
    + apply (Hstore self), (send_heartbeat_wrapper_store ok (self, _)).
    + done.
  - pose proof (send_command_self command sent w.1) as H.
    destruct (send_command command sent w.1) as [[self r] events].
    simpl in *. by subst.
  - apply Hstore, shutdown_store.
  - destruct (coordinator w.1); done.
Qed.

(** Only a read that brings data changes the buffer. *)
Lemma step_buffer w a :
  (∀ task b bytes, a ≠ Listen task (Some (b :: bytes))) →
  buffer (step loads w a).1.1 = buffer w.1.
Proof.
  intros Ha. destruct a as [opened|task bytes|timer ok|command sent| |p f];
    unfold step; cbn [fst].
  - apply connect_store.
  - destruct w as [self h]. unfold listen.
    destruct (bool_decide (task ∈ tasks h)); [|done].
    pose proof (handle_disconnect_store (self, h)) as Hd.
    destruct bytes as [[|b bytes]|];
      [destruct (handle_disconnect (self, h)) as [self0 h0]; apply Hd|
      |destruct (handle_disconnect (self, h)) as [self0 h0]; apply Hd].
    by destruct (Ha task b bytes).
  - destruct w as [self h]. unfold fire.
    destruct (list_find _ (timers h)) as [[? [? [? []]]]|]; cbn [fst].
    + apply (connect_store ok (self, _)).
    + apply (send_heartbeat_wrapper_store ok (self, _)).
    + done.
  - pose proof (send_command_self command sent w.1) as H.
    destruct (send_command command sent w.1) as [[self r] events].
    simpl in *. by subst.
  - apply shutdown_store.
  - destruct (coordinator w.1); done.
Qed.

(** What a message carries of the token. *)
Definition carries (tok : option string) (m : message) : Prop :=
  match m with
  | Heartbeat _ t => t = tok
  | Command c => ∀ t, tok = Some t → c !! "token"%string = Some (VStr t)
  end.

(** A write goes to the socket of the session, which runs, and carries
    its token. *)
Lemma step_write w a sock m :
  Write sock m ∈ (step loads w a).2 →
  writer w.1 = Some sock ∧ is_running w.1 = true
  ∧ carries (token_if_set w.1) m.
Proof.
  assert (∀ events, quiet events → Write sock m ∈ events → False) as Hquiet.
  { intros events Hq Hin. unfold quiet in Hq. rewrite Forall_forall in Hq.
    by apply Hq in Hin. }
  destruct a as [opened|task bytes|timer ok|command sent| |p f];
    unfold step; cbn [snd].
  - by intros ?%elem_of_nil.
  - destruct w as [self h]. unfold listen.
    destruct (bool_decide (task ∈ tasks h)); [|by intros ?%elem_of_nil].
    destruct bytes as [[|b bytes]|].
    + destruct (handle_disconnect (self, h)). by intros ?%elem_of_nil.
    + pose proof (process_buffer_quiet
                    (set_buffer (buffer self ++ b :: bytes) self)) as Hq.
      destruct (process_buffer loads _) as [self' events].
      intros Hin. by destruct (Hquiet _ Hq Hin).
    + destruct (handle_disconnect (self, h)). by intros ?%elem_of_nil.
  - destruct w as [self h]. unfold fire.
    destruct (list_find _ (timers h)) as [[? [? [? []]]]|]; cbn [snd];
      [by intros ?%elem_of_nil| |by intros ?%elem_of_nil].
    unfold send_heartbeat_wrapper, send_heartbeat. cbn [fst].
    destruct (writer self) as [s|]; [|by destruct (_ && _); intros ?%elem_of_nil].
    destruct (coordinator self) as [c|];
      [|by destruct (_ && _); intros ?%elem_of_nil].
    destruct (is_running self); [|by intros ?%elem_of_nil].
    destruct ok; cbn.
    + intros [[= -> ->]|?%elem_of_nil]%elem_of_cons; done.
    + intros [[=]|?%elem_of_nil]%elem_of_cons; done.
  - destruct w as [self h]. unfold send_command. cbn [fst].
    destruct (writer self) as [s|];
      [|by intros [[=]|?%elem_of_nil]%elem_of_cons].
    destruct (is_running self); cbn;
      [|by intros [[=]|?%elem_of_nil]%elem_of_cons].
    destruct sent; [|by intros [[=]|?%elem_of_nil]%elem_of_cons].
    intros [[= -> ->]|?%elem_of_nil]%elem_of_cons; [|done].
    do 2 (split; [done|]). intros t Ht. rewrite Ht. by rewrite lookup_insert_eq.
  - by intros ?%elem_of_nil.
  - destruct (coordinator w.1); by intros ?%elem_of_nil.
Qed.

Lemma session_run_cons w a actions :
  run loads w (a :: actions) =
  ((run loads (step loads w a).1 actions).1,
   (step loads w a).2 ++ (run loads (step loads w a).1 actions).2).
Proof.
  simpl. destruct (step loads w a) as [w1 e1]. simpl.
  by destruct (run loads w1 actions).
Qed.


Lemma run_keeps w actions :
  token (run loads w actions).1.1 = token w.1
  ∧ dom (data w.1) ⊆ dom (data (run loads w actions).1.1)
  ∧ ∀ i, silent_on i → data (run loads w actions).1.1 !! i = data w.1 !! i.
Proof.
  revert w; induction actions as [|a actions IH]; intros w; [done|].
  rewrite session_run_cons. cbn [fst].
  destruct (IH (step loads w a).1) as (Ht & Hd & Hu).
  destruct (step_keeps w a) as (Ht' & Hd' & Hu').
  split; [congruence|]. split; [by etrans|].
  intros i Hi. by rewrite Hu, Hu'.
Qed.

Lemma run_buffer w actions :
  Forall (λ a, ∀ task b bytes, a ≠ Listen task (Some (b :: bytes))) actions →
  buffer (run loads w actions).1.1 = buffer w.1.
Proof.
  intros Hactions. revert w.
  induction Hactions as [|a actions Ha _ IH]; intros w; [done|].
  rewrite session_run_cons. cbn [fst]. by rewrite IH, step_buffer.
Qed.

Lemma token_if_set_Some self tok :
  token self = Some tok → tok ≠ ""%string → token_if_set self = Some tok.
Proof.
  intros Ht Hne. unfold token_if_set, truthy. rewrite Ht.
  by rewrite bool_decide_eq_true_2.
Qed.

Lemma run_write w actions tok sock m :
  token w.1 = Some tok → tok ≠ ""%string →
  Write sock m ∈ (run loads w actions).2 → carries (Some tok) m.
Proof.
  intros Ht Hne. revert w Ht.
  induction actions as [|a actions IH]; intros w Ht.
  - by intros ?%elem_of_nil.
  - rewrite session_run_cons. cbn [snd].
    intros [Hin|Hin]%elem_of_app.
    + apply step_write in Hin as (_ & _ & Hc).
      by rewrite (token_if_set_Some _ tok) in Hc.
    + apply (IH (step loads w a).1); [|done].
      by destruct (step_keeps w a) as (-> & _).
Qed.

(** ** After [shutdown] *)

Definition stopped (c : client) : Prop :=
  is_running c = false ∧ writer c = None.

Lemma close_connection_shrinks w : shrinks w.2 (close_connection w).2.
Proof.
  destruct w as [self h]. unfold close_connection.
  destruct (listen_task self) as [t|]; simpl; destruct (writer self); simpl;
    repeat (eapply shrinks_trans;
            [|first [apply close_shrinks|apply cancel_if_set_shrinks
                    |apply cancel_task_shrinks]]);
    apply shrinks_refl.
Qed.

Lemma close_connection_closed w :
  writer w.1 = None → connections (close_connection w).2 = connections w.2.
Proof.
  destruct w as [self h]. simpl. intros Hw. unfold close_connection.
  destruct (listen_task self) as [t|]; simpl; rewrite Hw; simpl;
    by destruct (cancel_if_set_fields (heartbeat_task self) h) as (_ & -> & _)
    || by destruct (cancel_if_set_fields (heartbeat_task self) (cancel_task t h))
         as (_ & -> & _).
Qed.

Lemma close_connection_writer w :
  writer (close_connection w).1 = None
  ∧ is_running (close_connection w).1 = is_running w.1.
Proof.
  destruct w as [self h]. unfold close_connection.
  destruct (listen_task self) as [t|]; simpl;
    destruct (writer self) eqn:E; simpl; by rewrite ?E.
Qed.

Lemma shutdown_stopped w : stopped (shutdown w).1.
Proof.
  destruct w as [self h]. unfold shutdown.
  destruct (close_connection_writer
              (set_is_running false self,
               cancel_if_set (heartbeat_task (set_is_running false self))
                 (cancel_if_set (reconnect_task (set_is_running false self)) h)))
    as [Hw Hr].
  by split.
Qed.

Lemma shutdown_shrinks w : shrinks w.2 (shutdown w).2.
Proof.
  destruct w as [self h]. unfold shutdown.
  eapply shrinks_trans; [|apply (close_connection_shrinks (_, _))].
  eapply shrinks_trans; apply cancel_if_set_shrinks.
Qed.

Lemma step_stopped w a :
  stopped w.1 →
  stopped (step loads w a).1.1 ∧ quiet (step loads w a).2
  ∧ shrinks w.2 (step loads w a).1.2
  ∧ connections (step loads w a).1.2 = connections w.2.
Proof.
  intros [Hrun Hw].
  destruct a as [opened|task bytes|timer ok|command sent| |p f];
    unfold step; cbn [fst snd].
  - destruct w as [self h]. cbn [fst snd] in *. unfold connect. rewrite Hrun. simpl.
    repeat split; try done. constructor.
  - destruct w as [self h]. cbn [fst snd] in *. unfold listen.
    destruct (bool_decide (task ∈ tasks h));
      [|repeat split; try done; constructor].
    assert (handle_disconnect (self, h) = (self, h)) as Hdis
      by (unfold handle_disconnect; by rewrite Hrun).
    destruct bytes as [[|b bytes]|]; rewrite ?Hdis; cbn [fst snd];
      [repeat split; try done; constructor| |repeat split; try done; constructor].
    pose proof (process_buffer_connection loads
                  (set_buffer (buffer self ++ b :: bytes) self))
      as (Hr' & _ & Hw' & _).
    pose proof (process_buffer_quiet
                  (set_buffer (buffer self ++ b :: bytes) self)) as Hq.
    destruct (process_buffer loads _) as [self' events]. simpl in *.
    rewrite Hr', Hrun. simpl.
    split; [split; congruence|]. split; [done|].
    split; [apply cancel_task_shrinks|done].
  - destruct w as [self h]. cbn [fst snd] in *. unfold fire.
    destruct (list_find _ (timers h)) as [[? [? [? []]]]|]; cbn [fst snd].
    + unfold connect. rewrite Hrun. simpl.
      split; [done|]. split; [constructor|]. split; [apply expire_shrinks|done].
    + unfold send_heartbeat_wrapper, send_heartbeat. rewrite Hw, Hrun. simpl.
      split; [done|]. split; [constructor|]. split; [apply expire_shrinks|done].
    + repeat split; try done. constructor.
  - pose proof (send_command_self command sent w.1) as Hself.
    assert ((send_command command sent w.1).2 = [SendFailed]) as Hev
      by (unfold send_command; by rewrite Hw).
    destruct (send_command command sent w.1) as [[self r] events].
    simpl in *. subst. repeat split; try done. by repeat constructor.
  - split; [apply shutdown_stopped|]. split; [constructor|].
    split; [apply shutdown_shrinks|].
    destruct w as [self h]. cbn [fst snd] in *. unfold shutdown.
    rewrite close_connection_closed by done. cbn [snd].
    destruct (cancel_if_set_fields
                (heartbeat_task (set_is_running false self))
                (cancel_if_set (reconnect_task (set_is_running false self)) h))
      as (_ & -> & _).
    by destruct (cancel_if_set_fields
                   (reconnect_task (set_is_running false self)) h)
      as (_ & -> & _).
  - destruct (coordinator w.1); repeat split; try done; constructor.
Qed.

Lemma quiet_writes events : quiet events → writes events = 0.
Proof.
  unfold writes. induction 1 as [|e events He _ IH]; [done|].
  rewrite filter_cons, decide_False; [done|]. by rewrite He.
Qed.

Lemma run_stopped w actions :
  stopped w.1 →
  stopped (run loads w actions).1.1 ∧ quiet (run loads w actions).2
  ∧ shrinks w.2 (run loads w actions).1.2
  ∧ connections (run loads w actions).1.2 = connections w.2.
Proof.
  revert w; induction actions as [|a actions IH]; intros w Hw.
  - repeat split; try done; try apply Hw. constructor.
  - rewrite session_run_cons. cbn [fst snd].
    destruct (step_stopped w a Hw) as (H1 & H2 & H3 & H4).
    destruct (IH _ H1) as (H5 & H6 & H7 & H8).
    split; [done|]. split; [by apply Forall_app|].
    split; [by eapply shrinks_trans|congruence].
Qed.

End Messages.

End SessionFacts.

(** X10: whatever happens to a session that holds a token, every message
    it writes carries that token: a heartbeat in its [token] entry, a
    command in place of whatever [token] entry the caller gave. *)
Theorem every_message_carries_token (loads : list byte → option decoded)
    (w : client * hass) (actions : list action) (tok : string)
    (sock : nat) (m : message) :
  token w.1 = Some tok → tok ≠ ""%string →
  Write sock m ∈ (run loads w actions).2 →
  match m with
  | Heartbeat _ t => t = Some tok
  | Command c => c !! "token"%string = Some (VStr tok)
  end.
Proof.
  intros Ht Hne Hin.
  pose proof (SessionFacts.run_write loads w actions tok sock m Ht Hne Hin) as H.
  destruct m as [l t|c]; [done|]. by apply H.
Qed.

Lemma every_message_carries_token_witness :
  (<["token"%string := VStr "t"]> {["token"%string := VStr "x"]}
     : gmap string value) !! "token"%string = Some (VStr "t").
Proof.
  apply (every_message_carries_token (λ _, None)
           (connect true (setup (Some "t"%string) true))
           [SendCommand {["token"%string := VStr "x"]} true] "t"%string 0
           (Command (<["token"%string := VStr "t"]>
                       {["token"%string := VStr "x"]}))).
  - reflexivity.
  - discriminate.
  - vm_compute. apply list_elem_of_singleton. reflexivity.
Defined.

(** X11: nothing but a read that brings data touches the receive buffer:
    through connection failures, disconnections, reconnections, timers,
    commands and shutdown it stays as it is, so that the bytes of an
    unfinished frame left by one connection are still in front of what
    the next connection receives. *)
Theorem buffer_outlives_connection (loads : list byte → option decoded)
    (w : client * hass) (actions : list action) :
  Forall (λ a, ∀ task b bytes, a ≠ Listen task (Some (b :: bytes))) actions →
  buffer (run loads w actions).1.1 = buffer w.1.
Proof. apply SessionFacts.run_buffer. Qed.

Lemma buffer_outlives_connection_witness :
  buffer (run (λ _, None)
            (run (λ _, None) (setup None true)
               [Connect true; Listen 1 (Some [x7b])]).1
            [Listen 1 None; Fire 3 true; SendCommand ∅ true; Shutdown]).1.1
  = [x7b].
Proof.
  apply (buffer_outlives_connection (λ _, None)
           (run (λ _, None) (setup None true)
              [Connect true; Listen 1 (Some [x7b])]).1
           [Listen 1 None; Fire 3 true; SendCommand ∅ true; Shutdown]).
  repeat constructor; discriminate.
Defined.

(** X12: the registry never loses a device: whatever is read, and whatever
    happens to the connection, an id that is in the registry stays in
    it. *)
Theorem registry_never_forgets (loads : list byte → option decoded)
    (w : client * hass) (actions : list action) :
  dom (data w.1) ⊆ dom (data (run loads w actions).1.1).
Proof. apply SessionFacts.run_keeps. Qed.



(** X14: [shutdown] is final.  Whatever is called after it, the session
    stays stopped and without a writer, writes no message, arms no timer
    and opens no connection: the timers left are among those [shutdown]
    left, and the connections are the same. *)
Theorem shutdown_is_final (loads : list byte → option decoded)
    (w : client * hass) (actions : list action) :
  is_running (run loads (shutdown w) actions).1.1 = false
  ∧ writer (run loads (shutdown w) actions).1.1 = None
  ∧ writes (run loads (shutdown w) actions).2 = 0
  ∧ timers (run loads (shutdown w) actions).1.2
      `sublist_of` timers (shutdown w).2
  ∧ connections (run loads (shutdown w) actions).1.2
    = connections (shutdown w).2.
Proof.
  destruct (SessionFacts.run_stopped loads (shutdown w) actions
              (SessionFacts.shutdown_stopped w))
    as ([Hrun Hw] & Hq & (Hsub & _) & Hc).
  split; [done|]. split; [done|].
  split; [by apply SessionFacts.quiet_writes|]. by split.
Qed.

(** ** The session: sockets and timers *)

Module LifecycleFacts.
Import Client ClientFacts.

Ltac unfold_loop :=
  unfold send_heartbeat_wrapper, connect, handle_disconnect, shutdown;
  unfold close_connection, schedule_reconnect, start_heartbeat,
    send_heartbeat;
  unfold cancel_if_set, cancel, async_call_later, open_connection,
    async_create_task, close, cancel_task, expire;
  cbn;
  repeat match goal with
    | |- context [match ?x with _ => _ end] => is_var x; destruct x; cbn
    | |- context [isinstance_TimerHandle ?t] =>
        is_var t; destruct t as [? []]; cbn
    end.

(** The streams are set together, to a connection that is open. *)
Definition streams_ok (w : client * hass) : Prop :=
  reader w.1 = writer w.1 ∧ ∀ s, writer w.1 = Some s → s ∈ connections w.2.

Ltac crush_streams :=
  intros [[[] rd wr tok rt ht lt buf dat co] [n tm cn tk th]] [Hrd Hc];
  cbn in Hrd, Hc; subst rd; unfold_loop;
  (split; cbn; [done|]); intros s Hs; simplify_eq;
  first [by apply Hc|set_solver].

Lemma connect_streams opened w : streams_ok w → streams_ok (connect opened w).
Proof. revert w. crush_streams. Qed.

Lemma handle_disconnect_streams w : streams_ok w → streams_ok (handle_disconnect w).
Proof. revert w. crush_streams. Qed.

Lemma shutdown_streams w : streams_ok w → streams_ok (shutdown w).
Proof. revert w. crush_streams. Qed.

Lemma send_heartbeat_wrapper_streams sent w :
  streams_ok w → streams_ok (send_heartbeat_wrapper sent w).1.
Proof. revert w. crush_streams. Qed.

(** Every timer is a timer that was there, or one armed for a reconnection
    after [RECONNECT_DELAY] or for a heartbeat after [HEARTBEAT_INTERVAL]. *)
Definition armed_ok (h h' : hass) : Prop :=
  ∀ x, x ∈ timers h' →
       x ∈ timers h ∨ x.2 = (RECONNECT_DELAY, HandleReconnect)
       ∨ x.2 = (HEARTBEAT_INTERVAL, SendHeartbeatWrapper).

Ltac solve_armed x Hx :=
  repeat first
    [ apply elem_of_app in Hx as [Hx|Hx]
    | apply list_elem_of_filter in Hx as [_ Hx]
    | apply list_elem_of_singleton in Hx; subst x ];
  first [by left|by right; left|by right; right|by apply elem_of_nil in Hx].

Ltac crush_armed :=
  intros [[[] rd wr tok rt ht lt buf dat co] [n tm cn tk th]];
  unfold_loop; intros x Hx; cbn in *; solve_armed x Hx.

Lemma connect_armed opened w : armed_ok w.2 (connect opened w).2.
Proof. revert w. crush_armed. Qed.

Lemma handle_disconnect_armed w : armed_ok w.2 (handle_disconnect w).2.
Proof. revert w. crush_armed. Qed.

Lemma shutdown_armed w : armed_ok w.2 (shutdown w).2.
Proof. revert w. crush_armed. Qed.

Lemma send_heartbeat_wrapper_armed sent w :
  armed_ok w.2 (send_heartbeat_wrapper sent w).1.2.
Proof. revert w. crush_armed. Qed.

Lemma armed_ok_refl h : armed_ok h h.
Proof. intros x Hx. by left. Qed.

Lemma armed_ok_trans h1 h2 h3 : armed_ok h1 h2 → armed_ok h2 h3 → armed_ok h1 h3.
Proof.
  intros H12 H23 x Hx. destruct (H23 x Hx) as [Hx'|?]; [|by right].
  by apply H12.
Qed.

Lemma shrinks_armed h h' : shrinks h h' → armed_ok h h'.
Proof. intros Hs x Hx. left. by eapply shrinks_elem. Qed.

Lemma streams_ok_loop c h h' :
  connections h' = connections h → streams_ok (c, h) → streams_ok (c, h').
Proof. intros Hc [Hr Hw]. split; [done|]. cbn [fst snd] in *. by rewrite Hc. Qed.

Section Steps.
Variable loads : list byte → option decoded.

Lemma step_streams w a : streams_ok w → streams_ok (step loads w a).1.
Proof.
  intros Hw. destruct a as [opened|task bytes|timer ok|command sent| |p f];
    unfold step; cbn [fst].
  - by apply connect_streams.
  - destruct w as [self h]. unfold listen.
    destruct (bool_decide (task ∈ tasks h)); [|done].
    pose proof (handle_disconnect_streams _ Hw) as Hd.
    destruct bytes as [[|b bytes]|];
      [destruct (handle_disconnect (self, h)) as [self0 h0];
       by apply (streams_ok_loop self0 h0)|
      |destruct (handle_disconnect (self, h)) as [self0 h0];
       by apply (streams_ok_loop self0 h0)].
    pose proof (process_buffer_connection loads
                  (set_buffer (buffer self ++ b :: bytes) self))
      as (_ & Hrd & Hwr & _).
    destruct (process_buffer loads _) as [self' events]. cbn [fst snd] in *.
    destruct Hw as [Hr Hc]. cbn [fst snd] in *. simpl in Hrd, Hwr.
    assert (streams_ok (self', h)) as Hs.
    { split; cbn [fst snd]; [congruence|]. intros s Hs. apply Hc. congruence. }
    destruct (is_running self' && bool_decide (is_Some (reader self')));
      [done|by apply (streams_ok_loop self' h)].
  - destruct w as [self h]. unfold fire.
    assert (streams_ok (self, expire timer h)) as He
      by by apply (streams_ok_loop self h).
    destruct (list_find _ (timers h)) as [[? [? [? []]]]|]; cbn [fst].
    + by apply connect_streams.
    + by apply send_heartbeat_wrapper_streams.
    + done.
  - pose proof (SessionFacts.send_command_self command sent w.1) as H.
    destruct (send_command command sent w.1) as [[self r] events].
    cbn [fst snd] in *. subst. by destruct w.
  - by apply shutdown_streams.
  - destruct w as [self h]. cbn [fst snd]. by destruct (coordinator self).
Qed.

Lemma step_armed w a : armed_ok w.2 (step loads w a).1.2.
Proof.
  destruct a as [opened|task bytes|timer ok|command sent| |p f];
    unfold step; cbn [fst].
  - apply connect_armed.
  - destruct w as [self h]. unfold listen.
    destruct (bool_decide (task ∈ tasks h)); [|apply armed_ok_refl].
    pose proof (handle_disconnect_armed (self, h)) as Hd.
    destruct bytes as [[|b bytes]|];
      [destruct (handle_disconnect (self, h)) as [self0 h0];
       eapply armed_ok_trans; [exact Hd|apply shrinks_armed, cancel_task_shrinks]|
      |destruct (handle_disconnect (self, h)) as [self0 h0];
       eapply armed_ok_trans; [exact Hd|apply shrinks_armed, cancel_task_shrinks]].
    destruct (process_buffer loads _) as [self' events]. cbn [fst snd].
    destruct (is_running self' && bool_decide (is_Some (reader self')));
      [apply armed_ok_refl|apply shrinks_armed, cancel_task_shrinks].
  - destruct w as [self h]. unfold fire.
    destruct (list_find _ (timers h)) as [[? [? [? []]]]|]; cbn [fst snd].
    + eapply armed_ok_trans; [apply shrinks_armed, (expire_shrinks timer)|].
      apply (connect_armed ok (self, _)).
    + eapply armed_ok_trans; [apply shrinks_armed, (expire_shrinks timer)|].
      apply (send_heartbeat_wrapper_armed ok (self, _)).
    + apply armed_ok_refl.
  - destruct (send_command command sent w.1) as [[self r] events].
    apply armed_ok_refl.
  - apply shutdown_armed.
  - destruct (coordinator w.1); apply armed_ok_refl.
Qed.

Lemma run_streams w actions : streams_ok w → streams_ok (run loads w actions).1.
Proof.
  revert w; induction actions as [|a actions IH]; intros w Hw; [done|].
  rewrite SessionFacts.session_run_cons. cbn [fst]. by apply IH, step_streams.
Qed.

Lemma run_armed w actions : armed_ok w.2 (run loads w actions).1.2.
Proof.
  revert w; induction actions as [|a actions IH]; intros w;
    [apply armed_ok_refl|].
  rewrite SessionFacts.session_run_cons. cbn [fst].
  eapply armed_ok_trans; [apply step_armed|apply IH].
Qed.

End Steps.

End LifecycleFacts.

(** X15: a session never writes to a socket it has closed, or to one it
    has not opened: whatever was called before, a message is written to a
    connection that is open at that time. *)
Theorem writes_go_to_open_socket (loads : list byte → option decoded)
    (token : option string) (timer_handles : bool) (pre : list action)
    (a : action) (sock : nat) (m : message) :
  Write sock m ∈ (step loads (run loads (setup token timer_handles) pre).1 a).2 →
  sock ∈ connections (run loads (setup token timer_handles) pre).1.2.
Proof.
  intros (Hw & _)%SessionFacts.step_write.
  by apply (LifecycleFacts.run_streams loads (setup token timer_handles) pre).
Qed.

Lemma writes_go_to_open_socket_witness :
  0 ∈ connections (run (λ _, None) (setup None true) [Connect true]).1.2.
Proof.
  apply (writes_go_to_open_socket (λ _, None) None true [Connect true]
           (SendCommand ∅ true) 0 (Command ∅)).
  vm_compute. apply list_elem_of_singleton. reflexivity.
Defined.

(** X16: the delays are fixed.  Every timer a session has scheduled, at
    any time, is either a reconnection after [RECONNECT_DELAY] seconds or
    a heartbeat after [HEARTBEAT_INTERVAL] seconds: the retry delay does
    not grow with the number of failures. *)
Theorem timer_delays_fixed (loads : list byte → option decoded)
    (token : option string) (timer_handles : bool) (actions : list action)
    (x : nat * (nat * callback)) :
  x ∈ timers (run loads (setup token timer_handles) actions).1.2 →
  x.2 = (RECONNECT_DELAY, HandleReconnect)
  ∨ x.2 = (HEARTBEAT_INTERVAL, SendHeartbeatWrapper).
Proof.
  intros Hx.
  destruct (LifecycleFacts.run_armed loads (setup token timer_handles)
              actions x Hx) as [Hin|H]; [|done].
  by apply elem_of_nil in Hin.
Qed.

Lemma timer_delays_fixed_witness :
  (1, (RECONNECT_DELAY, HandleReconnect)).2 = (RECONNECT_DELAY, HandleReconnect)
  ∨ (1, (RECONNECT_DELAY, HandleReconnect)).2
    = (HEARTBEAT_INTERVAL, SendHeartbeatWrapper).
Proof.
  apply (timer_delays_fixed (λ _, None) None true
           [Connect false; Fire 0 false]
           (1, (RECONNECT_DELAY, HandleReconnect))).
  vm_compute. apply list_elem_of_singleton. reflexivity.
Defined.

(** ** The session driven by the event loop

    [async_setup_entry] calls [connect] once; after that the session is
    driven by its listen task, its timers, the commands of the entities
    and, at the end, [shutdown].  Such a session is in one of three
    states. *)

Module PhaseFacts.
Import Client ClientFacts LifecycleFacts.















Section Driven.
Variable loads : list byte → option decoded.





End Driven.

End PhaseFacts.







(** ** The login and the config entry *)

Module ConfigFlowFacts.
Import ConfigFlow.

(** The three ways [_login_and_get_token] ends, read off the answer. *)
Lemma login_cases r :
  match login_and_get_token r with
  | Raise ConnectionException => r = RequestFailed
  | Raise AttributeError =>
      r = NotAnObject
      ∨ ∃ data v, r = Body data ∧ data !! "data"%string = Some (Atom v)
  | Raise AuthException =>
      ∃ data response_data,
        r = Body data
        ∧ default (Object ∅) (data !! "data"%string) = Object response_data
        ∧ (data !! "status"%string ≠ Some (Atom (VNum 1))
           ∨ falsy (default VNone (response_data !! "token"%string)) = true)
  | Return i =>
      ∃ data response_data,
        r = Body data
        ∧ data !! "status"%string = Some (Atom (VNum 1))
        ∧ data !! "data"%string = Some (Object response_data)
        ∧ response_data !! "token"%string = Some (info_token i)
        ∧ falsy (info_token i) = false
        ∧ info_host i
          = default (VStr DEFAULT_HOST) (response_data !! "host"%string)
        ∧ info_port i
          = default (VNum DEFAULT_PORT) (response_data !! "port"%string)
  end.
Proof.
  destruct r as [|data|]; simpl; [done| |by left].
  destruct (data !! "status"%string) as [status|] eqn:Hs; simpl;
    destruct (data !! "data"%string) as [[v|response_data]|] eqn:Hd; simpl;
    repeat case_decide; simplify_eq; simpl.
  all: try (right; by exists data, v).
  all: try (eexists data, _; rewrite Hd; split; [done|]; split; [done|];
            left; congruence).
  - destruct (response_data !! "token"%string) as [tok|] eqn:Ht; simpl.
    + destruct (falsy tok) eqn:Hf.
      * exists data, response_data. rewrite Hd, Ht. by repeat split; try right.
      * exists data, response_data. by repeat split.
    + exists data, response_data. rewrite Hd, Ht. by repeat split; try right.
  - exists data, ∅. rewrite Hd. split; [done|]. split; [done|]. by right.
Qed.

End ConfigFlowFacts.

(** X20: the flow creates a config entry only when no entry exists yet and
    the server's answer is an object with [status] 1 whose [data] is an
    object with a token that is neither missing nor null nor empty; the
    entry holds that token and the user name, and the host and the port of
    the answer, or [DEFAULT_HOST] and [DEFAULT_PORT] where the answer has
    none.  And every such answer gives the entry. *)
Theorem entry_needs_token (user_input : option (string * string))
    (r : ConfigFlow.response) (already_configured : bool)
    (title : string) (e : ConfigFlow.entry) :
  ConfigFlow.async_step_user user_input r already_configured
  = ConfigFlow.CreateEntry title e
  ↔ already_configured = false
    ∧ (∃ password, user_input = Some (ConfigFlow.CONF_USERNAME e, password))
    ∧ title = String.append "Yuelly ("
                (String.append (ConfigFlow.CONF_USERNAME e) ")")
    ∧ ∃ data response_data,
        r = ConfigFlow.Body data
        ∧ data !! "status"%string = Some (ConfigFlow.Atom (VNum 1))
        ∧ data !! "data"%string = Some (ConfigFlow.Object response_data)
        ∧ response_data !! "token"%string = Some (ConfigFlow.CONF_TOKEN e)
        ∧ ConfigFlow.falsy (ConfigFlow.CONF_TOKEN e) = false
        ∧ ConfigFlow.CONF_HOST e
          = default (VStr ConfigFlow.DEFAULT_HOST)
              (response_data !! "host"%string)
        ∧ ConfigFlow.CONF_PORT e
          = default (VNum ConfigFlow.DEFAULT_PORT)
              (response_data !! "port"%string).
Proof.
  unfold ConfigFlow.async_step_user. split.
  - destruct user_input as [[username password]|]; [|done].
    pose proof (ConfigFlowFacts.login_cases r) as H.
    destruct (ConfigFlow.login_and_get_token r) as [i|[]]; try done.
    destruct already_configured; [done|]. intros [= <- <-]. simpl.
    split; [done|]. split; [by exists password|]. split; [done|]. exact H.
  - intros (-> & (password & ->) & -> & data & rd & -> & Hs & Hd & Ht & Hf & Hh & Hp).
    simpl. rewrite Hs, Hd. simpl.
    rewrite Ht. simpl. rewrite Hf. destruct e as [u t h p]. simpl in *.
    by rewrite Hh, Hp.
Qed.

(** X21: how the flow names a failed login.  The form shows [connection]
    exactly when the request itself failed; [auth] when the answer is an
    object whose [status] is not 1, or whose [data] has no usable token;
    and [unknown] when the answer, or its [data], is not an object: the
    lines that read them stand after the [try] block. *)
Theorem login_errors_classified (username password : string)
    (r : ConfigFlow.response) (already_configured : bool) :
  (ConfigFlow.async_step_user (Some (username, password)) r already_configured
   = ConfigFlow.ShowForm (Some "connection"%string)
   ↔ r = ConfigFlow.RequestFailed)
  ∧ (ConfigFlow.async_step_user (Some (username, password)) r already_configured
     = ConfigFlow.ShowForm (Some "auth"%string)
     ↔ ∃ data response_data,
         r = ConfigFlow.Body data
         ∧ default (ConfigFlow.Object ∅) (data !! "data"%string)
           = ConfigFlow.Object response_data
         ∧ (data !! "status"%string ≠ Some (ConfigFlow.Atom (VNum 1))
            ∨ ConfigFlow.falsy
                (default VNone (response_data !! "token"%string)) = true))
  ∧ (ConfigFlow.async_step_user (Some (username, password)) r already_configured
     = ConfigFlow.ShowForm (Some "unknown"%string)
     ↔ r = ConfigFlow.NotAnObject
       ∨ ∃ data v, r = ConfigFlow.Body data
                   ∧ data !! "data"%string = Some (ConfigFlow.Atom v)).
Proof.
  unfold ConfigFlow.async_step_user.
  pose proof (ConfigFlowFacts.login_cases r) as H.
  destruct (ConfigFlow.login_and_get_token r) as [i|[]] eqn:E.
  - destruct H as (data & rd & -> & Hs & Hd & Ht & Hf & _).
    assert (∀ x, (if already_configured then ConfigFlow.AbortFlow
                  else ConfigFlow.CreateEntry
                         (String.append "Yuelly (" (String.append username ")"))
                         {| ConfigFlow.CONF_USERNAME := username;
                            ConfigFlow.CONF_TOKEN := ConfigFlow.info_token i;
                            ConfigFlow.CONF_HOST := ConfigFlow.info_host i;
                            ConfigFlow.CONF_PORT := ConfigFlow.info_port i |})
                 ≠ ConfigFlow.ShowForm x) as Hne
      by (intros x; by destruct already_configured).
    split; [|split]; (split; [intros Hx; by destruct (Hne _ Hx)|]).
    + done.
    + intros (data' & rd' & [= <-] & Hd' & [Hs'|Hf']); [done|].
      rewrite Hd in Hd'. simpl in Hd'. injection Hd' as <-.
      rewrite Ht in Hf'. simpl in Hf'. congruence.
    + intros [?|(data' & v & [= <-] & Hd')]; [done|]. congruence.
  - destruct H as (data & rd & -> & Hd & Hor).
    split; [|split]; split; try done.
    + intros _. by exists data, rd.
    + intros [?|(data' & v & [= <-] & Hd')]; [done|].
      rewrite Hd' in Hd. done.
  - subst r. split; [|split]; split; try done.
    + by intros (data & rd & ? & _).
    + by intros [?|(data & v & ? & _)].
  - split; [|split]; split; try done.
    + intros ->. by destruct H as [?|(data & v & ? & _)].
    + intros (data & rd & -> & Hd & _).
      destruct H as [?|(data' & v & [= <-] & Hd')]; [done|].
      rewrite Hd' in Hd. done.
Qed.

(** ** The receive buffer between reads *)

Module BufferFacts.
Import Client ClientFacts.

Section Reads.
Variable loads : list byte → option decoded.

Lemma process_buffer_rest self :
  Framing.split_once MESSAGE_DELIMITER (buffer (process_buffer loads self).1)
  = None.
Proof.
  unfold process_buffer.
  pose proof (FramingFacts.process_loop_rest (handle_message loads)
                (buffer self) (self, [])) as H.
  by destruct (Framing.process_loop _ (buffer self) (self, [])) as [st rest].
Qed.

Lemma step_rest w a :
  Framing.split_once MESSAGE_DELIMITER (buffer w.1) = None →
  Framing.split_once MESSAGE_DELIMITER (buffer (step loads w a).1.1) = None.
Proof.
  intros Hw.
  assert ((∃ task b bytes, a = Listen task (Some (b :: bytes)))
          ∨ ∀ task b bytes, a ≠ Listen task (Some (b :: bytes)))
    as [(task & b & bytes & ->)|Ha].
  { destruct a as [| task [[|b bytes]|] | | | |]; try by right.
    left. by exists task, b, bytes. }
  - destruct w as [self h]. unfold step, listen.
    destruct (bool_decide (task ∈ tasks h)); [|done].
    pose proof (process_buffer_rest
                  (set_buffer (buffer self ++ b :: bytes) self)) as H.
    by destruct (process_buffer loads _) as [self' events].
  - by rewrite SessionFacts.step_buffer.
Qed.

Lemma run_rest w actions :
  Framing.split_once MESSAGE_DELIMITER (buffer w.1) = None →
  Framing.split_once MESSAGE_DELIMITER (buffer (run loads w actions).1.1) = None.
Proof.
  revert w; induction actions as [|a actions IH]; intros w Hw; [done|].
  rewrite SessionFacts.session_run_cons. cbn [fst]. by apply IH, step_rest.
Qed.

End Reads.

End BufferFacts.

(** X23: between two calls no complete frame waits in the receive buffer:
    whatever a session has read and whatever else has happened to it, its
    buffer holds no delimiter; every frame that has arrived in full has
    been handed to the decoder. *)
Theorem no_frame_left_waiting (loads : list byte → option decoded)
    (token : option string) (timer_handles : bool) (actions : list action) :
  Framing.contains MESSAGE_DELIMITER
    (buffer (run loads (setup token timer_handles) actions).1.1) = false.
Proof.
  unfold Framing.contains.
  by rewrite (BufferFacts.run_rest loads (setup token timer_handles) actions).
Qed.

(** ** A device that arrives after the setup of a platform *)

Module ArrivalFacts.
Import Coordinator CoordinatorFacts RegistryFacts DispatchFacts DiscoveryFacts.
Import KnownFacts Platforms PlatformFacts.

Lemma deliveries_elem p i es events :
  AddEntities p es ∈ events → of_device i es ≤ deliveries p i events.
Proof.
  unfold deliveries. induction events as [|e events IH].
  - by intros ?%elem_of_nil.
  - intros [<-|Hin]%elem_of_cons; cbn [sum_list_with].
    + unfold of_device. simpl. rewrite decide_True by done. lia.
    + specialize (IH Hin). lia.
Qed.

Lemma of_device_elem i e es : e ∈ es → entity_device e = i → 1 ≤ of_device i es.
Proof.
  intros Hin He. unfold of_device.
  assert (e ∈ filter (λ x, entity_device x = i) es) as H
    by by apply list_elem_of_filter.
  destruct (filter _ es); [by apply elem_of_nil in H|simpl; lia].
Qed.

(** A new device with the fields of a platform whose sink is registered is
    handed to that sink, once. *)
Lemma notify_delivers_new data self p i d :
  is_Some (async_add_entities self !! p) → data !! i = Some d →
  i ∉ known_device_ids self → capable p d = true →
  deliveries p i (notify_data_received data self).2 = 1.
Proof.
  intros Hp Hd Hi Hc.
  pose proof (notify_deliveries data self p i) as Hle.
  pose proof (notify_once data self i) as Hone.
  assert (∃ es, AddEntities p es ∈ (notify_data_received data self).2
                ∧ entity_of p i ∈ es) as (es & Hin & He).
  { apply notify_entities. split; [done|]. by exists i, d. }
  pose proof (deliveries_elem p i es _ Hin) as Hge.
  pose proof (of_device_elem i _ es He) as H1.
  assert (entity_device (entity_of p i) = i) as Hdev by by destruct p.
  specialize (H1 Hdev). lia.
Qed.

Lemma platforms_tracks_step st o : tracks st → tracks (Platforms.step st o).1.
Proof. intros H. rewrite platforms_step_state. by apply tracks_step. Qed.

Lemma platforms_dom_step st o : dom st.1 ⊆ dom (Platforms.step st o).1.1.
Proof. rewrite platforms_step_state. apply step_dom. Qed.

Lemma platforms_dom_run st ops : dom st.1 ⊆ dom (Platforms.run st ops).1.1.
Proof.
  revert st; induction ops as [|o ops IH]; intros st; [done|].
  rewrite platforms_run_cons. cbn [fst].
  etrans; [apply (platforms_dom_step st o)|apply IH].
Qed.

(** A sink is handed entities of devices of the registry only. *)
Lemma platforms_step_absent st o p i :
  p ≠ SWITCH → tracks st → i ∉ dom (Platforms.step st o).1.1 →
  handed p i (Platforms.step st o).2 = 0.
Proof.
  intros Hsw Hst Hi.
  destruct (decide (registers o = Some p)) as [Ho|Ho].
  - destruct (platforms_step_setup st o p i Hsw Ho) as [-> _].
    destruct (of_device i (setup_entities p st.1)) eqn:E; [done|].
    exfalso. apply Hi, (platforms_dom_step st o), (setup_entities_dom p).
    lia.
  - rewrite platforms_step_other by done.
    pose proof (step_deliveries st (to_dispatch o) p i) as Hle.
    destruct (discoveries i (Dispatch.step st (to_dispatch o)).2) eqn:E;
      [lia|].
    exfalso. apply Hi. rewrite platforms_step_state.
    apply (tracks_step st (to_dispatch o) Hst).
    apply step_discovered_known. lia.
Qed.

Lemma platforms_run_absent st ops p i :
  p ≠ SWITCH → tracks st → i ∉ dom (Platforms.run st ops).1.1 →
  handed p i (Platforms.run st ops).2 = 0.
Proof.
  intros Hsw. revert st; induction ops as [|o ops IH]; intros st Hst Hi;
    [done|].
  rewrite platforms_run_cons in *. cbn [fst snd] in *. rewrite handed_app.
  rewrite IH; [|by apply platforms_tracks_step|done].
  rewrite platforms_step_absent; [done|done|done|].
  intros Hin. by apply Hi, (platforms_dom_run _ ops).
Qed.

Lemma platforms_tracks_run st ops : tracks st → tracks (Platforms.run st ops).1.
Proof.
  revert st; induction ops as [|o ops IH]; intros st Hst; [done|].
  rewrite platforms_run_cons. cbn [fst]. by apply IH, platforms_tracks_step.
Qed.

(** A sink, once registered, stays. *)
Lemma platforms_step_registered st o p :
  registers o = Some p ∨ is_Some (async_add_entities st.2 !! p) →
  is_Some (async_add_entities (Platforms.step st o).1.2 !! p).
Proof.
  intros [Ho|Hp].
  - destruct o; simpl in Ho; simplify_eq; simpl;
      by rewrite lookup_insert_eq.
  - destruct (async_add_entities (Platforms.step st o).1.2 !! p) eqn:E;
      [done|].
    rewrite platforms_step_state in E. apply step_adders in E.
    rewrite E in Hp. by destruct Hp.
Qed.

Lemma platforms_run_registered st ops p :
  (∃ o, o ∈ ops ∧ registers o = Some p)
  ∨ is_Some (async_add_entities st.2 !! p) →
  is_Some (async_add_entities (Platforms.run st ops).1.2 !! p).
Proof.
  revert st; induction ops as [|o ops IH]; intros st H.
  - destruct H as [(o & Hin & _)|H]; [by apply elem_of_nil in Hin|done].
  - rewrite platforms_run_cons. cbn [fst]. apply IH.
    destruct H as [(o' & [->|Hin]%elem_of_cons & Ho)|H].
    + right. apply platforms_step_registered. by left.
    + left. by exists o'.
    + right. apply platforms_step_registered. by right.
Qed.

End ArrivalFacts.

(** X24: a device that is not in the registry until a batch brings it,
    after the setup of sensor.py, number.py or select.py has run, is
    handed to the sink of that platform exactly once over the whole run,
    by discovery, if the record the batch stores for it has the fields the
    platform asks for, and the setup does not run again. *)
Theorem arriving_after_setup_handed_once (pre post : list Platforms.op)
    (l : list device_record) (p : Platform) (i : string) (d : device_record) :
  p ≠ SWITCH →
  (∃ o, o ∈ pre ∧ Platforms.registers o = Some p) →
  Forall (λ o, Platforms.registers o ≠ Some p) post →
  i ∉ dom (Platforms.run (∅, Coordinator.init) pre).1.1 →
  i ≠ ""%string →
  last (filter (λ r, device_id r = Some i) l) = Some d →
  DiscoveryFacts.capable p d = true →
  Platforms.handed p i
    (Platforms.run (∅, Coordinator.init)
       (pre ++ Platforms.Ingest l :: post)).2 = 1.
Proof.
  intros Hsw Hreg Hpost Hi Hne Hlast Hc.
  assert (KnownFacts.tracks (∅, Coordinator.init)) as Hinit.
  { split; [done|]. intros H. vm_compute in H. discriminate H. }
  pose proof (ArrivalFacts.platforms_tracks_run _ pre Hinit) as [Hsub _].
  pose proof (ArrivalFacts.platforms_run_registered (∅, Coordinator.init) pre p
                (or_introl Hreg)) as Hp.
  rewrite PlatformFacts.platforms_run_app. cbn [snd].
  rewrite PlatformFacts.handed_app.
  rewrite ArrivalFacts.platforms_run_absent by done.
  set (st := (Platforms.run (∅, Coordinator.init) pre).1) in *.
  rewrite PlatformFacts.platforms_run_cons. cbn [snd].
  rewrite PlatformFacts.handed_app.
  rewrite PlatformFacts.platforms_step_other by done.
  rewrite PlatformFacts.platforms_step_state. cbn [PlatformFacts.to_dispatch].
  rewrite step_ingest.
  assert ((Registry.store_devices st.1 l).1 !! i = Some d) as Hd.
  { unfold Registry.store_devices. rewrite store_devices_lookup.
    by rewrite filter_key, Hlast. }
  assert ((Registry.store_devices st.1 l).2 = true) as Hch.
  { destruct (Registry.store_devices st.1 l) as [d1 b] eqn:E.
    destruct b; [done|]. exfalso. unfold Registry.store_devices in E.
    apply store_devices_false in E as [-> _]. simpl in Hd.
    apply Hi. by apply elem_of_dom. }
  rewrite Hch. cbn [fst snd].
  rewrite (ArrivalFacts.notify_delivers_new _ _ p i d);
    [|done|done|by intros ?%Hsub|done].
  rewrite PlatformFacts.platforms_run_known; [done|done|]. cbn [fst snd].
  apply notify_known_all; [|by apply elem_of_dom].
  apply DiscoveryFacts.any_adder_true. by exists p.
Qed.

Lemma arriving_after_setup_handed_once_witness :
  Platforms.handed SENSOR "A"
    (Platforms.run (∅, Coordinator.init)
       ([Platforms.SensorSetup 1] ++ Platforms.Ingest [device_A]
        :: [Platforms.Ingest [device_A']; Platforms.NumberSetup 2])).2 = 1.
Proof.
  apply (arriving_after_setup_handed_once [Platforms.SensorSetup 1]
           [Platforms.Ingest [device_A']; Platforms.NumberSetup 2]
           [device_A] SENSOR "A" device_A).
  - discriminate.
  - exists (Platforms.SensorSetup 1). split; [|reflexivity].
    apply list_elem_of_singleton. reflexivity.
  - repeat constructor; discriminate.
  - vm_compute. intros H. discriminate H.
  - discriminate.
  - reflexivity.
  - reflexivity.
Defined.

(** ** Closing twice *)

Module ClosingFacts.
Import Client ClientFacts LifecycleFacts.

Lemma filter_twice {A} (P Q : A → Prop) `{!∀ x, Decision (P x)}
    `{!∀ x, Decision (Q x)} (l : list A) :
  filter P (filter Q (filter P l)) = filter Q (filter P l).
Proof.
  induction l as [|x l IH]; [done|].
  rewrite (filter_cons P x l). destruct (decide (P x)) as [HP|HP]; [|done].
  rewrite (filter_cons Q x). destruct (decide (Q x)) as [HQ|HQ]; [|done].
  rewrite (filter_cons P x), decide_True by done. by rewrite IH.
Qed.

Lemma filter_again {A} (P : A → Prop) `{!∀ x, Decision (P x)} (l : list A) :
  filter P (filter P l) = filter P l.
Proof.
  induction l as [|x l IH]; [done|].
  rewrite (filter_cons P x l). destruct (decide (P x)) as [HP|HP]; [|done].
  rewrite (filter_cons P x), decide_True by done. by rewrite IH.
Qed.

End ClosingFacts.

(** X25: [shutdown] is idempotent: a second call, right after the first,
    changes nothing, whatever state the session and the event loop were
    in. *)
Theorem shutdown_idempotent (w : client * hass) :
  shutdown (shutdown w) = shutdown w.
Proof.
  destruct w as [[run rd wr tok rt ht lt buf dat co] [n tm cn tk th]].
  unfold shutdown, close_connection, cancel_if_set, cancel, close, cancel_task.
  cbn.
  destruct rt as [[r []]|], ht as [[hb []]|], lt as [t|], wr as [s|]; cbn;
    rewrite ?ClosingFacts.filter_again, ?ClosingFacts.filter_twice;
    reflexivity.
Qed.
